(** * Advanced data structures: trie, Fenwick tree and skip list

    A shallow embedding of [src/trie.py], [src/fenwick_tree.py] and
    [src/skip_list.py], with the properties of the three structures.

    Python integers are unbounded, so they are modelled by [Z].  A [while]
    loop is a function with a fuel argument counting iterations; running
    out of fuel is the outcome [OutOfFuel], which is not a behaviour of
    the program: a loop returns when some amount of fuel makes the model
    return, and diverges when no amount does. *)

From Stdlib Require Import Ascii.
From stdpp Require Import base numbers list strings.

Open Scope Z_scope.

(** ** Outcomes of a Python call *)

Inductive exn : Set :=
  IndexError | AttributeError | KeyError | RecursionError.

Inductive result (A : Type) : Type :=
| Ret (a : A)
| Raise (e : exn)
| OutOfFuel.
Arguments Ret {A} a.
Arguments Raise {A} e.
Arguments OutOfFuel {A}.

Global Instance result_ret : MRet result := @Ret.
Global Instance result_bind : MBind result := λ A B f m,
  match m with
  | Ret a => f a
  | Raise e => Raise e
  | OutOfFuel => OutOfFuel
  end.

(** [l[i]] on a Python list: a negative index counts from the end. *)
Definition py_pos {A} (l : list A) (i : Z) : result nat :=
  let len := Z.of_nat (length l) in
  if bool_decide (0 ≤ i < len) then Ret (Z.to_nat i)
  else if bool_decide (- len ≤ i < 0) then Ret (Z.to_nat (len + i))
  else Raise IndexError.

(** [l[i]] with [i] a natural number. *)
Definition get_item {A} (l : list A) (i : nat) : result A :=
  match l !! i with
  | Some x => Ret x
  | None => Raise IndexError
  end.

(** [l[i] = x] with [i] a natural number. *)
Definition set_item {A} (l : list A) (i : nat) (x : A) : result (list A) :=
  if bool_decide (i < length l)%nat then Ret (<[i := x]> l) else Raise IndexError.

(** ** Fenwick tree ([src/fenwick_tree.py]) *)

Module Fenwick.

Record FenwickTree : Type := mkFenwick { size : Z; tree : list Z }.

(** [__init__]: [self.tree = [0] * (size + 1)]. *)
Definition init (size : Z) : FenwickTree :=
  {| size := size; tree := replicate (Z.to_nat (size + 1)) 0 |}.

(** [index & (-index)] *)
Definition lowbit (index : Z) : Z := Z.land index (- index).

(** [self.tree[index] += delta] *)
Definition add_at (tree : list Z) (index delta : Z) : result (list Z) :=
  k ← py_pos tree index;
  v ← get_item tree k;
  set_item tree k (v + delta).

(** The loop of [update], entered with the 1-based index. *)
Fixpoint update_loop (fuel : nat) (size : Z) (tree : list Z) (index delta : Z)
  : result (list Z) :=
  if bool_decide (index ≤ size) then
    match fuel with
    | O => OutOfFuel
    | S fuel' =>
        tree' ← add_at tree index delta;
        update_loop fuel' size tree' (index + lowbit index) delta
    end
  else Ret tree.

Definition update (fuel : nat) (ft : FenwickTree) (index delta : Z)
  : result FenwickTree :=
  tree' ← update_loop fuel (size ft) (tree ft) (index + 1) delta;
  Ret {| size := size ft; tree := tree' |}.

(** The loop of [query], entered with the 1-based index and [result = 0]. *)
Fixpoint query_loop (fuel : nat) (tree : list Z) (index res : Z) : result Z :=
  if bool_decide (index > 0) then
    match fuel with
    | O => OutOfFuel
    | S fuel' =>
        k ← py_pos tree index;
        v ← get_item tree k;
        query_loop fuel' tree (index - lowbit index) (res + v)
    end
  else Ret res.

Definition query (fuel : nat) (ft : FenwickTree) (index : Z) : result Z :=
  query_loop fuel (tree ft) (index + 1) 0.

Definition range_query (fuel : nat) (ft : FenwickTree) (left right : Z)
  : result Z :=
  if bool_decide (left > 0) then
    qr ← query fuel ft right;
    ql ← query fuel ft (left - 1);
    Ret (qr - ql)
  else query fuel ft right.

(** [for i, val in enumerate(arr): self.update(i, val)], from position [i]. *)
Fixpoint build_loop (fuel : nat) (ft : FenwickTree) (i : Z) (arr : list Z)
  : result FenwickTree :=
  match arr with
  | [] => Ret ft
  | val :: arr' =>
      ft' ← update fuel ft i val;
      build_loop fuel ft' (i + 1) arr'
  end.

Definition build_from_array (fuel : nat) (ft : FenwickTree) (arr : list Z)
  : result FenwickTree :=
  build_loop fuel ft 0 arr.

(** A sequence of [update(index, delta)] calls. *)
Fixpoint run_updates (fuel : nat) (ft : FenwickTree) (ups : list (Z * Z))
  : result FenwickTree :=
  match ups with
  | [] => Ret ft
  | (index, delta) :: ups' =>
      ft' ← update fuel ft index delta;
      run_updates fuel ft' ups'
  end.

(** The sum of the deltas applied at positions [≤ i]. *)
Fixpoint delta_sum (ups : list (Z * Z)) (i : Z) : Z :=
  match ups with
  | [] => 0
  | (index, delta) :: ups' =>
      (if bool_decide (index ≤ i) then delta else 0) + delta_sum ups' i
  end.

(** [arr[0] + ... + arr[i]] *)
Definition prefix_sum (arr : list Z) (i : Z) : Z :=
  foldr Z.add 0 (take (Z.to_nat (i + 1)) arr).

(** The 1-based cell [j] accumulates the 1-based position [x]. *)
Definition covers (j x : Z) : Prop := j - lowbit j < x ≤ j.

Global Instance covers_dec j x : Decision (covers j x).
Proof. unfold covers. apply _. Defined.

(** What cell [j] holds after the updates [ups]. *)
Fixpoint cov_sum (ups : list (Z * Z)) (j : Z) : Z :=
  match ups with
  | [] => 0
  | (index, delta) :: ups' =>
      (if bool_decide (covers j (index + 1)) then delta else 0) + cov_sum ups' j
  end.

(** [enumerate(arr)], counting from [i]. *)
Fixpoint enum_from (i : Z) (arr : list Z) : list (Z * Z) :=
  match arr with
  | [] => []
  | val :: arr' => (i, val) :: enum_from (i + 1) arr'
  end.

(** The cells of a tree of size [n] hold what the updates [ups] put there. *)
Definition fen_inv (n : Z) (t : list Z) (ups : list (Z * Z)) : Prop :=
  length t = Z.to_nat (n + 1) ∧
  ∀ j, 0 ≤ j ≤ n → t !! Z.to_nat j = Some (cov_sum ups j).

(** The shape of every tree built by [init] and changed by [update]. *)
Definition wf (ft : FenwickTree) : Prop :=
  length (tree ft) = Z.to_nat (size ft + 1).

End Fenwick.

(** ** Trie ([src/trie.py]) *)

Module Trie.

(** [children] is a Python [dict]: keys are unique and iteration follows
    the order of first insertion, so it is an association list. *)
#[local] Unset Elimination Schemes.
Inductive TrieNode : Type :=
| Node (is_end : bool) (children : list (ascii * TrieNode)).
#[local] Set Elimination Schemes.

Definition is_end (node : TrieNode) : bool :=
  match node with Node e _ => e end.

Definition children (node : TrieNode) : list (ascii * TrieNode) :=
  match node with Node _ cs => cs end.

(** [TrieNode()] *)
Definition new_node : TrieNode := Node false [].

Record Trie : Type := mkTrie { root : TrieNode; word_count : Z }.

(** [Trie()] *)
Definition init : Trie := {| root := new_node; word_count := 0 |}.

(** [d[char]] when [char in d] *)
Fixpoint dict_get (char : ascii) (d : list (ascii * TrieNode))
  : option TrieNode :=
  match d with
  | [] => None
  | (c, v) :: d' => if decide (char = c) then Some v else dict_get char d'
  end.

(** [d[char] = v]: an existing key keeps its place, a new key goes last. *)
Fixpoint dict_set (char : ascii) (v : TrieNode) (d : list (ascii * TrieNode))
  : list (ascii * TrieNode) :=
  match d with
  | [] => [(char, v)]
  | (c, v') :: d' =>
      if decide (char = c) then (char, v) :: d'
      else (c, v') :: dict_set char v d'
  end.

(** [insert] below [node]: the node after the call, and whether the end
    flag was newly set. *)
Fixpoint insert_node (word : string) (node : TrieNode) : TrieNode * bool :=
  match word with
  | EmptyString => (Node true (children node), negb (is_end node))
  | String char word' =>
      let child := default new_node (dict_get char (children node)) in
      let '(child', fresh) := insert_node word' child in
      (Node (is_end node) (dict_set char child' (children node)), fresh)
  end.

Definition insert (t : Trie) (word : string) : Trie :=
  let '(root', fresh) := insert_node word (root t) in
  {| root := root';
     word_count := if fresh then word_count t + 1 else word_count t |}.

Fixpoint search_node (word : string) (node : TrieNode) : bool :=
  match word with
  | EmptyString => is_end node
  | String char word' =>
      match dict_get char (children node) with
      | None => false
      | Some child => search_node word' child
      end
  end.

Definition search (t : Trie) (word : string) : bool :=
  search_node word (root t).

(** The walk shared by [starts_with] and [get_all_words_with_prefix]. *)
Fixpoint find_node (prefix : string) (node : TrieNode) : option TrieNode :=
  match prefix with
  | EmptyString => Some node
  | String char prefix' =>
      match dict_get char (children node) with
      | None => None
      | Some child => find_node prefix' child
      end
  end.

Definition starts_with (t : Trie) (prefix : string) : bool :=
  match find_node prefix (root t) with
  | Some _ => true
  | None => false
  end.

(** [delete] below [node]: [None] when the call returns [False] (nothing
    is written), the node after the call otherwise. *)
Fixpoint delete_node (word : string) (node : TrieNode) : option TrieNode :=
  match word with
  | EmptyString =>
      if is_end node then Some (Node false (children node)) else None
  | String char word' =>
      match dict_get char (children node) with
      | None => None
      | Some child =>
          match delete_node word' child with
          | None => None
          | Some child' =>
              Some (Node (is_end node) (dict_set char child' (children node)))
          end
      end
  end.

Definition delete (t : Trie) (word : string) : bool * Trie :=
  match delete_node word (root t) with
  | Some root' => (true, {| root := root'; word_count := word_count t - 1 |})
  | None => (false, t)
  end.

Fixpoint _dfs_collect (node : TrieNode) (current_word : string)
    (results : list string) : list string :=
  match node with
  | Node e cs =>
      let results := if e then results ++ [current_word] else results in
      (fix items (cs : list (ascii * TrieNode)) (results : list string)
         : list string :=
         match cs with
         | [] => results
         | (char, child_node) :: cs' =>
             items cs'
               (_dfs_collect child_node (current_word +:+ String char "")
                  results)
         end) cs results
  end.

Definition get_all_words_with_prefix (t : Trie) (prefix : string)
  : list string :=
  match find_node prefix (root t) with
  | None => []
  | Some node => _dfs_collect node prefix []
  end.

(** The calls a client can make on a trie, and their effect on it. *)
Inductive op : Type :=
| Insert (word : string)
| Delete (word : string)
| Search (word : string)
| StartsWith (prefix : string)
| GetAll (prefix : string).

Definition step (t : Trie) (o : op) : Trie :=
  match o with
  | Insert word => insert t word
  | Delete word => (delete t word).2
  | Search _ | StartsWith _ | GetAll _ => t
  end.

End Trie.

(** ** The calls of the trie, with the interpreter's recursion limit *)

(** The functions of [Trie] give the value a call computes.  [TrieRun]
    gives the outcome of the call itself: Python raises [RecursionError]
    when calls nest deeper than the interpreter allows, and [KeyError] when
    a dictionary is subscripted with a key it does not hold.  Every
    operation takes [depth], the number of further nested calls the
    interpreter allows at the point of the call, and [cost], the levels of
    nesting that a call of a built-in ([dict.items], [list.append], the
    call of a class) takes while it runs: 1 on an interpreter that counts
    such calls against the recursion limit, as CPython 3.11 does, and 0 on
    one that counts the calls of Python functions only. *)
Module TrieRun.
Import Trie.

(** A call of a Python function takes one level of nesting for as long as
    its body runs. *)
Definition call {A} (depth : nat) (body : nat → result A) : result A :=
  match depth with
  | O => Raise RecursionError
  | S depth' => body depth'
  end.

Definition builtin {A} (cost depth : nat) (body : nat → result A)
  : result A :=
  if decide (cost ≤ depth)%nat then body (depth - cost)%nat
  else Raise RecursionError.

(** [char in d] *)
Definition dict_in (char : ascii) (d : list (ascii * TrieNode)) : bool :=
  match dict_get char d with
  | Some _ => true
  | None => false
  end.

(** [d[char]] *)
Definition dict_item (char : ascii) (d : list (ascii * TrieNode))
  : result TrieNode :=
  match dict_get char d with
  | Some v => Ret v
  | None => Raise KeyError
  end.

(** [TrieNode()]: the call of the class runs [TrieNode.__init__]. *)
Definition make_node (cost depth : nat) : result TrieNode :=
  builtin cost depth (λ depth', call depth' (λ _, Ret new_node)).

(** The loop of [insert] and the statements after it, below [node]: the
    node after them, and whether the end flag was newly set. *)
Fixpoint insert_loop (cost depth : nat) (word : string) (node : TrieNode)
  : result (TrieNode * bool) :=
  match word with
  | EmptyString => Ret (Node true (children node), negb (is_end node))
  | String char word' =>
      cs ← (if negb (dict_in char (children node))
            then child ← make_node cost depth;
                 Ret (dict_set char child (children node))
            else Ret (children node));
      child ← dict_item char cs;
      '(child', added) ← insert_loop cost depth word' child;
      Ret (Node (is_end node) (dict_set char child' cs), added)
  end.

Definition insert (cost depth : nat) (t : Trie) (word : string)
  : result Trie :=
  call depth (λ depth',
    '(root', added) ← insert_loop cost depth' word (root t);
    Ret {| root := root';
           word_count :=
             if (added : bool) then word_count t + 1 else word_count t |}).

(** The loop shared by [search], [starts_with], [delete] and
    [get_all_words_with_prefix]: the node the word leads to, [None] when
    the loop leaves the method at [char not in node.children]. *)
Fixpoint find_loop (word : string) (node : TrieNode)
  : result (option TrieNode) :=
  match word with
  | EmptyString => Ret (Some node)
  | String char word' =>
      if negb (dict_in char (children node)) then Ret None
      else child ← dict_item char (children node); find_loop word' child
  end.

Definition search (depth : nat) (t : Trie) (word : string) : result bool :=
  call depth (λ _,
    r ← find_loop word (root t);
    match r with
    | None => Ret false
    | Some node => Ret (is_end node)
    end).

Definition starts_with (depth : nat) (t : Trie) (prefix : string)
  : result bool :=
  call depth (λ _,
    r ← find_loop prefix (root t);
    match r with
    | None => Ret false
    | Some _ => Ret true
    end).

(** The loop of [delete] and the statements after it, below [node]:
    [None] when the call returns [False], the node after the call
    otherwise. *)
Fixpoint delete_loop (word : string) (node : TrieNode)
  : result (option TrieNode) :=
  match word with
  | EmptyString =>
      if is_end node then Ret (Some (Node false (children node)))
      else Ret None
  | String char word' =>
      if negb (dict_in char (children node)) then Ret None
      else
        child ← dict_item char (children node);
        r ← delete_loop word' child;
        match r with
        | None => Ret None
        | Some child' =>
            Ret (Some (Node (is_end node)
                         (dict_set char child' (children node))))
        end
  end.

Definition delete (depth : nat) (t : Trie) (word : string)
  : result (bool * Trie) :=
  call depth (λ _,
    r ← delete_loop word (root t);
    match r with
    | Some root' =>
        Ret (true, {| root := root'; word_count := word_count t - 1 |})
    | None => Ret (false, t)
    end).

(** The [for] loop of [_dfs_collect], with [visit] the recursive call. *)
Fixpoint dfs_items
    (visit : TrieNode → string → list string → result (list string))
    (cs : list (ascii * TrieNode)) (current_word : string)
    (results : list string) : result (list string) :=
  match cs with
  | [] => Ret results
  | (char, child_node) :: cs' =>
      results' ← visit child_node (current_word +:+ String char "") results;
      dfs_items visit cs' current_word results'
  end.

(** [_dfs_collect] calls itself once for every child: one level of nesting
    for every level of the tree, and the calls of [append] and [items]
    within the last of them. *)
Fixpoint _dfs_collect (cost depth : nat) (node : TrieNode)
    (current_word : string) (results : list string)
  : result (list string) :=
  match depth with
  | O => Raise RecursionError
  | S depth' =>
      results ← (if is_end node
                 then builtin cost depth' (λ _, Ret (results ++ [current_word]))
                 else Ret results);
      cs ← builtin cost depth' (λ _, Ret (children node));
      dfs_items (_dfs_collect cost depth') cs current_word results
  end.

Definition get_all_words_with_prefix (cost depth : nat) (t : Trie)
    (prefix : string) : result (list string) :=
  call depth (λ depth',
    r ← find_loop prefix (root t);
    match r with
    | None => Ret []
    | Some node => _dfs_collect cost depth' node prefix []
    end).

(** The number of levels of the tree below a node. *)
Fixpoint height (node : TrieNode) : nat :=
  match node with
  | Node _ cs =>
      (fix below (cs : list (ascii * TrieNode)) : nat :=
         match cs with
         | [] => O
         | (_, child) :: cs' => (S (height child) `max` below cs')%nat
         end) cs
  end.

End TrieRun.

(** ** Skip list ([src/skip_list.py]) *)

Module SkipList.

(** The header holds [float('-inf')], every other node an integer. *)
Inductive Key : Type := NegInf | Int (z : Z).

(** A reference to a node is its position in the heap; [None] is Python's
    [None].  [forward] has one slot per level of the node. *)
Record SkipNode : Type := mkNode { key : Key; forward : list (option nat) }.

(** [SkipNode(key, level)] *)
Definition new_node (key : Key) (level : nat) : SkipNode :=
  {| key := key; forward := replicate (level + 1) None |}.

(** The field [p] is left out: the random source is given to [insert] as
    the outcomes of the successive tests [random.random() < self.p]. *)
Record SkipList : Type := mkSkipList {
  max_level : nat;
  heap : list SkipNode;
  header : nat;
  level : nat;
  size : Z }.

(** [SkipList(max_level)] *)
Definition init (max_level : nat) : SkipList :=
  {| max_level := max_level;
     heap := [new_node NegInf max_level];
     header := 0%nat;
     level := 0%nat;
     size := 0 |}.

(** [r.forward[i]], [r.forward[i] = v] and [r.key] *)
Definition get_forward (h : list SkipNode) (r i : nat) : result (option nat) :=
  node ← get_item h r;
  get_item (forward node) i.

Definition set_forward (h : list SkipNode) (r i : nat) (v : option nat)
  : result (list SkipNode) :=
  node ← get_item h r;
  fw ← set_item (forward node) i v;
  set_item h r {| key := key node; forward := fw |}.

Definition get_key (h : list SkipNode) (r : nat) : result Key :=
  node ← get_item h r;
  Ret (key node).

(** [k < key] and [k == key] for a stored key [k] and an integer [key] *)
Definition key_lt (k : Key) (key : Z) : bool :=
  match k with
  | NegInf => true
  | Int z => bool_decide (z < key)
  end.

Definition key_eq (k : Key) (key : Z) : bool :=
  match k with
  | NegInf => false
  | Int z => bool_decide (z = key)
  end.

(** [_random_level]: [draws level] is the outcome of the test
    [random.random() < self.p] made when the counter is [level]. *)
Fixpoint random_level_loop (fuel : nat) (max_level : nat) (draws : nat → bool)
    (level : nat) : result nat :=
  if draws level && bool_decide (level < max_level)%nat then
    match fuel with
    | O => OutOfFuel
    | S fuel' => random_level_loop fuel' max_level draws (level + 1)
    end
  else Ret level.

Definition _random_level (fuel : nat) (sl : SkipList) (draws : nat → bool)
  : result nat :=
  random_level_loop fuel (max_level sl) draws 0.

(** [while current.forward[i] and current.forward[i].key < key:
       current = current.forward[i]] *)
Fixpoint advance (fuel : nat) (h : list SkipNode) (i : nat) (key : Z)
    (current : nat) : result nat :=
  next ← get_forward h current i;
  match next with
  | None => Ret current
  | Some n =>
      k ← get_key h n;
      if key_lt k key then
        match fuel with
        | O => OutOfFuel
        | S fuel' => advance fuel' h i key n
        end
      else Ret current
  end.

(** [for i in range(self.level, -1, -1)], recording [update[i]], from
    level [i] down. *)
Fixpoint descend (fuel : nat) (h : list SkipNode) (key : Z) (i : nat)
    (current : nat) (update : list (option nat))
  : result (nat * list (option nat)) :=
  current' ← advance fuel h i key current;
  update' ← set_item update i (Some current');
  match i with
  | O => Ret (current', update')
  | S i' => descend fuel h key i' current' update'
  end.

(** The same loop in [search], which keeps no [update]. *)
Fixpoint descend_search (fuel : nat) (h : list SkipNode) (key : Z) (i : nat)
    (current : nat) : result nat :=
  current' ← advance fuel h i key current;
  match i with
  | O => Ret current'
  | S i' => descend_search fuel h key i' current'
  end.

(** [for i in range(self.level + 1, new_level + 1):
       update[i] = self.header] *)
Fixpoint fill_header (update : list (option nat)) (header : nat)
    (levels : list nat) : result (list (option nat)) :=
  match levels with
  | [] => Ret update
  | i :: levels' =>
      update' ← set_item update i (Some header);
      fill_header update' header levels'
  end.

(** [update[i].forward[i]] starts by reading [update[i]], which fails on
    [None]. *)
Definition get_update (update : list (option nat)) (i : nat) : result nat :=
  u ← get_item update i;
  match u with
  | None => Raise AttributeError
  | Some r => Ret r
  end.

(** [for i in range(new_level + 1):
       new_node.forward[i] = update[i].forward[i]
       update[i].forward[i] = new_node] *)
Fixpoint splice (h : list SkipNode) (update : list (option nat))
    (new_node : nat) (levels : list nat) : result (list SkipNode) :=
  match levels with
  | [] => Ret h
  | i :: levels' =>
      u ← get_update update i;
      next ← get_forward h u i;
      h1 ← set_forward h new_node i next;
      h2 ← set_forward h1 u i (Some new_node);
      splice h2 update new_node levels'
  end.

Definition insert (fuel : nat) (sl : SkipList) (key : Z) (draws : nat → bool)
  : result SkipList :=
  let update := replicate (max_level sl + 1) None in
  '(_, update) ← descend fuel (heap sl) key (level sl) (header sl) update;
  new_level ← _random_level fuel sl draws;
  '(update, level') ←
    (if bool_decide (level sl < new_level)%nat then
       update' ← fill_header update (header sl)
                   (seq (level sl + 1) (new_level - level sl));
       Ret (update', new_level)
     else Ret (update, level sl));
  let new_node := length (heap sl) in
  let h := heap sl ++ [SkipList.new_node (Int key) new_level] in
  h' ← splice h update new_node (seq 0 (new_level + 1));
  Ret {| max_level := max_level sl;
         heap := h';
         header := header sl;
         level := level';
         size := size sl + 1 |}.

Definition search (fuel : nat) (sl : SkipList) (key : Z) : result bool :=
  current ← descend_search fuel (heap sl) key (level sl) (header sl);
  current ← get_forward (heap sl) current 0;
  match current with
  | None => Ret false
  | Some n =>
      k ← get_key (heap sl) n;
      Ret (key_eq k key)
  end.

(** [for i in range(self.level + 1):
       if update[i].forward[i] != current: break
       update[i].forward[i] = current.forward[i]] *)
Fixpoint unlink (h : list SkipNode) (update : list (option nat))
    (current : nat) (levels : list nat) : result (list SkipNode) :=
  match levels with
  | [] => Ret h
  | i :: levels' =>
      u ← get_update update i;
      next ← get_forward h u i;
      if bool_decide (next ≠ Some current) then Ret h
      else
        next' ← get_forward h current i;
        h' ← set_forward h u i next';
        unlink h' update current levels'
  end.

(** [while self.level > 0 and self.header.forward[self.level] is None:
       self.level -= 1] *)
Fixpoint shrink (h : list SkipNode) (header : nat) (level : nat)
  : result nat :=
  match level with
  | O => Ret O
  | S level' =>
      next ← get_forward h header level;
      match next with
      | None => shrink h header level'
      | Some _ => Ret level
      end
  end.

Definition delete (fuel : nat) (sl : SkipList) (key : Z)
  : result (bool * SkipList) :=
  let update := replicate (max_level sl + 1) None in
  '(current, update) ← descend fuel (heap sl) key (level sl) (header sl) update;
  current ← get_forward (heap sl) current 0;
  match current with
  | None => Ret (false, sl)
  | Some c =>
      k ← get_key (heap sl) c;
      if negb (key_eq k key) then Ret (false, sl)
      else
        h' ← unlink (heap sl) update c (seq 0 (level sl + 1));
        level' ← shrink h' (header sl) (level sl);
        Ret (true, {| max_level := max_level sl;
                      heap := h';
                      header := header sl;
                      level := level';
                      size := size sl - 1 |})
  end.

(** Walking the level-0 chain from [current]: the nodes met and their keys. *)
Fixpoint walk0 (fuel : nat) (h : list SkipNode) (current : nat)
  : result (list (nat * Key)) :=
  next ← get_forward h current 0;
  match next with
  | None => Ret []
  | Some n =>
      match fuel with
      | O => OutOfFuel
      | S fuel' =>
          k ← get_key h n;
          rest ← walk0 fuel' h n;
          Ret ((n, k) :: rest)
      end
  end.

Definition level0 (fuel : nat) (sl : SkipList) : result (list (nat * Key)) :=
  walk0 fuel (heap sl) (header sl).

(** The states a client can reach, whatever the random draws. *)
Inductive reachable : SkipList → Prop :=
| reachable_init max_level : reachable (init max_level)
| reachable_insert sl fuel key draws sl' :
    reachable sl → insert fuel sl key draws = Ret sl' → reachable sl'
| reachable_delete sl fuel key found sl' :
    reachable sl → delete fuel sl key = Ret (found, sl') → reachable sl'.

(** [insert] of the keys in turn, the [k]-th call drawing from [draws k]. *)
Fixpoint insert_all (fuel : nat) (sl : SkipList) (keys : list Z)
    (draws : nat → nat → bool) (k : nat) : result SkipList :=
  match keys with
  | [] => Ret sl
  | key :: keys' =>
      sl' ← insert fuel sl key (draws k);
      insert_all fuel sl' keys' draws (S k)
  end.


(** *** The abstract view of a skip list *)

(** What the heap holds at a reference. *)
Definition fwd (h : list SkipNode) (r i : nat) : option (option nat) :=
  node ← h !! r; forward node !! i.

Definition key_at (h : list SkipNode) (r : nat) : option Key :=
  key <$> h !! r.

Definition flen (h : list SkipNode) (r : nat) : option nat :=
  (λ node, length (forward node)) <$> h !! r.

(** Following level [i] from [c] goes through the nodes [l] in turn... *)
Fixpoint links (h : list SkipNode) (i c : nat) (l : list nat) : Prop :=
  match l with
  | [] => True
  | n :: l' => fwd h c i = Some (Some n) ∧ links h i n l'
  end.

Definition last_or (c : nat) (l : list nat) : nat := default c (last l).

(** ... and stops there. *)
Definition chain (h : list SkipNode) (i c : nat) (l : list nat) : Prop :=
  links h i c l ∧ fwd h (last_or c l) i = Some None.

(** A stored node: its reference, its key and its level. *)
Record entry : Type := mkEntry { e_id : nat; e_key : Z; e_height : nat }.

Definition tall (i : nat) (e : entry) : Prop := (i ≤ e_height e)%nat.

Global Instance tall_dec i e : Decision (tall i e).
Proof. unfold tall. apply _. Defined.

(** The nodes present at level [i], in the order of level 0. *)
Definition ids_at (i : nat) (L : list entry) : list nat :=
  e_id <$> filter (tall i) L.

(** The last node of [A] present at level [i], the header when none is. *)
Definition pred_at (i : nat) (A : list entry) : nat :=
  last_or 0%nat (ids_at i A).

Fixpoint sorted (ks : list Z) : Prop :=
  match ks with
  | [] => True
  | k :: ks' => Forall (λ k', k ≤ k') ks' ∧ sorted ks'
  end.

(** The nodes of [L] are in the heap with their key and level. *)
Definition nodes_ok (h : list SkipNode) (L : list entry) : Prop :=
  Forall (λ e, key_at h (e_id e) = Some (Int (e_key e)) ∧
               flen h (e_id e) = Some (e_height e + 1)%nat) L.

(** The structural invariant: [L] lists the stored nodes in the order of
    level 0, and level [i] links the nodes of [L] that reach level [i]. *)
Record Inv (sl : SkipList) (L : list entry) : Prop := mkInv {
  inv_header : header sl = 0%nat;
  inv_header_key : key_at (heap sl) 0 = Some NegInf;
  inv_header_len : flen (heap sl) 0 = Some (max_level sl + 1)%nat;
  inv_nodes : nodes_ok (heap sl) L;
  inv_ids : NoDup (0%nat :: (e_id <$> L));
  inv_sorted : sorted (e_key <$> L);
  inv_level : (level sl ≤ max_level sl)%nat;
  inv_heights : Forall (λ e, (e_height e ≤ level sl)%nat) L;
  inv_chain : ∀ i, (i ≤ max_level sl)%nat → chain (heap sl) i 0 (ids_at i L);
  inv_size : size sl = Z.of_nat (length L) }.

(** The heap [hc] while [insert] splices the node [nid] of level [nl]:
    levels below [i] are done, the others are as in [h0]. *)
Definition splice_inv (h0 : list SkipNode) (ml nl nid : nat)
    (A B : list entry) (i : nat) (hc : list SkipNode) : Prop :=
  (∀ r, key_at hc r = key_at h0 r) ∧
  (∀ r, flen hc r = flen h0 r) ∧
  length hc = length h0 ∧
  (∀ j, (j < i)%nat → (j ≤ nl)%nat →
     chain hc j 0 (ids_at j A ++ nid :: ids_at j B)) ∧
  (∀ j, (i ≤ j)%nat → (j ≤ ml)%nat → chain hc j 0 (ids_at j (A ++ B))).

(** The heap [hc] while [delete] unlinks the node [d]: levels below [i]
    are done, the others are as in [h0]. *)
Definition unlink_inv (h0 : list SkipNode) (ml : nat) (d : entry)
    (A B : list entry) (i : nat) (hc : list SkipNode) : Prop :=
  (∀ r, key_at hc r = key_at h0 r) ∧
  (∀ r, flen hc r = flen h0 r) ∧
  length hc = length h0 ∧
  (∀ j, (j < i)%nat → (j ≤ ml)%nat → chain hc j 0 (ids_at j (A ++ B))) ∧
  (∀ j, (i ≤ j)%nat → (j ≤ ml)%nat → chain hc j 0 (ids_at j (A ++ d :: B))).

(** Where a new node [new] with key [key] lands in the level-0 walk:
    after every node with a key [≤ key] (so after its equals), or before
    every node with a key [≥ key] (so before its equals). *)
Definition lands_after_equals (before after : list (nat * Key))
    (new : nat) (key : Z) : Prop :=
  ∃ l1 l2, before = l1 ++ l2 ∧
    Forall (λ nk, ∃ z, nk.2 = Int z ∧ z ≤ key) l1 ∧
    Forall (λ nk, ∃ z, nk.2 = Int z ∧ key < z) l2 ∧
    after = l1 ++ (new, Int key) :: l2.

Definition lands_before_equals (before after : list (nat * Key))
    (new : nat) (key : Z) : Prop :=
  ∃ l1 l2, before = l1 ++ l2 ∧
    Forall (λ nk, ∃ z, nk.2 = Int z ∧ z < key) l1 ∧
    Forall (λ nk, ∃ z, nk.2 = Int z ∧ key ≤ z) l2 ∧
    after = l1 ++ (new, Int key) :: l2.

End SkipList.

(** ** Further notions used to state properties of the three structures *)

Module FenwickSpec.

(** The sum of the deltas applied at positions [left .. right]. *)
Fixpoint range_sum (ups : list (Z * Z)) (left right : Z) : Z :=
  match ups with
  | [] => 0
  | (index, delta) :: ups' =>
      (if bool_decide (left ≤ index ≤ right) then delta else 0)
      + range_sum ups' left right
  end.

End FenwickSpec.

Module TrieSpec.
Import Trie.

(** The words stored below a node, as the suffixes that lead from the node
    to an end flag, children taken in the order of the dictionary. *)
Fixpoint suffixes (node : TrieNode) : list string :=
  match node with
  | Node e cs =>
      (if e then [EmptyString] else [])
      ++ (fix below (cs : list (ascii * TrieNode)) : list string :=
            match cs with
            | [] => []
            | (char, child) :: cs' => (String char <$> suffixes child) ++ below cs'
            end) cs
  end.

(** The keys of every dictionary are distinct, as in a Python [dict]. *)
Fixpoint wf (node : TrieNode) : Prop :=
  match node with
  | Node _ cs =>
      NoDup (cs.*1)
      ∧ (fix all (cs : list (ascii * TrieNode)) : Prop :=
           match cs with
           | [] => True
           | (_, child) :: cs' => wf child ∧ all cs'
           end) cs
  end.

(** The tries a client can build. *)
Inductive reachable : Trie → Prop :=
| reachable_init : reachable init
| reachable_step t o : reachable t → reachable (step t o).

End TrieSpec.

Module SkipListSpec.
Import SkipList.

(** Walking the chain of level [i] from [current]: the nodes met and
    their keys. *)
Fixpoint walk (fuel : nat) (h : list SkipNode) (i : nat) (current : nat)
  : result (list (nat * Key)) :=
  next ← get_forward h current i;
  match next with
  | None => Ret []
  | Some n =>
      match fuel with
      | O => OutOfFuel
      | S fuel' =>
          k ← get_key h n;
          rest ← walk fuel' h i n;
          Ret ((n, k) :: rest)
      end
  end.

Definition level_nodes (fuel : nat) (sl : SkipList) (i : nat)
  : result (list (nat * Key)) :=
  walk fuel (heap sl) i (header sl).

#[global] Instance Key_eq_dec : EqDecision Key.
Proof. solve_decision. Defined.

(** What the walk of level 0 shows of a stored node. *)
Definition view (e : entry) : nat * Key := (e_id e, Int (e_key e)).

(** The active level is 0 or the level of some stored node. *)
Definition level_tight (sl : SkipList) (L : list entry) : Prop :=
  level sl = 0%nat ∨ ∃ e, e ∈ L ∧ e_height e = level sl.

End SkipListSpec.

(** * Properties of the Fenwick tree *)

Section fenwick_proofs.
Import Fenwick.

(** ** Python subscripts in range *)

Lemma py_pos_nonneg {A} (l : list A) (i : Z) :
  0 ≤ i < Z.of_nat (length l) → py_pos l i = Ret (Z.to_nat i).
Proof. intros H. unfold py_pos. by rewrite bool_decide_true. Qed.

Lemma get_item_Some {A} (l : list A) (i : nat) (x : A) :
  l !! i = Some x → get_item l i = Ret x.
Proof. intros H. unfold get_item. by rewrite H. Qed.

Lemma set_item_lt {A} (l : list A) (i : nat) (x : A) :
  (i < length l)%nat → set_item l i x = Ret (<[i := x]> l).
Proof. intros H. unfold set_item. by rewrite bool_decide_true. Qed.

Lemma add_at_in_range (t : list Z) (x d v : Z) :
  0 ≤ x → t !! Z.to_nat x = Some v →
  add_at t x d = Ret (<[Z.to_nat x := v + d]> t).
Proof.
  intros Hx Hv. pose proof (lookup_lt_Some _ _ _ Hv) as Hlt.
  unfold add_at. rewrite py_pos_nonneg by lia. cbn.
  rewrite (get_item_Some _ _ _ Hv). cbn. by rewrite set_item_lt.
Qed.

(** ** The lowest set bit *)

Lemma land_double a b : Z.land (2 * a) (2 * b) = 2 * Z.land a b.
Proof.
  apply Z.bits_inj'. intros n Hn. rewrite Z.land_spec.
  destruct (decide (n = 0)) as [->|].
  - by rewrite !Z.testbit_even_0.
  - replace n with (Z.succ (n - 1)) by lia.
    rewrite !Z.testbit_even_succ by lia. by rewrite Z.land_spec.
Qed.

Lemma land_odd a b : Z.land (2 * a + 1) (2 * b + 1) = 2 * Z.land a b + 1.
Proof.
  apply Z.bits_inj'. intros n Hn. rewrite Z.land_spec.
  destruct (decide (n = 0)) as [->|].
  - by rewrite !Z.testbit_odd_0.
  - replace n with (Z.succ (n - 1)) by lia.
    rewrite !Z.testbit_odd_succ by lia. by rewrite Z.land_spec.
Qed.

Lemma lowbit_double a : lowbit (2 * a) = 2 * lowbit a.
Proof.
  unfold lowbit. replace (- (2 * a)) with (2 * - a) by lia. apply land_double.
Qed.

Lemma lowbit_odd a : lowbit (2 * a + 1) = 1.
Proof.
  unfold lowbit.
  replace (- (2 * a + 1)) with (2 * Z.lnot a + 1) by (unfold Z.lnot; lia).
  by rewrite land_odd, Z.land_lnot_diag.
Qed.

Lemma lowbit_0 : lowbit 0 = 0.
Proof. reflexivity. Qed.

Lemma lowbit_pos_bounds p : 0 < lowbit (Z.pos p) ≤ Z.pos p.
Proof.
  induction p as [p IH|p IH|].
  - rewrite Pos2Z.inj_xI, lowbit_odd. lia.
  - rewrite Pos2Z.inj_xO, lowbit_double. lia.
  - done.
Qed.

Lemma lowbit_bounds x : 0 < x → 0 < lowbit x ≤ x.
Proof. destruct x; try lia. intros _. apply lowbit_pos_bounds. Qed.

(** The cells that accumulate position [p] are [p] itself and the cells
    that accumulate [p + lowbit p]: the chain walked by [update]. *)
Lemma covers_step_pos p q :
  covers (Z.pos q) (Z.pos p) ↔
  Z.pos q = Z.pos p ∨ covers (Z.pos q) (Z.pos p + lowbit (Z.pos p)).
Proof.
  unfold covers. revert q. induction p as [p IH|p IH|]; intros q.
  - rewrite (Pos2Z.inj_xI p), lowbit_odd.
    destruct q as [q|q|].
    + rewrite (Pos2Z.inj_xI q), lowbit_odd. lia.
    + rewrite (Pos2Z.inj_xO q), lowbit_double.
      pose proof (lowbit_pos_bounds q). lia.
    + change (lowbit 1) with 1. lia.
  - rewrite (Pos2Z.inj_xO p), lowbit_double.
    pose proof (lowbit_pos_bounds p).
    destruct q as [q|q|].
    + rewrite (Pos2Z.inj_xI q), lowbit_odd. lia.
    + rewrite (Pos2Z.inj_xO q), lowbit_double.
      pose proof (lowbit_pos_bounds q). specialize (IH q). lia.
    + change (lowbit 1) with 1. lia.
  - change (lowbit 1) with 1.
    destruct q as [q|q|].
    + rewrite (Pos2Z.inj_xI q), lowbit_odd. lia.
    + rewrite (Pos2Z.inj_xO q), lowbit_double.
      pose proof (lowbit_pos_bounds q).
      destruct q as [q|q|].
      * rewrite (Pos2Z.inj_xI q), lowbit_odd in *. lia.
      * rewrite (Pos2Z.inj_xO q), lowbit_double in *. lia.
      * change (lowbit 1) with 1. lia.
    + change (lowbit 1) with 1. lia.
Qed.

Lemma covers_step j x :
  0 ≤ j → 1 ≤ x →
  covers j x ↔ j = x ∨ covers j (x + lowbit x).
Proof.
  intros Hj Hx. destruct x as [|p|p]; try lia.
  destruct j as [|q|q]; try lia.
  - pose proof (lowbit_pos_bounds p). unfold covers. rewrite lowbit_0. lia.
  - apply covers_step_pos.
Qed.

Lemma covers_self_only x : 1 ≤ x → ¬ covers x (x + lowbit x).
Proof. intros Hx. pose proof (lowbit_bounds x). unfold covers. lia. Qed.

(** ** Sums over the update history *)

Lemma cov_sum_app ups1 ups2 j :
  cov_sum (ups1 ++ ups2) j = cov_sum ups1 j + cov_sum ups2 j.
Proof. induction ups1 as [|[i d] ups1 IH]; cbn; [done | rewrite IH; lia]. Qed.

Lemma delta_sum_app ups1 ups2 i :
  delta_sum (ups1 ++ ups2) i = delta_sum ups1 i + delta_sum ups2 i.
Proof. induction ups1 as [|[k d] ups1 IH]; cbn; [done | rewrite IH; lia]. Qed.

(** One step down the chain walked by [query]. *)
Lemma cov_sum_delta_sum ups q :
  0 < q →
  cov_sum ups q + delta_sum ups (q - lowbit q - 1) = delta_sum ups (q - 1).
Proof.
  intros Hq. pose proof (lowbit_bounds q Hq).
  induction ups as [|[i d] ups IH]; cbn; [done|].
  unfold covers. repeat case_bool_decide; lia.
Qed.

Lemma delta_sum_enum_from s arr i :
  delta_sum (enum_from s arr) i =
  foldr Z.add 0 (take (Z.to_nat (i + 1 - s)) arr).
Proof.
  revert s. induction arr as [|v arr IH]; intros s; cbn.
  - by rewrite take_nil.
  - rewrite IH. case_bool_decide.
    + replace (Z.to_nat (i + 1 - s)) with (S (Z.to_nat (i + 1 - (s + 1)))) by lia.
      done.
    + replace (Z.to_nat (i + 1 - s)) with O by lia.
      replace (Z.to_nat (i + 1 - (s + 1))) with O by lia. done.
Qed.

(** ** The loops *)

Lemma update_loop_spec n d fuel : ∀ x t,
  1 ≤ x → (Z.to_nat (n + 1 - x) ≤ fuel)%nat → length t = Z.to_nat (n + 1) →
  ∃ t', update_loop fuel n t x d = Ret t' ∧ length t' = length t ∧
    ∀ j v, 0 ≤ j ≤ n → t !! Z.to_nat j = Some v →
      t' !! Z.to_nat j = Some (v + if bool_decide (covers j x) then d else 0).
Proof.
  induction fuel as [|fuel IH]; intros x t Hx Hfuel Hlen.
  - exists t. cbn. rewrite bool_decide_false by lia. split_and!; [done..|].
    intros j v Hj Hv. rewrite bool_decide_false by (unfold covers; lia).
    rewrite Hv. f_equal. lia.
  - cbn. case_bool_decide as Hle.
    + destruct (lookup_lt_is_Some_2 t (Z.to_nat x)) as [v0 Hv0]; [lia|].
      rewrite (add_at_in_range t x d v0) by (done || lia). cbn.
      pose proof (lowbit_bounds x ltac:(lia)) as Hlb.
      destruct (IH (x + lowbit x) (<[Z.to_nat x := v0 + d]> t))
        as (t' & Hrun & Hlen' & Hcells); [lia|lia|by rewrite length_insert|].
      exists t'. rewrite length_insert in Hlen'. split_and!; [done..|].
      intros j v Hj Hv.
      pose proof (covers_step j x ltac:(lia) Hx) as Hstep.
      destruct (decide (j = x)) as [->|Hne].
      * rewrite (Hcells x (v0 + d)); [|lia|].
        -- assert (v = v0) as -> by congruence.
           rewrite (bool_decide_true (covers x x)) by tauto.
           rewrite bool_decide_false by by apply covers_self_only.
           f_equal. lia.
        -- rewrite list_lookup_insert_eq; [done|]. by eapply lookup_lt_Some.
      * rewrite (Hcells j v); [|lia|].
        -- by rewrite (bool_decide_ext (covers j x) (covers j (x + lowbit x))) by tauto.
        -- rewrite list_lookup_insert_ne by lia. done.
    + exists t. split_and!; [done..|].
      intros j v Hj Hv. rewrite bool_decide_false by (unfold covers; lia).
      rewrite Hv. f_equal. lia.
Qed.

Lemma delta_sum_below ups i :
  Forall (λ u, 0 ≤ u.1) ups → i < 0 → delta_sum ups i = 0.
Proof.
  intros Hups Hi. induction Hups as [|[k d] ups' Hk _ IH]; cbn in *; [done|].
  rewrite IH, bool_decide_false by lia. done.
Qed.

Lemma query_loop_spec n t ups fuel : ∀ q acc,
  fen_inv n t ups → Forall (λ u, 0 ≤ u.1) ups →
  0 ≤ q ≤ n → (Z.to_nat q ≤ fuel)%nat →
  query_loop fuel t q acc = Ret (acc + delta_sum ups (q - 1)).
Proof.
  induction fuel as [|fuel IH]; intros q acc Hinv Hups Hq Hfuel.
  - cbn. rewrite bool_decide_false by lia.
    rewrite delta_sum_below by (done || lia). f_equal. lia.
  - cbn. case_bool_decide as Hpos.
    + destruct Hinv as [Hlen Hcells].
      pose proof (lowbit_bounds q ltac:(lia)) as Hlb.
      rewrite py_pos_nonneg by lia. cbn.
      rewrite (get_item_Some _ _ _ (Hcells q ltac:(lia))). cbn.
      rewrite IH by (done || lia).
      rewrite <- (cov_sum_delta_sum ups q) by lia. f_equal. lia.
    + rewrite delta_sum_below by (done || lia). f_equal. lia.
Qed.

Lemma update_spec n ups fuel ft index delta :
  size ft = n → fen_inv n (tree ft) ups →
  0 ≤ index → (Z.to_nat n ≤ fuel)%nat →
  ∃ ft', update fuel ft index delta = Ret ft' ∧ size ft' = n ∧
    fen_inv n (tree ft') (ups ++ [(index, delta)]).
Proof.
  intros Hsize [Hlen Hcells] Hindex Hfuel.
  destruct (update_loop_spec n delta fuel (index + 1) (tree ft))
    as (t' & Hrun & Hlen' & Hcells'); [lia|lia|done|].
  exists {| size := size ft; tree := t' |}.
  unfold update. rewrite Hsize, Hrun. cbn.
  split; [done|]. split; [done|]. split.
  - congruence.
  - intros j Hj. rewrite (Hcells' j _ Hj (Hcells j Hj)).
    rewrite cov_sum_app. cbn. f_equal. lia.
Qed.

Lemma run_updates_spec n fuel : ∀ ups ups0 ft,
  size ft = n → fen_inv n (tree ft) ups0 →
  Forall (λ u, 0 ≤ u.1) ups → (Z.to_nat n ≤ fuel)%nat →
  ∃ ft', run_updates fuel ft ups = Ret ft' ∧ size ft' = n ∧
    fen_inv n (tree ft') (ups0 ++ ups).
Proof.
  induction ups as [|[index delta] ups IH]; intros ups0 ft Hsize Hinv Hups Hfuel.
  - exists ft. by rewrite app_nil_r.
  - apply Forall_cons in Hups as [Hindex Hups]. cbn in Hindex.
    destruct (update_spec n ups0 fuel ft index delta)
      as (ft1 & Hrun1 & Hsize1 & Hinv1); [done..|].
    destruct (IH (ups0 ++ [(index, delta)]) ft1)
      as (ft' & Hrun & Hsize' & Hinv'); [done..|].
    exists ft'. cbn. rewrite Hrun1. cbn. rewrite Hrun.
    by rewrite <- app_assoc in Hinv'.
Qed.

Lemma fen_inv_init n : 0 ≤ n → fen_inv n (tree (init n)) [].
Proof.
  intros Hn. split; cbn.
  - by rewrite length_replicate.
  - intros j Hj. apply lookup_replicate_2. lia.
Qed.

Lemma query_spec n ups fuel ft i :
  fen_inv n (tree ft) ups → Forall (λ u, 0 ≤ u.1) ups →
  -1 ≤ i < n → (Z.to_nat n ≤ fuel)%nat →
  query fuel ft i = Ret (delta_sum ups i).
Proof.
  intros Hinv Hups Hi Hfuel. unfold query.
  rewrite (query_loop_spec n (tree ft) ups) by (done || lia).
  f_equal. replace (i + 1 - 1) with i by lia. lia.
Qed.

Lemma build_loop_run_updates fuel : ∀ arr ft i,
  build_loop fuel ft i arr = run_updates fuel ft (enum_from i arr).
Proof.
  induction arr as [|v arr IH]; intros ft i; cbn; [done|].
  destruct (update fuel ft i v); cbn; [apply IH|done..].
Qed.

Lemma enum_from_nonneg arr : ∀ i,
  0 ≤ i → Forall (λ u : Z * Z, 0 ≤ u.1) (enum_from i arr).
Proof.
  induction arr as [|v arr IH]; intros i Hi; cbn; constructor; [done|].
  apply IH. lia.
Qed.

(** ** The claims on the Fenwick tree *)

(** C1 (Fenwick linearity).  On a tree built with size [n ≥ 1], after any
    sequence of [update(index, delta)] calls with every index in [0, n),
    [query(i)] returns, for every [i] in [0, n), the sum of the deltas
    applied at positions [≤ i]; and [range_query(l, r)] returns
    [query(r) - query(l - 1)] when [0 < l ≤ r < n], and [query(r)] when
    [l = 0].  Every call returns as soon as the fuel is at least [n]. *)
Theorem fenwick_linearity (n : Z) (ups : list (Z * Z)) (fuel : nat) :
  1 ≤ n → Forall (λ u, 0 ≤ u.1 < n) ups → (Z.to_nat n ≤ fuel)%nat →
  ∃ ft, run_updates fuel (init n) ups = Ret ft ∧
    (∀ i, 0 ≤ i < n → query fuel ft i = Ret (delta_sum ups i)) ∧
    (∀ l r, 0 < l ≤ r → r < n →
       range_query fuel ft l r = Ret (delta_sum ups r - delta_sum ups (l - 1))) ∧
    (∀ r, 0 ≤ r < n → range_query fuel ft 0 r = Ret (delta_sum ups r)).
Proof.
  intros Hn Hups Hfuel.
  assert (Forall (λ u : Z * Z, 0 ≤ u.1) ups) as Hnonneg.
  { eapply Forall_impl; [exact Hups|]. intros u Hu. cbn in Hu. lia. }
  destruct (run_updates_spec n fuel ups [] (init n))
    as (ft & Hrun & Hsize & Hinv); [done|apply fen_inv_init; lia|done..|].
  cbn in Hinv. exists ft. split; [done|].
  assert (∀ i, -1 ≤ i < n → query fuel ft i = Ret (delta_sum ups i)) as Hq.
  { intros i Hi. by apply (query_spec n). }
  split_and!.
  - intros i Hi. apply Hq. lia.
  - intros l r Hl Hr. unfold range_query.
    rewrite bool_decide_true by lia. by rewrite !Hq by lia.
  - intros r Hr. unfold range_query.
    rewrite bool_decide_false by lia. apply Hq. lia.
Qed.

Lemma fenwick_linearity_witness :
  ∃ ft, run_updates 4 (init 4) [(0, 5); (2, -3); (3, 7); (2, 1)] = Ret ft ∧
    (∀ i, 0 ≤ i < 4 →
       query 4 ft i = Ret (delta_sum [(0, 5); (2, -3); (3, 7); (2, 1)] i)) ∧
    (∀ l r, 0 < l ≤ r → r < 4 →
       range_query 4 ft l r =
       Ret (delta_sum [(0, 5); (2, -3); (3, 7); (2, 1)] r
            - delta_sum [(0, 5); (2, -3); (3, 7); (2, 1)] (l - 1))) ∧
    (∀ r, 0 ≤ r < 4 →
       range_query 4 ft 0 r = Ret (delta_sum [(0, 5); (2, -3); (3, 7); (2, 1)] r)).
Proof.
  apply (fenwick_linearity 4 [(0, 5); (2, -3); (3, 7); (2, 1)] 4).
  - lia.
  - repeat constructor; cbn; lia.
  - cbn. lia.
Defined.

(** C6 (Fenwick build equivalence and concrete scenario).  After
    [construct(n)] and [build_from_array(arr)] with [len(arr) ≤ n],
    [query(i)] returns [arr[0] + ... + arr[i]] for every [i < len(arr)];
    for [arr = [1,3,5,7,9,11]] and [n = 6], [query(2) = 9],
    [query(5) = 36], [range_query(1,3) = 15], and after [update(2, 10)],
    [query(2) = 19]. *)
Theorem fenwick_build_equivalence (n : Z) (arr : list Z) (fuel : nat) :
  Z.of_nat (length arr) ≤ n → (Z.to_nat n ≤ fuel)%nat →
  (∃ ft, build_from_array fuel (init n) arr = Ret ft ∧
     ∀ i, 0 ≤ i < Z.of_nat (length arr) →
       query fuel ft i = Ret (prefix_sum arr i)) ∧
  (∀ fuel6, (6 ≤ fuel6)%nat →
     ∃ ft ft',
       build_from_array fuel6 (init 6) [1; 3; 5; 7; 9; 11] = Ret ft ∧
       query fuel6 ft 2 = Ret 9 ∧
       query fuel6 ft 5 = Ret 36 ∧
       range_query fuel6 ft 1 3 = Ret 15 ∧
       update fuel6 ft 2 10 = Ret ft' ∧
       query fuel6 ft' 2 = Ret 19).
Proof.
  intros Hlen Hfuel. split.
  - unfold build_from_array. rewrite build_loop_run_updates.
    pose proof (enum_from_nonneg arr 0 ltac:(lia)) as Hnonneg.
    destruct (run_updates_spec n fuel (enum_from 0 arr) [] (init n))
      as (ft & Hrun & Hsize & Hinv); [done|apply fen_inv_init; lia|done..|].
    cbn in Hinv. exists ft. split; [done|]. intros i Hi.
    rewrite (query_spec n (enum_from 0 arr)) by (done || lia).
    rewrite delta_sum_enum_from. unfold prefix_sum.
    by replace (i + 1 - 0) with (i + 1) by lia.
  - intros fuel6 Hfuel6.
    unfold build_from_array. rewrite build_loop_run_updates.
    set (arr6 := [1; 3; 5; 7; 9; 11]).
    pose proof (enum_from_nonneg arr6 0 ltac:(lia)) as Hnonneg.
    destruct (run_updates_spec 6 fuel6 (enum_from 0 arr6) [] (init 6))
      as (ft & Hrun & Hsize & Hinv); [done|apply fen_inv_init; lia|done|lia|].
    cbn [app] in Hinv.
    destruct (update_spec 6 (enum_from 0 arr6) fuel6 ft 2 10)
      as (ft' & Hrun' & Hsize' & Hinv'); [done|done|lia|lia|].
    assert (Forall (λ u : Z * Z, 0 ≤ u.1) (enum_from 0 arr6 ++ [(2, 10)]))
      as Hnonneg'.
    { apply Forall_app. split; [done|]. repeat constructor. cbn. lia. }
    exists ft, ft'. split; [done|].
    assert (∀ i, -1 ≤ i < 6 →
      query fuel6 ft i = Ret (delta_sum (enum_from 0 arr6) i)) as Hq.
    { intros i Hi. apply (query_spec 6); (done || lia). }
    split_and!.
    + by rewrite Hq by lia.
    + by rewrite Hq by lia.
    + unfold range_query. rewrite bool_decide_true by lia.
      by rewrite !Hq by lia.
    + done.
    + by rewrite (query_spec 6 (enum_from 0 arr6 ++ [(2, 10)])) by (done || lia).
Qed.

Lemma fenwick_build_equivalence_witness :
  (∃ ft, build_from_array 5 (init 5) [4; -2; 7] = Ret ft ∧
     ∀ i, 0 ≤ i < Z.of_nat (length [4; -2; 7]) →
       query 5 ft i = Ret (prefix_sum [4; -2; 7] i)) ∧
  (∀ fuel6, (6 ≤ fuel6)%nat →
     ∃ ft ft',
       build_from_array fuel6 (init 6) [1; 3; 5; 7; 9; 11] = Ret ft ∧
       query fuel6 ft 2 = Ret 9 ∧
       query fuel6 ft 5 = Ret 36 ∧
       range_query fuel6 ft 1 3 = Ret 15 ∧
       update fuel6 ft 2 10 = Ret ft' ∧
       query fuel6 ft' 2 = Ret 19).
Proof.
  apply (fenwick_build_equivalence 5 [4; -2; 7] 5); cbn; lia.
Defined.

(** C9 (out-of-range update is a silent no-op).  On a tree of size [n],
    for every index [≥ n] and every delta, [update(index, delta)] returns
    normally and leaves the cells of the tree array and the size field
    unchanged. *)
Theorem fenwick_update_out_of_range
    (fuel : nat) (ft : FenwickTree) (n index delta : Z) :
  size ft = n → n ≤ index →
  ∃ ft', update fuel ft index delta = Ret ft' ∧
    tree ft' = tree ft ∧ size ft' = size ft.
Proof.
  intros Hsize Hindex. exists ft. split; [|done].
  unfold update. destruct fuel; cbn; rewrite bool_decide_false by lia;
    by destruct ft.
Qed.

Lemma fenwick_update_out_of_range_witness :
  ∃ ft', update 0 (init 3) 3 5 = Ret ft' ∧
    tree ft' = tree (init 3) ∧ size ft' = size (init 3).
Proof.
  apply (fenwick_update_out_of_range 0 (init 3) 3 3 5); [reflexivity | lia].
Defined.

End fenwick_proofs.

(** * Properties of the trie *)

Section trie_proofs.
Import Trie.

Lemma dict_get_set_eq char v d : dict_get char (dict_set char v d) = Some v.
Proof.
  induction d as [|[c v'] d IH]; cbn.
  - by rewrite decide_True.
  - destruct (decide (char = c)) as [->|Hne]; cbn.
    + by rewrite decide_True.
    + by rewrite decide_False.
Qed.

Lemma dict_get_set_ne char char' v d :
  char ≠ char' → dict_get char' (dict_set char v d) = dict_get char' d.
Proof.
  intros Hne. induction d as [|[c v'] d IH]; cbn.
  - by rewrite decide_False.
  - destruct (decide (char = c)) as [->|Hc]; cbn.
    + by rewrite !decide_False.
    + by rewrite IH.
Qed.

Lemma search_new_node word : search_node word new_node = false.
Proof. by destruct word. Qed.

Lemma search_insert_node word : ∀ word' node,
  search_node word' (insert_node word node).1 =
  if decide (word = word') then true else search_node word' node.
Proof.
  induction word as [|char word IH]; intros word' node.
  - destruct word'; cbn; [done|]. by destruct node.
  - cbn.
    destruct (insert_node word (default new_node (dict_get char (children node))))
      as [child' fresh] eqn:Hins.
    cbn. destruct word' as [|char' word']; cbn; [done|].
    destruct (decide (char = char')) as [<-|Hne].
    + rewrite dict_get_set_eq.
      replace child' with
        (insert_node word (default new_node (dict_get char (children node)))).1
        by by rewrite Hins.
      rewrite IH. destruct (decide (word = word')) as [->|Hw].
      * by rewrite decide_True.
      * rewrite decide_False by congruence.
        destruct (dict_get char (children node)); cbn; [done|].
        apply search_new_node.
    + rewrite dict_get_set_ne by done.
      by rewrite decide_False by congruence.
Qed.

Lemma search_delete_node word : ∀ word' node node',
  delete_node word node = Some node' →
  search_node word' node' =
  if decide (word = word') then false else search_node word' node.
Proof.
  induction word as [|char word IH]; intros word' node node' Hdel.
  - cbn in Hdel. destruct (is_end node); [|done]. simplify_eq.
    by destruct word'.
  - cbn in Hdel.
    destruct (dict_get char (children node)) as [child|] eqn:Hget; [|done].
    destruct (delete_node word child) as [child'|] eqn:Hdel'; [|done].
    simplify_eq. destruct word' as [|char' word']; cbn; [done|].
    destruct (decide (char = char')) as [<-|Hne].
    + rewrite dict_get_set_eq, Hget, (IH word' child child' Hdel').
      destruct (decide (word = word')) as [->|Hw].
      * by rewrite decide_True.
      * by rewrite decide_False by congruence.
    + rewrite dict_get_set_ne by done.
      by rewrite decide_False by congruence.
Qed.

Lemma delete_node_None word : ∀ node,
  delete_node word node = None ↔ search_node word node = false.
Proof.
  induction word as [|char word IH]; intros node; cbn.
  - by destruct (is_end node).
  - destruct (dict_get char (children node)) as [child|]; [|done].
    rewrite <- IH. by destruct (delete_node word child).
Qed.

Lemma search_insert t word word' :
  search (insert t word) word' =
  if decide (word = word') then true else search t word'.
Proof.
  unfold search, insert.
  pose proof (search_insert_node word word' (root t)) as H.
  by destruct (insert_node word (root t)).
Qed.

Lemma search_delete t word word' :
  (delete t word).1 = true →
  search (delete t word).2 word' =
  if decide (word = word') then false else search t word'.
Proof.
  unfold search, delete.
  destruct (delete_node word (root t)) as [root'|] eqn:Hdel; [|done].
  intros _. by apply search_delete_node.
Qed.

Lemma search_delete_failed t word :
  (delete t word).1 = false → (delete t word).2 = t.
Proof. unfold delete. by destruct (delete_node word (root t)). Qed.

Lemma search_step t o word :
  o ≠ Delete word → search t word = true → search (step t o) word = true.
Proof.
  intros Ho Hs. destruct o as [w|w| | |]; cbn; try done.
  - rewrite search_insert. by case_decide.
  - destruct (delete t w).1 eqn:Hd.
    + rewrite search_delete by done. rewrite decide_False by congruence. done.
    + by rewrite search_delete_failed.
Qed.

(** C4 (trie round-trip with frame condition).  [search(w)] is true right
    after [insert(w)] and after any further operations that are not
    [delete(w)]; when [delete(w)] succeeds, [search(w)] becomes false and
    [search(w')] is unchanged for every other word [w'], so every other
    stored word, sharing a prefix with [w] or not, is still found. *)
Theorem trie_round_trip (t : Trie) (w : string) :
  search (insert t w) w = true ∧
  (∀ ops, Forall (λ o, o ≠ Delete w) ops →
     search (foldl step (insert t w) ops) w = true) ∧
  ((delete t w).1 = true →
     search (delete t w).2 w = false ∧
     ∀ w', w' ≠ w → search (delete t w).2 w' = search t w').
Proof.
  assert (search (insert t w) w = true) as Hins.
  { rewrite search_insert. by rewrite decide_True. }
  split_and!; [done| |].
  - intros ops Hops. generalize dependent (insert t w).
    induction Hops as [|o ops Ho _ IH]; intros t' Ht'; cbn; [done|].
    apply IH. by apply search_step.
  - intros Hdel. split.
    + rewrite search_delete by done. by rewrite decide_True.
    + intros w' Hne. rewrite search_delete by done.
      by rewrite decide_False by congruence.
Qed.

Lemma trie_round_trip_witness :
  let t := insert (insert init "help") "hello" in
  search (insert t "hello") "hello" = true ∧
  search (foldl step (insert t "hello")
            [Insert "heap"; Delete "help"; Search "hello"; Delete "hell"])
    "hello" = true ∧
  search (delete t "hello").2 "hello" = false ∧
  ∀ w', w' ≠ "hello"%string →
    search (delete t "hello").2 w' = search t w'.
Proof.
  intros t. destruct (trie_round_trip t "hello") as (Hins & Hops & Hdel).
  split; [exact Hins|]. split.
  - apply Hops. repeat constructor; discriminate.
  - apply Hdel. reflexivity.
Defined.

(** C7 (trie concrete scenario).  After inserting "hello", "help" and
    "heap" into a fresh trie, [search("hell")] is false,
    [get_all_words_with_prefix("he")] holds exactly these three words,
    each once; and after [delete("hello")] (which returns true),
    [search("help")] is true and the word count is 2. *)
Theorem trie_scenario :
  let t := insert (insert (insert init "hello") "help") "heap" in
  search t "hell" = false ∧
  get_all_words_with_prefix t "he" = ["hello"; "help"; "heap"]%string ∧
  get_all_words_with_prefix t "he" ≡ₚ ["hello"; "help"; "heap"]%string ∧
  (delete t "hello").1 = true ∧
  search (delete t "hello").2 "help" = true ∧
  word_count (delete t "hello").2 = 2.
Proof.
  cbv zeta. split_and!; by vm_compute.
Qed.

End trie_proofs.

(** * Properties of the skip list *)

Section skiplist_proofs.
Import SkipList.

(** ** Reading and writing the heap *)

Lemma result_bind_Ret {A B} (m : result A) (f : A → result B) (b : B) :
  m ≫= f = Ret b → ∃ a, m = Ret a ∧ f a = Ret b.
Proof. destruct m; cbn; [eauto|done..]. Qed.

Lemma get_item_Ret {A} (l : list A) (i : nat) (x : A) :
  get_item l i = Ret x ↔ l !! i = Some x.
Proof. unfold get_item. destruct (l !! i); split; congruence. Qed.

Lemma get_forward_Ret h r i v : get_forward h r i = Ret v ↔ fwd h r i = Some v.
Proof.
  unfold get_forward, fwd, get_item.
  destruct (h !! r) as [node|]; cbn; [|by split].
  destruct (forward node !! i); split; congruence.
Qed.

Lemma get_key_Ret h r k : get_key h r = Ret k ↔ key_at h r = Some k.
Proof.
  unfold get_key, key_at, get_item.
  destruct (h !! r) as [node|]; cbn; split; congruence.
Qed.

Lemma fwd_is_Some h r i :
  is_Some (fwd h r i) ↔ ∃ n, flen h r = Some n ∧ (i < n)%nat.
Proof.
  unfold fwd, flen. destruct (h !! r) as [node|]; cbn.
  - rewrite lookup_lt_is_Some. split; [by eauto|].
    by intros (n & [= <-] & Hn).
  - split; [by intros [? ?]|by intros (n & ? & ?)].
Qed.

Lemma set_forward_spec h r i v n :
  flen h r = Some n → (i < n)%nat →
  ∃ h', set_forward h r i v = Ret h' ∧
    length h' = length h ∧
    fwd h' r i = Some v ∧
    (∀ r' i', (r', i') ≠ (r, i) → fwd h' r' i' = fwd h r' i') ∧
    (∀ r', key_at h' r' = key_at h r') ∧
    (∀ r', flen h' r' = flen h r').
Proof.
  unfold flen. intros Hlen Hi.
  destruct (h !! r) as [node|] eqn:Hnode; [|done]. cbn in Hlen. simplify_eq.
  pose proof (lookup_lt_Some _ _ _ Hnode) as Hr.
  exists (<[r := {| key := key node; forward := <[i := v]> (forward node) |}]> h).
  unfold set_forward. rewrite (proj2 (get_item_Ret _ _ _) Hnode). cbn.
  unfold set_item. rewrite bool_decide_true by done. cbn.
  rewrite bool_decide_true by done.
  split; [done|]. split; [by rewrite length_insert|].
  split_and!.
  - unfold fwd. rewrite list_lookup_insert_eq by done. cbn.
    by rewrite list_lookup_insert_eq.
  - intros r' i' Hne. unfold fwd.
    destruct (decide (r' = r)) as [->|Hr'].
    + rewrite list_lookup_insert_eq, Hnode by done. cbn.
      rewrite list_lookup_insert_ne by congruence. done.
    + by rewrite list_lookup_insert_ne.
  - intros r'. unfold key_at. destruct (decide (r' = r)) as [->|Hr'].
    + by rewrite list_lookup_insert_eq, Hnode.
    + by rewrite list_lookup_insert_ne.
  - intros r'. unfold flen. destruct (decide (r' = r)) as [->|Hr'].
    + rewrite list_lookup_insert_eq, Hnode by done. cbn.
      by rewrite length_insert.
    + by rewrite list_lookup_insert_ne.
Qed.

(** ** Chains *)

Lemma last_or_cons c x l : last_or c (x :: l) = last_or x l.
Proof.
  unfold last_or. destruct l as [|y l]; [done|].
  change (last (x :: y :: l)) with (last (y :: l)).
  by destruct (last (y :: l)) eqn:Hl; [|apply last_None in Hl].
Qed.

Lemma last_or_app c l1 l2 : last_or c (l1 ++ l2) = last_or (last_or c l1) l2.
Proof.
  revert c. induction l1 as [|x l1 IH]; intros c; [done|].
  by rewrite <- app_comm_cons, !last_or_cons.
Qed.

Lemma last_or_snoc c l x : last_or c (l ++ [x]) = x.
Proof. by rewrite last_or_app. Qed.

Lemma last_or_elem c l : last_or c l ∈ c :: l.
Proof.
  revert c. induction l as [|x l IH]; intros c; [by left|].
  rewrite last_or_cons. right. apply IH.
Qed.

Lemma links_app h i c l1 l2 :
  links h i c (l1 ++ l2) ↔ links h i c l1 ∧ links h i (last_or c l1) l2.
Proof.
  revert c. induction l1 as [|x l1 IH]; intros c; cbn.
  - tauto.
  - rewrite IH, last_or_cons. tauto.
Qed.

Lemma links_ext h h' i c l :
  (∀ n, n ∈ c :: l → fwd h' n i = fwd h n i) →
  links h i c l → links h' i c l.
Proof.
  revert c. induction l as [|x l IH]; intros c Hext; cbn; [done|].
  intros [Hc Hl]. split.
  - rewrite Hext; [done|by left].
  - apply IH; [|done]. intros n Hn. apply Hext. by right.
Qed.

Lemma chain_next h i c l1 l2 :
  chain h i c (l1 ++ l2) → fwd h (last_or c l1) i = Some (head l2).
Proof.
  intros [Hlinks Hend]. apply links_app in Hlinks as [_ Hl2].
  destruct l2 as [|x l2]; cbn.
  - by rewrite app_nil_r in Hend.
  - by destruct Hl2.
Qed.

(** ** The inner loop *)

Lemma advance_unfold fuel h i key current :
  advance fuel h i key current =
  (next ← get_forward h current i;
   match next with
   | None => Ret current
   | Some n =>
       k ← get_key h n;
       if key_lt k key then
         match fuel with
         | O => OutOfFuel
         | S fuel' => advance fuel' h i key n
         end
       else Ret current
   end).
Proof. by destruct fuel. Qed.

Lemma advance_spec h i key : ∀ l fuel c (stop : option nat),
  links h i c l → fwd h (last_or c l) i = Some stop →
  Forall (λ n, ∃ k, key_at h n = Some (Int k) ∧ k < key) l →
  (∀ n, stop = Some n → ∃ k, key_at h n = Some (Int k) ∧ key ≤ k) →
  (length l ≤ fuel)%nat →
  advance fuel h i key c = Ret (last_or c l).
Proof.
  induction l as [|y l IH]; intros fuel c stop Hlinks Hend Hlt Hstop Hfuel.
  - rewrite advance_unfold. cbn in Hend.
    rewrite (proj2 (get_forward_Ret _ _ _ _) Hend). cbn.
    destruct stop as [n|]; [|done].
    destruct (Hstop n eq_refl) as (k & Hk & Hle).
    rewrite (proj2 (get_key_Ret _ _ _) Hk). cbn.
    by rewrite bool_decide_false by lia.
  - destruct Hlinks as [Hc Hlinks]. apply Forall_cons in Hlt as [(k & Hk & Hky) Hlt].
    rewrite last_or_cons in Hend |- *.
    destruct fuel as [|fuel]; [cbn in Hfuel; lia|].
    rewrite advance_unfold.
    rewrite (proj2 (get_forward_Ret _ _ _ _) Hc). cbn.
    rewrite (proj2 (get_key_Ret _ _ _) Hk). cbn.
    rewrite bool_decide_true by lia.
    apply (IH fuel y stop); try done. cbn in Hfuel. lia.
Qed.

(** The nodes that reach a level are among those that reach the levels
    below, in the same order. *)
Lemma ids_at_app i L1 L2 : ids_at i (L1 ++ L2) = ids_at i L1 ++ ids_at i L2.
Proof. unfold ids_at. by rewrite filter_app, fmap_app. Qed.

Lemma ids_at_cons i e L :
  ids_at i (e :: L) = if decide (tall i e) then e_id e :: ids_at i L else ids_at i L.
Proof. unfold ids_at. rewrite filter_cons. by case_decide. Qed.

Lemma ids_at_length i L : (length (ids_at i L) ≤ length L)%nat.
Proof. unfold ids_at. rewrite length_fmap. apply length_filter. Qed.

Lemma ids_at_subseteq i L : ids_at i L ⊆ e_id <$> L.
Proof.
  unfold ids_at. intros n Hn. apply list_elem_of_fmap in Hn as (e & -> & He).
  apply list_elem_of_filter in He as [_ He]. by apply list_elem_of_fmap_2.
Qed.

Lemma ids_at_prefix_last i j L :
  (i ≤ j)%nat →
  ∃ l1 l2, ids_at i L = l1 ++ l2 ∧ last_or 0%nat l1 = last_or 0%nat (ids_at j L).
Proof.
  intros Hij. induction L as [|e L IH] using rev_ind.
  - by exists [], [].
  - destruct IH as (l1 & l2 & Hsplit & Hlast).
    rewrite !ids_at_app, !ids_at_cons. cbn.
    destruct (decide (tall j e)) as [Hj|Hj].
    + rewrite decide_True by (unfold tall in *; lia).
      exists (ids_at i L ++ [e_id e]), []. split; [by rewrite app_nil_r|].
      by rewrite !last_or_snoc.
    + rewrite app_nil_r. exists l1. case_decide.
      * exists (l2 ++ [e_id e]). by rewrite Hsplit, app_assoc.
      * exists l2. by rewrite app_nil_r.
Qed.

Lemma ids_at_0 L : ids_at 0 L = e_id <$> L.
Proof.
  unfold ids_at. f_equal. induction L as [|e L IH]; [done|].
  rewrite filter_cons_True by (unfold tall; lia). by rewrite IH.
Qed.

(** ** The descent through the levels

    The stored nodes are [A ++ B], the nodes of [A] with keys below [key]
    and the nodes of [B] with keys at or above it. *)

Section descent.
Context (h : list SkipNode) (ml : nat) (A B : list entry) (key : Z).
Hypothesis Hnodes : nodes_ok h (A ++ B).
Hypothesis HA : Forall (λ e, e_key e < key) A.
Hypothesis HB : Forall (λ e, key ≤ e_key e) B.
Hypothesis Hchain : ∀ i, (i ≤ ml)%nat → chain h i 0 (ids_at i (A ++ B)).

Lemma ids_at_A_keys i :
  Forall (λ n, ∃ k, key_at h n = Some (Int k) ∧ k < key) (ids_at i A).
Proof using Hnodes HA.
  apply Forall_forall. intros n Hn.
  apply list_elem_of_fmap in Hn as (e & -> & He).
  apply list_elem_of_filter in He as [_ He].
  exists (e_key e). split.
  - unfold nodes_ok in Hnodes. rewrite Forall_forall in Hnodes.
    apply Hnodes. apply elem_of_app. by left.
  - rewrite Forall_forall in HA. by apply HA.
Qed.

Lemma ids_at_B_head i n :
  head (ids_at i B) = Some n → ∃ k, key_at h n = Some (Int k) ∧ key ≤ k.
Proof using Hnodes HB.
  intros Hhead. apply head_Some_elem_of in Hhead.
  apply list_elem_of_fmap in Hhead as (e & -> & He).
  apply list_elem_of_filter in He as [_ He].
  exists (e_key e). split.
  - unfold nodes_ok in Hnodes. rewrite Forall_forall in Hnodes.
    apply Hnodes. apply elem_of_app. by right.
  - rewrite Forall_forall in HB. by apply HB.
Qed.

Lemma pred_at_next i :
  (i ≤ ml)%nat → fwd h (pred_at i A) i = Some (head (ids_at i B)).
Proof using Hchain.
  intros Hi. apply chain_next. rewrite <- ids_at_app. by apply Hchain.
Qed.

Lemma advance_level fuel i l1 l2 :
  (i ≤ ml)%nat → ids_at i A = l1 ++ l2 → (length A ≤ fuel)%nat →
  advance fuel h i key (last_or 0%nat l1) = Ret (pred_at i A).
Proof using All.
  intros Hi Hsplit Hfuel.
  assert (last_or (last_or 0%nat l1) l2 = pred_at i A) as Hlast.
  { unfold pred_at. by rewrite Hsplit, last_or_app. }
  rewrite <- Hlast.
  apply advance_spec with (stop := head (ids_at i B)).
  - pose proof (Hchain i Hi) as [Hlinks _].
    rewrite ids_at_app, Hsplit in Hlinks.
    apply links_app in Hlinks as [Hlinks _].
    by apply links_app in Hlinks as [_ Hlinks].
  - rewrite Hlast. by apply pred_at_next.
  - pose proof (ids_at_A_keys i) as Hkeys. rewrite Hsplit in Hkeys.
    by apply Forall_app in Hkeys as [_ Hkeys].
  - apply ids_at_B_head.
  - pose proof (ids_at_length i A) as Hlen.
    rewrite Hsplit, length_app in Hlen. lia.
Qed.

Lemma descend_spec fuel : ∀ i current update l1 l2,
  (i ≤ ml)%nat → ids_at i A = l1 ++ l2 → current = last_or 0%nat l1 →
  (length A ≤ fuel)%nat → (i < length update)%nat →
  ∃ update', descend fuel h key i current update = Ret (pred_at 0 A, update') ∧
    length update' = length update ∧
    (∀ j, (j ≤ i)%nat → update' !! j = Some (Some (pred_at j A))) ∧
    (∀ j, (i < j)%nat → update' !! j = update !! j).
Proof using All.
  induction i as [|i IH]; intros current update l1 l2 Hi Hsplit -> Hfuel Hlen.
  - exists (<[0%nat := Some (pred_at 0 A)]> update). cbn.
    rewrite (advance_level fuel 0 l1 l2) by done. cbn.
    unfold set_item. rewrite bool_decide_true by done. cbn.
    split; [done|]. split; [by rewrite length_insert|]. split.
    + intros j Hj. replace j with 0%nat by lia.
      by rewrite list_lookup_insert_eq.
    + intros j Hj. by rewrite list_lookup_insert_ne by lia.
  - cbn. rewrite (advance_level fuel (S i) l1 l2) by done. cbn.
    unfold set_item. rewrite bool_decide_true by done. cbn.
    destruct (ids_at_prefix_last i (S i) A ltac:(lia)) as (l1' & l2' & Hsplit' & Hlast').
    destruct (IH (pred_at (S i) A) (<[S i := Some (pred_at (S i) A)]> update) l1' l2')
      as (update' & Hrun & Hlen' & Hlow & Hhigh);
      [lia|done|done|done|by rewrite length_insert; lia|].
    exists update'. split; [done|]. rewrite length_insert in Hlen'.
    split; [done|]. split.
    + intros j Hj. destruct (decide (j = S i)) as [->|Hne].
      * rewrite Hhigh by lia. by rewrite list_lookup_insert_eq.
      * apply Hlow. lia.
    + intros j Hj. rewrite Hhigh by lia. by rewrite list_lookup_insert_ne by lia.
Qed.

Lemma descend_search_spec fuel : ∀ i current l1 l2,
  (i ≤ ml)%nat → ids_at i A = l1 ++ l2 → current = last_or 0%nat l1 →
  (length A ≤ fuel)%nat →
  descend_search fuel h key i current = Ret (pred_at 0 A).
Proof using All.
  induction i as [|i IH]; intros current l1 l2 Hi Hsplit -> Hfuel.
  - cbn. by rewrite (advance_level fuel 0 l1 l2).
  - cbn. rewrite (advance_level fuel (S i) l1 l2) by done. cbn.
    destruct (ids_at_prefix_last i (S i) A ltac:(lia)) as (l1' & l2' & Hsplit' & Hlast').
    apply (IH _ l1' l2'); (done || lia).
Qed.

End descent.

(** ** Sorted keys *)

Lemma sorted_app ks1 ks2 :
  sorted (ks1 ++ ks2) ↔
  sorted ks1 ∧ sorted ks2 ∧ Forall (λ k1, Forall (λ k2, k1 ≤ k2) ks2) ks1.
Proof.
  induction ks1 as [|k ks1 IH]; cbn.
  - split; [by intros ?; split_and!|by intros (_ & ? & _)].
  - rewrite IH, Forall_app, Forall_cons. tauto.
Qed.

Lemma sorted_split key L :
  sorted (e_key <$> L) →
  ∃ A B, L = A ++ B ∧
    Forall (λ e, e_key e < key) A ∧ Forall (λ e, key ≤ e_key e) B.
Proof.
  induction L as [|e L IH]; intros Hsorted.
  - by exists [], [].
  - cbn in Hsorted. destruct Hsorted as [Hle Hsorted].
    destruct (decide (e_key e < key)) as [Hlt|Hge].
    + destruct (IH Hsorted) as (A & B & -> & HA & HB).
      exists (e :: A), B. split; [done|]. split; [|done]. by constructor.
    + exists [], (e :: L). split; [done|]. split; [done|].
      constructor; [lia|]. rewrite Forall_fmap in Hle.
      eapply Forall_impl; [exact Hle|]. cbn. intros e' He'. lia.
Qed.

Lemma key_elem_of_split key A B :
  sorted (e_key <$> A ++ B) →
  Forall (λ e, e_key e < key) A → Forall (λ e, key ≤ e_key e) B →
  key ∈ e_key <$> A ++ B ↔ e_key <$> head B = Some key.
Proof.
  intros Hsorted HA HB. rewrite fmap_app, elem_of_app. split.
  - intros [Hin|Hin].
    + apply list_elem_of_fmap in Hin as (e & -> & He).
      rewrite Forall_forall in HA. specialize (HA e He). lia.
    + destruct B as [|b B]; [by apply elem_of_nil in Hin|]. cbn. f_equal.
      rewrite fmap_app in Hsorted.
      apply sorted_app in Hsorted as (_ & [Hb _] & _).
      apply Forall_cons in HB as [Hkb _].
      apply elem_of_cons in Hin as [->|Hin]; [done|].
      rewrite Forall_forall in Hb. specialize (Hb key Hin). lia.
  - destruct B as [|b B]; [done|]. cbn. intros [= <-]. right. by left.
Qed.

(** ** Facts that follow from the invariant *)

Lemma nodes_ok_elem h L e :
  nodes_ok h L → e ∈ L →
  key_at h (e_id e) = Some (Int (e_key e)) ∧
  flen h (e_id e) = Some (e_height e + 1)%nat.
Proof. unfold nodes_ok. rewrite Forall_forall. auto. Qed.

Lemma chain_cons h i c x l :
  chain h i c (x :: l) ↔ fwd h c i = Some (Some x) ∧ chain h i x l.
Proof. unfold chain. cbn. rewrite last_or_cons. tauto. Qed.

Lemma walk0_spec h : ∀ L fuel c,
  chain h 0 c (e_id <$> L) → nodes_ok h L → (length L ≤ fuel)%nat →
  walk0 fuel h c = Ret ((λ e, (e_id e, Int (e_key e))) <$> L).
Proof.
  induction L as [|e L IH]; intros fuel c Hchain Hnodes Hfuel.
  - destruct Hchain as [_ Hend]. cbn in Hend.
    destruct fuel; cbn; by rewrite (proj2 (get_forward_Ret _ _ _ _) Hend).
  - rewrite fmap_cons in Hchain. apply chain_cons in Hchain as [Hc Hchain].
    apply Forall_cons in Hnodes as [[Hk _] Hnodes].
    destruct fuel as [|fuel]; [cbn in Hfuel; lia|]. cbn.
    rewrite (proj2 (get_forward_Ret _ _ _ _) Hc). cbn.
    rewrite (proj2 (get_key_Ret _ _ _) Hk). cbn.
    rewrite (IH fuel (e_id e)); [done..|]. cbn in Hfuel. lia.
Qed.

Lemma level0_spec sl L fuel :
  Inv sl L → (length L ≤ fuel)%nat →
  level0 fuel sl = Ret ((λ e, (e_id e, Int (e_key e))) <$> L).
Proof.
  intros HI Hfuel. unfold level0. rewrite (inv_header _ _ HI).
  apply walk0_spec; [|apply HI|done].
  rewrite <- ids_at_0. apply HI. lia.
Qed.

Lemma search_spec sl L fuel key :
  Inv sl L → (length L ≤ fuel)%nat →
  search fuel sl key = Ret (bool_decide (key ∈ e_key <$> L)).
Proof.
  intros HI Hfuel.
  destruct (sorted_split key L (inv_sorted _ _ HI)) as (A & B & -> & HA & HB).
  pose proof (key_elem_of_split key A B (inv_sorted _ _ HI) HA HB) as Hmem.
  rewrite length_app in Hfuel.
  unfold search. rewrite (inv_header _ _ HI).
  rewrite (descend_search_spec (heap sl) (max_level sl) A B key
             (inv_nodes _ _ HI) HA HB (inv_chain _ _ HI) fuel
             (level sl) 0%nat [] (ids_at (level sl) A));
    [|apply HI|done|done|lia].
  cbn.
  pose proof (pred_at_next (heap sl) (max_level sl) A B
                (inv_chain _ _ HI) 0 ltac:(lia)) as Hnext.
  rewrite (proj2 (get_forward_Ret _ _ _ _) Hnext). cbn.
  rewrite ids_at_0. destruct B as [|b B]; cbn.
  - f_equal. symmetry. apply bool_decide_eq_false. rewrite Hmem. done.
  - destruct (nodes_ok_elem (heap sl) (A ++ b :: B) b (inv_nodes _ _ HI))
      as [Hk _]; [apply elem_of_app; right; by left|].
    rewrite (proj2 (get_key_Ret _ _ _) Hk). cbn. f_equal.
    apply bool_decide_ext. rewrite Hmem. cbn. split; congruence.
Qed.

(** ** Linking a node into a chain and out of it *)

Lemma ids_at_sublist i L : ids_at i L `sublist_of` e_id <$> L.
Proof.
  induction L as [|e L IH]; [done|].
  rewrite ids_at_cons, fmap_cons.
  case_decide; [by apply sublist_skip|by apply sublist_cons].
Qed.

Lemma ids_at_NoDup i L :
  NoDup (0%nat :: (e_id <$> L)) → NoDup (0%nat :: ids_at i L).
Proof.
  intros Hdup. eapply sublist_NoDup; [exact Hdup|].
  apply sublist_skip, ids_at_sublist.
Qed.

Lemma chain_ext h h' i c l :
  (∀ n, n ∈ c :: l → fwd h' n i = fwd h n i) →
  chain h i c l → chain h' i c l.
Proof.
  intros Hext [Hlinks Hend]. split; [by apply (links_ext h)|].
  rewrite Hext; [done|apply last_or_elem].
Qed.

Lemma links_ext_but_last h h' i : ∀ l c,
  NoDup (c :: l) →
  (∀ n, n ∈ c :: l → n ≠ last_or c l → fwd h' n i = fwd h n i) →
  links h i c l → links h' i c l.
Proof.
  induction l as [|x l IH]; intros c Hdup Hext; cbn; [done|].
  intros [Hc Hl]. apply NoDup_cons in Hdup as [Hcx Hdup]. split.
  - rewrite Hext; [done|by left|]. rewrite last_or_cons.
    intros ->. apply Hcx, last_or_elem.
  - apply IH; [done| |done]. intros n Hn Hlast. apply Hext; [by right|].
    by rewrite last_or_cons.
Qed.

Lemma chain_splice h h' i c l1 l2 nid :
  chain h i c (l1 ++ l2) → NoDup (c :: l1 ++ l2) → nid ∉ c :: l1 ++ l2 →
  fwd h' nid i = Some (head l2) →
  fwd h' (last_or c l1) i = Some (Some nid) →
  (∀ n, n ≠ nid → n ≠ last_or c l1 → fwd h' n i = fwd h n i) →
  chain h' i c (l1 ++ nid :: l2).
Proof.
  intros [Hlinks Hend] Hdup Hfresh Hnew Hpred Hother.
  apply links_app in Hlinks as [Hl1 Hl2].
  assert (last_or c l1 ∈ c :: l1) as Hu by apply last_or_elem.
  assert (∀ n, n ∈ l2 → n ≠ nid ∧ n ≠ last_or c l1) as Hl2ne.
  { intros n Hn. split.
    - intros ->. apply Hfresh. right. apply elem_of_app. by right.
    - intros ->. rewrite app_comm_cons in Hdup.
      apply NoDup_app in Hdup as (_ & Hdisj & _). by apply (Hdisj _ Hu). }
  split.
  - apply links_app. split.
    + apply (links_ext_but_last h); [|by intros; apply Hother; [intros ->; apply Hfresh; rewrite app_comm_cons; apply elem_of_app; left|]|done].
      rewrite app_comm_cons in Hdup. by apply NoDup_app in Hdup as (? & _ & _).
    + cbn. split; [done|]. destruct l2 as [|z l2]; [done|].
      destruct Hl2 as [Hz Hl2]. cbn in Hnew. split; [done|].
      apply (links_ext h); [|done]. intros n Hn.
      destruct (Hl2ne n Hn) as [? ?]. by apply Hother.
  - rewrite last_or_app, last_or_cons.
    destruct l2 as [|z l2]; [done|].
    rewrite last_or_cons.
    assert (last_or z l2 ∈ z :: l2) as Hlast by apply last_or_elem.
    destruct (Hl2ne _ Hlast) as [? ?]. rewrite Hother by done.
    by rewrite last_or_app, last_or_cons in Hend.
Qed.

Lemma chain_unsplice h h' i c l1 l2 d :
  chain h i c (l1 ++ d :: l2) → NoDup (c :: l1 ++ d :: l2) →
  fwd h' (last_or c l1) i = fwd h d i →
  (∀ n, n ≠ last_or c l1 → fwd h' n i = fwd h n i) →
  chain h' i c (l1 ++ l2).
Proof.
  intros [Hlinks Hend] Hdup Hpred Hother.
  apply links_app in Hlinks as [Hl1 [Hd Hl2]].
  assert (last_or c l1 ∈ c :: l1) as Hu by apply last_or_elem.
  assert (∀ n, n ∈ l2 → n ≠ last_or c l1) as Hl2ne.
  { intros n Hn ->. rewrite app_comm_cons in Hdup.
    apply NoDup_app in Hdup as (_ & Hdisj & _).
    apply (Hdisj _ Hu). by right. }
  rewrite last_or_app, last_or_cons in Hend.
  split.
  - apply links_app. split.
    + apply (links_ext_but_last h); [|by intros; apply Hother|done].
      rewrite app_comm_cons in Hdup. by apply NoDup_app in Hdup as (? & _ & _).
    + destruct l2 as [|z l2]; [done|].
      destruct Hl2 as [Hz Hl2]. split; [by rewrite Hpred|].
      apply (links_ext h); [|done]. intros n Hn. by apply Hother, Hl2ne.
  - rewrite last_or_app. destruct l2 as [|z l2].
    { change (last_or (last_or c l1) []) with (last_or c l1). by rewrite Hpred. }
    rewrite last_or_cons in Hend |- *.
    rewrite Hother; [done|]. apply Hl2ne, last_or_elem.
Qed.

(** ** The loops of [insert] *)

Lemma random_level_loop_spec ml draws : ∀ fuel lvl,
  (lvl ≤ ml)%nat → (ml - lvl ≤ fuel)%nat →
  ∃ nl, random_level_loop fuel ml draws lvl = Ret nl ∧ (lvl ≤ nl ≤ ml)%nat.
Proof.
  induction fuel as [|fuel IH]; intros lvl Hlvl Hfuel; cbn.
  - exists lvl. rewrite (bool_decide_false (lvl < ml)%nat) by lia.
    rewrite andb_false_r. split; [done|lia].
  - destruct (draws lvl && bool_decide (lvl < ml)%nat) eqn:Hgo.
    + apply andb_true_iff in Hgo as [_ Hlt%bool_decide_eq_true].
      destruct (IH (lvl + 1)%nat) as (nl & Hrun & Hnl); [lia..|].
      exists nl. split; [done|lia].
    + exists lvl. split; [done|lia].
Qed.

Lemma fill_header_spec hd : ∀ n start update,
  (start + n ≤ length update)%nat →
  ∃ update', fill_header update hd (seq start n) = Ret update' ∧
    length update' = length update ∧
    (∀ j, (start ≤ j < start + n)%nat → update' !! j = Some (Some hd)) ∧
    (∀ j, ¬ (start ≤ j < start + n)%nat → update' !! j = update !! j).
Proof.
  induction n as [|n IH]; intros start update Hlen; cbn.
  - exists update. split_and!; [done..|lia|done].
  - unfold set_item. rewrite bool_decide_true by lia. cbn.
    destruct (IH (S start) (<[start := Some hd]> update))
      as (update' & Hrun & Hlen' & Hin & Hout); [rewrite length_insert; lia|].
    rewrite length_insert in Hlen'.
    exists update'. split_and!; [done..| |].
    + intros j Hj. destruct (decide (j = start)) as [->|Hne].
      * rewrite Hout by lia. apply list_lookup_insert_eq. lia.
      * apply Hin. lia.
    + intros j Hj. rewrite Hout by lia. apply list_lookup_insert_ne. lia.
Qed.

Lemma pred_at_elem i A : pred_at i A ∈ 0%nat :: ids_at i A.
Proof. apply last_or_elem. Qed.

Lemma pred_at_flen h ml i L A :
  flen h 0 = Some (ml + 1)%nat → nodes_ok h L → A ⊆ L → (i ≤ ml)%nat →
  ∃ n, flen h (pred_at i A) = Some n ∧ (i < n)%nat.
Proof.
  intros Hhdr Hnodes HAL Hi.
  pose proof (pred_at_elem i A) as Hin.
  apply elem_of_cons in Hin as [->|Hin].
  - exists (ml + 1)%nat. split; [done|lia].
  - apply list_elem_of_fmap in Hin as (e & -> & He).
    apply list_elem_of_filter in He as [Htall He].
    destruct (nodes_ok_elem h L e Hnodes (HAL _ He)) as [_ Hlen].
    exists (e_height e + 1)%nat. split; [done|]. unfold tall in Htall. lia.
Qed.

Lemma ids_at_above i lvl L :
  Forall (λ e, (e_height e ≤ lvl)%nat) L → (lvl < i)%nat → ids_at i L = [].
Proof.
  intros Hheights Hi. induction Hheights as [|e L He _ IH]; [done|].
  rewrite ids_at_cons. by rewrite decide_False by (unfold tall; lia).
Qed.

Lemma pred_at_above i lvl A :
  Forall (λ e, (e_height e ≤ lvl)%nat) A → (lvl < i)%nat → pred_at i A = 0%nat.
Proof. intros Hheights Hi. unfold pred_at. by rewrite (ids_at_above i lvl). Qed.

Lemma get_update_Ret (update : list (option nat)) i r :
  update !! i = Some (Some r) → get_update update i = Ret r.
Proof. intros H. unfold get_update, get_item. by rewrite H. Qed.

Section splicing.
Context (h0 : list SkipNode) (ml nl nid : nat) (A B : list entry).
Context (update : list (option nat)).
Hypothesis Hnl : (nl ≤ ml)%nat.
Hypothesis Hhdr : flen h0 0 = Some (ml + 1)%nat.
Hypothesis Hnodes : nodes_ok h0 (A ++ B).
Hypothesis Hnew : flen h0 nid = Some (nl + 1)%nat.
Hypothesis Hdup : NoDup (0%nat :: (e_id <$> A ++ B)).
Hypothesis Hfresh : nid ∉ 0%nat :: (e_id <$> A ++ B).
Hypothesis Hupd : ∀ j, (j ≤ nl)%nat → update !! j = Some (Some (pred_at j A)).

Lemma splice_ids_NoDup i : NoDup (0%nat :: ids_at i A ++ ids_at i B).
Proof. rewrite <- ids_at_app. by apply ids_at_NoDup. Qed.

Lemma splice_ids_fresh i : nid ∉ 0%nat :: ids_at i A ++ ids_at i B.
Proof.
  rewrite <- ids_at_app. intros Hin. apply Hfresh.
  apply elem_of_cons in Hin as [->|Hin]; [by left|].
  right. by apply ids_at_subseteq in Hin.
Qed.

Lemma splice_pred_ne i : pred_at i A ≠ nid.
Proof.
  intros Heq. apply (splice_ids_fresh i). rewrite <- Heq.
  rewrite app_comm_cons. apply elem_of_app. left. apply pred_at_elem.
Qed.

Lemma splice_step i hc :
  (i ≤ nl)%nat → splice_inv h0 ml nl nid A B i hc →
  ∃ h2,
    (next ← get_forward hc (pred_at i A) i;
     h1 ← set_forward hc nid i next;
     set_forward h1 (pred_at i A) i (Some nid)) = Ret h2 ∧
    splice_inv h0 ml nl nid A B (S i) h2.
Proof.
  intros Hi (Hkey & Hflen & Hlen & Hdone & Htodo).
  pose proof (Htodo i ltac:(lia) ltac:(lia)) as Hchain.
  rewrite ids_at_app in Hchain.
  pose proof (chain_next _ _ _ _ _ Hchain) as Hnext.
  fold (pred_at i A) in Hnext.
  rewrite (proj2 (get_forward_Ret _ _ _ _) Hnext). cbn.
  destruct (set_forward_spec hc nid i (head (ids_at i B)) (nl + 1))
    as (h1 & Hset1 & Hlen1 & Hfwd1 & Hother1 & Hkey1 & Hflen1);
    [by rewrite Hflen|lia|].
  rewrite Hset1. cbn.
  destruct (pred_at_flen h0 ml i (A ++ B) A Hhdr Hnodes) as (n & Hn & Hin);
    [by intros e He; apply elem_of_app; left|lia|].
  destruct (set_forward_spec h1 (pred_at i A) i (Some nid) n)
    as (h2 & Hset2 & Hlen2 & Hfwd2 & Hother2 & Hkey2 & Hflen2);
    [by rewrite Hflen1, Hflen|done|].
  exists h2. split; [done|].
  assert (∀ r j, j ≠ i → fwd h2 r j = fwd hc r j) as Hlevels.
  { intros r j Hj. rewrite Hother2, Hother1 by congruence. done. }
  split_and!.
  - intros r. by rewrite Hkey2, Hkey1.
  - intros r. by rewrite Hflen2, Hflen1.
  - congruence.
  - intros j Hj Hjnl. destruct (decide (j = i)) as [->|Hne].
    + apply (chain_splice hc); [done|apply splice_ids_NoDup|apply splice_ids_fresh| | |].
      * rewrite Hother2; [done|]. pose proof (splice_pred_ne i) as Hne.
        intros [= Heq]. by rewrite Heq in Hne.
      * done.
      * intros r Hr1 Hr2. fold (pred_at i A) in Hr2.
        rewrite Hother2, Hother1 by congruence. done.
    + apply (chain_ext hc); [|apply Hdone; lia].
      intros r _. by apply Hlevels.
  - intros j Hj Hjml. apply (chain_ext hc); [|apply Htodo; lia].
    intros r _. apply Hlevels. lia.
Qed.

Lemma splice_spec : ∀ n i hc,
  (i + n = nl + 1)%nat → splice_inv h0 ml nl nid A B i hc →
  ∃ h', splice hc update nid (seq i n) = Ret h' ∧
    splice_inv h0 ml nl nid A B (nl + 1) h'.
Proof.
  induction n as [|n IH]; intros i hc Hin Hinv; cbn.
  - exists hc. split; [done|]. by replace (nl + 1)%nat with i by lia.
  - rewrite (get_update_Ret update i (pred_at i A)) by (apply Hupd; lia). cbn.
    destruct (splice_step i hc ltac:(lia) Hinv) as (h2 & Hstep & Hinv2).
    destruct (get_forward hc (pred_at i A) i) as [next| |]; cbn in *; [|done..].
    destruct (set_forward hc nid i next) as [h1| |]; cbn in *; [|done..].
    rewrite Hstep. cbn. apply IH; [lia|done].
Qed.

End splicing.

(** ** Allocation *)

Lemma fwd_app_l h h2 r i v : fwd h r i = Some v → fwd (h ++ h2) r i = Some v.
Proof.
  unfold fwd. destruct (h !! r) as [node|] eqn:Hr; [|done].
  by rewrite (lookup_app_l_Some _ _ _ _ Hr).
Qed.

Lemma key_at_app_l h h2 r k : key_at h r = Some k → key_at (h ++ h2) r = Some k.
Proof.
  unfold key_at. destruct (h !! r) as [node|] eqn:Hr; [|done].
  by rewrite (lookup_app_l_Some _ _ _ _ Hr).
Qed.

Lemma flen_app_l h h2 r n : flen h r = Some n → flen (h ++ h2) r = Some n.
Proof.
  unfold flen. destruct (h !! r) as [node|] eqn:Hr; [|done].
  by rewrite (lookup_app_l_Some _ _ _ _ Hr).
Qed.

Lemma key_at_lt h r k : key_at h r = Some k → (r < length h)%nat.
Proof.
  unfold key_at. destruct (h !! r) as [node|] eqn:Hr; [|done].
  intros _. by apply lookup_lt_Some in Hr.
Qed.

Lemma links_mono h h' i : ∀ l c,
  (∀ n v, fwd h n i = Some v → fwd h' n i = Some v) →
  links h i c l → links h' i c l.
Proof.
  induction l as [|x l IH]; intros c Hmono; cbn; [done|].
  intros [Hc Hl]. split; [by apply Hmono|by apply IH].
Qed.

Lemma chain_mono h h' i c l :
  (∀ n v, fwd h n i = Some v → fwd h' n i = Some v) →
  chain h i c l → chain h' i c l.
Proof.
  intros Hmono [Hlinks Hend]. split; [by apply (links_mono h)|by apply Hmono].
Qed.

Lemma nodes_ok_mono h h' L :
  (∀ r k, key_at h r = Some k → key_at h' r = Some k) →
  (∀ r n, flen h r = Some n → flen h' r = Some n) →
  nodes_ok h L → nodes_ok h' L.
Proof.
  intros Hkey Hflen Hnodes. unfold nodes_ok.
  eapply Forall_impl; [exact Hnodes|].
  intros e [Hk Hn]. split; [by apply Hkey|by apply Hflen].
Qed.

Lemma nodes_ok_fresh h L : nodes_ok h L → length h ∉ e_id <$> L.
Proof.
  intros Hnodes Hin. apply list_elem_of_fmap in Hin as (e & Heq & He).
  destruct (nodes_ok_elem h L e Hnodes He) as [Hk _].
  apply key_at_lt in Hk. lia.
Qed.

Lemma sorted_insert key A B :
  sorted (e_key <$> A ++ B) →
  Forall (λ e, e_key e < key) A → Forall (λ e, key ≤ e_key e) B →
  ∀ e, e_key e = key → sorted (e_key <$> A ++ e :: B).
Proof.
  intros Hsorted HA HB e He.
  rewrite fmap_app in Hsorted |- *. rewrite fmap_cons.
  apply sorted_app in Hsorted as (HsA & HsB & Hcross).
  apply sorted_app. split; [done|]. split.
  - cbn. split; [|done]. rewrite Forall_fmap, He. by apply HB.
  - rewrite Forall_fmap in Hcross |- *.
    rewrite Forall_forall in Hcross, HA |- *. intros a Ha. cbn.
    constructor; [specialize (HA a Ha); lia|by apply Hcross].
Qed.

Lemma sorted_remove A e B :
  sorted (e_key <$> A ++ e :: B) → sorted (e_key <$> A ++ B).
Proof.
  rewrite !fmap_app, fmap_cons. intros Hsorted.
  apply sorted_app in Hsorted as (HsA & [_ HsB] & Hcross).
  apply sorted_app. split; [done|]. split; [done|].
  eapply Forall_impl; [exact Hcross|]. intros a Ha. cbn in Ha.
  by apply Forall_cons in Ha as [_ ?].
Qed.

(** ** [insert] keeps the invariant *)

Lemma insert_spec_level sl L fuel key draws :
  Inv sl L → (length L ≤ fuel)%nat → (max_level sl ≤ fuel)%nat →
  ∃ sl' A B nl,
    insert fuel sl key draws = Ret sl' ∧
    L = A ++ B ∧
    Forall (λ e, e_key e < key) A ∧ Forall (λ e, key ≤ e_key e) B ∧
    (nl ≤ max_level sl)%nat ∧
    max_level sl' = max_level sl ∧
    level sl' = (level sl `max` nl)%nat ∧
    Inv sl' (A ++ {| e_id := length (heap sl); e_key := key; e_height := nl |} :: B).
Proof.
  intros HI HfuelL Hfuelml.
  destruct (sorted_split key L (inv_sorted _ _ HI)) as (A & B & -> & HA & HB).
  pose proof (inv_heights _ _ HI) as Hheights.
  apply Forall_app in Hheights as [HhA HhB].
  rewrite length_app in HfuelL.
  unfold insert. rewrite (inv_header _ _ HI).
  (* the descent *)
  destruct (descend_spec (heap sl) (max_level sl) A B key
              (inv_nodes _ _ HI) HA HB (inv_chain _ _ HI) fuel (level sl) 0%nat
              (replicate (max_level sl + 1) None) [] (ids_at (level sl) A))
    as (update1 & Hdesc & Hlen1 & Hlow1 & Hhigh1);
    [apply HI|done|done|lia|rewrite length_replicate; pose proof (inv_level _ _ HI); lia|].
  rewrite Hdesc. cbn. rewrite length_replicate in Hlen1.
  (* the level of the new node *)
  destruct (random_level_loop_spec (max_level sl) draws fuel 0)
    as (nl & Hrand & Hnl); [lia..|].
  unfold _random_level. rewrite Hrand. cbn.
  (* the update vector above the old level *)
  set (nid := length (heap sl)).
  set (h0 := heap sl ++ [new_node (Int key) nl]).
  assert (∃ update2 lvl',
    (if bool_decide (level sl < nl)%nat
     then update' ← fill_header update1 0%nat
                      (seq (level sl + 1) (nl - level sl));
          Ret (update', nl)
     else Ret (update1, level sl)) = Ret (update2, lvl') ∧
    lvl' = (level sl `max` nl)%nat ∧
    ∀ j, (j ≤ nl)%nat → update2 !! j = Some (Some (pred_at j A)))
    as (update2 & lvl' & -> & Hlvl' & Hupd2).
  { case_bool_decide as Hcmp.
    - destruct (fill_header_spec 0%nat (nl - level sl) (level sl + 1) update1)
        as (update2 & Hfill & Hlen2 & Hin & Hout); [lia|].
      rewrite Hfill. cbn. exists update2, nl. split; [done|]. split; [lia|].
      intros j Hj. destruct (decide (j ≤ level sl)%nat) as [Hjl|Hjl].
      + rewrite Hout by lia. by apply Hlow1.
      + rewrite Hin by lia. by rewrite (pred_at_above j (level sl) A) by (done || lia).
    - exists update1, (level sl). split; [done|]. split; [lia|].
      intros j Hj. apply Hlow1. lia. }
  cbn. fold nid h0.
  (* the splice *)
  pose proof (nodes_ok_fresh _ _ (inv_nodes _ _ HI)) as Hfresh. fold nid in Hfresh.
  assert (nid ∉ 0%nat :: (e_id <$> A ++ B)) as Hfresh0.
  { intros [Heq|Hin]%elem_of_cons; [|done].
    pose proof (key_at_lt _ _ _ (inv_header_key _ _ HI)). lia. }
  assert (flen h0 nid = Some (nl + 1)%nat) as Hnewlen.
  { unfold flen, h0, nid. rewrite list_lookup_middle by done. cbn.
    by rewrite length_replicate. }
  assert (key_at h0 nid = Some (Int key)) as Hnewkey.
  { unfold key_at, h0, nid. by rewrite list_lookup_middle. }
  assert (nodes_ok h0 (A ++ B)) as Hnodes0.
  { apply (nodes_ok_mono (heap sl)); [apply key_at_app_l|apply flen_app_l|apply HI]. }
  assert (splice_inv h0 (max_level sl) nl nid A B 0 h0) as Hinv0.
  { split_and!; [done|done|done|intros j Hj; lia|].
    intros j _ Hj. apply (chain_mono (heap sl)); [|by apply HI].
    intros n v. apply fwd_app_l. }
  destruct (splice_spec h0 (max_level sl) nl nid A B update2
              ltac:(lia) (flen_app_l _ _ _ _ (inv_header_len _ _ HI)) Hnodes0
              Hnewlen (inv_ids _ _ HI) Hfresh0 Hupd2 (nl + 1) 0 h0 ltac:(lia) Hinv0)
    as (h' & Hsplice & Hkey' & Hflen' & Hlen' & Hdone & Htodo).
  rewrite Hsplice. cbn.
  eexists _, A, B, nl. split; [done|]. split; [done|].
  split; [done|]. split; [done|]. split; [lia|]. split; [done|].
  split; [exact Hlvl'|].
  constructor; cbn [max_level heap header level size]; fold nid.
  - done.
  - rewrite Hkey'. apply key_at_app_l, HI.
  - rewrite Hflen'. apply flen_app_l, HI.
  - unfold nodes_ok. rewrite Forall_app, Forall_cons.
    unfold nodes_ok in Hnodes0. apply Forall_app in Hnodes0 as [HnA HnB].
    split_and!.
    + eapply Forall_impl; [exact HnA|]. intros e [? ?]. by rewrite Hkey', Hflen'.
    + by rewrite Hkey'.
    + by rewrite Hflen'.
    + eapply Forall_impl; [exact HnB|]. intros e [? ?]. by rewrite Hkey', Hflen'.
  - rewrite fmap_app, fmap_cons, <- Permutation_middle, <- fmap_app.
    cbn [e_id]. rewrite (Permutation_swap nid 0%nat).
    apply NoDup_cons. split; [done|apply HI].
  - apply (sorted_insert key); [apply HI|done..].
  - pose proof (inv_level _ _ HI). lia.
  - rewrite Forall_app, Forall_cons. split_and!.
    + eapply Forall_impl; [exact HhA|]. cbn. lia.
    + cbn. lia.
    + eapply Forall_impl; [exact HhB|]. cbn. lia.
  - intros j Hj. rewrite ids_at_app, ids_at_cons.
    case_decide as Ht; unfold tall in Ht; cbn in Ht.
    + apply Hdone; lia.
    + rewrite <- ids_at_app. apply Htodo; lia.
  - rewrite (inv_size _ _ HI), !length_app. cbn. lia.
Qed.

Lemma insert_spec sl L fuel key draws :
  Inv sl L → (length L ≤ fuel)%nat → (max_level sl ≤ fuel)%nat →
  ∃ sl' A B nl,
    insert fuel sl key draws = Ret sl' ∧
    L = A ++ B ∧
    Forall (λ e, e_key e < key) A ∧ Forall (λ e, key ≤ e_key e) B ∧
    (nl ≤ max_level sl)%nat ∧
    max_level sl' = max_level sl ∧
    Inv sl' (A ++ {| e_id := length (heap sl); e_key := key; e_height := nl |} :: B).
Proof.
  intros HI HfuelL Hfuelml.
  destruct (insert_spec_level sl L fuel key draws HI HfuelL Hfuelml)
    as (sl' & A & B & nl & ? & ? & ? & ? & ? & ? & _ & ?).
  by exists sl', A, B, nl.
Qed.

(** ** The loops of [delete] *)

Section unlinking.
Context (h0 : list SkipNode) (ml lvl : nat) (d : entry) (A B : list entry).
Context (update : list (option nat)).
Hypothesis Hlvl : (lvl ≤ ml)%nat.
Hypothesis Hhdr : flen h0 0 = Some (ml + 1)%nat.
Hypothesis Hnodes : nodes_ok h0 (A ++ d :: B).
Hypothesis Hdup : NoDup (0%nat :: (e_id <$> A ++ d :: B)).
Hypothesis Hheights : Forall (λ e, (e_height e ≤ lvl)%nat) (A ++ d :: B).
Hypothesis Hupd : ∀ j, (j ≤ lvl)%nat → update !! j = Some (Some (pred_at j A)).

Lemma unlink_ids_NoDup i : NoDup (0%nat :: ids_at i A ++ ids_at i (d :: B)).
Proof. rewrite <- ids_at_app. by apply ids_at_NoDup. Qed.

Lemma unlink_not_in_B i : e_id d ∉ ids_at i B.
Proof.
  intros Hin. apply ids_at_subseteq in Hin.
  rewrite fmap_app, fmap_cons in Hdup.
  apply NoDup_cons in Hdup as [_ Hdup'].
  apply NoDup_app in Hdup' as (_ & _ & Hdup').
  by apply NoDup_cons in Hdup' as [? _].
Qed.

Lemma unlink_finished i hc :
  (∀ j, (i ≤ j)%nat → ¬ tall j d) →
  unlink_inv h0 ml d A B i hc → unlink_inv h0 ml d A B (S ml) hc.
Proof.
  intros Hshort (Hkey & Hflen & Hlen & Hdone & Htodo).
  split_and!; [done..| |intros j ? ?; lia].
  intros j _ Hj. destruct (decide (j < i)%nat) as [Hlt|Hge].
  - by apply Hdone.
  - pose proof (Htodo j ltac:(lia) Hj) as Hchain.
    rewrite ids_at_app, ids_at_cons in Hchain.
    rewrite decide_False in Hchain by (apply Hshort; lia).
    by rewrite ids_at_app.
Qed.

Lemma unlink_spec : ∀ n i hc,
  (i + n = lvl + 1)%nat → unlink_inv h0 ml d A B i hc →
  ∃ h', unlink hc update (e_id d) (seq i n) = Ret h' ∧
    unlink_inv h0 ml d A B (S ml) h'.
Proof.
  induction n as [|n IH]; intros i hc Hin Hinv; cbn.
  - exists hc. split; [done|]. apply (unlink_finished i); [|done].
    intros j Hj Htall. unfold tall in Htall.
    rewrite Forall_forall in Hheights.
    specialize (Hheights d ltac:(apply elem_of_app; right; by left)). lia.
  - rewrite (get_update_Ret update i (pred_at i A)) by (apply Hupd; lia). cbn.
    destruct Hinv as (Hkey & Hflen & Hlen & Hdone & Htodo).
    pose proof (Htodo i ltac:(lia) ltac:(lia)) as Hchain.
    rewrite ids_at_app in Hchain.
    pose proof (chain_next _ _ _ _ _ Hchain) as Hnext.
    fold (pred_at i A) in Hnext.
    rewrite (proj2 (get_forward_Ret _ _ _ _) Hnext). cbn.
    rewrite ids_at_cons in Hnext, Hchain.
    destruct (decide (tall i d)) as [Htall|Hshort]; cbn [head].
    + rewrite bool_decide_false by (by intros ?).
      (* the node is at this level: bypass it *)
      pose proof Hchain as [Hlinks _].
      apply links_app in Hlinks as [_ [_ Hlinks]].
      assert (fwd hc (e_id d) i = Some (head (ids_at i B))) as Hdnext.
      { destruct (ids_at i B) as [|z l2] eqn:HB.
        - destruct Hchain as [_ Hend].
          by rewrite last_or_app, last_or_cons in Hend.
        - by destruct Hlinks. }
      rewrite (proj2 (get_forward_Ret _ _ _ _) Hdnext). cbn.
      destruct (pred_at_flen h0 ml i (A ++ d :: B) A Hhdr Hnodes) as (n' & Hn' & Hin');
        [by intros e He; apply elem_of_app; left|lia|].
      destruct (set_forward_spec hc (pred_at i A) i (head (ids_at i B)) n')
        as (h2 & Hset & Hlen2 & Hfwd2 & Hother2 & Hkey2 & Hflen2);
        [by rewrite Hflen|done|].
      rewrite Hset. cbn. apply IH; [lia|].
      split_and!.
      * intros r. by rewrite Hkey2.
      * intros r. by rewrite Hflen2.
      * congruence.
      * intros j Hj Hjml. destruct (decide (j = i)) as [->|Hne].
        -- rewrite ids_at_app.
           apply (chain_unsplice hc h2 i 0%nat _ _ (e_id d)); [done| | |].
           ++ pose proof (unlink_ids_NoDup i) as Hnd.
              rewrite ids_at_cons, decide_True in Hnd by done. done.
           ++ by rewrite Hdnext.
           ++ intros r Hr. fold (pred_at i A) in Hr. apply Hother2. congruence.
        -- apply (chain_ext hc); [|apply Hdone; lia].
           intros r _. apply Hother2. congruence.
      * intros j Hj Hjml. apply (chain_ext hc); [|apply Htodo; lia].
        intros r _. apply Hother2. intros [= _ ?]. lia.
    + (* the node stops below this level: break *)
      rewrite bool_decide_true; cycle 1.
      { intros Heq. apply (unlink_not_in_B i).
        apply head_Some_elem_of. exact Heq. }
      exists hc. split; [done|]. apply (unlink_finished i).
      * intros j Hj Htall. apply Hshort. unfold tall in *. lia.
      * by split_and!.
Qed.

End unlinking.

Lemma ids_at_nil_heights i L :
  ids_at i L = [] → Forall (λ e, (e_height e < i)%nat) L.
Proof.
  induction L as [|e L IH]; [done|]. rewrite ids_at_cons.
  case_decide as Ht; [done|]. intros HL. constructor; [|by apply IH].
  unfold tall in Ht. lia.
Qed.

Lemma shrink_spec h ml L : ∀ lvl,
  (lvl ≤ ml)%nat →
  (∀ j, (j ≤ ml)%nat → chain h j 0 (ids_at j L)) →
  Forall (λ e, (e_height e ≤ lvl)%nat) L →
  ∃ lvl', shrink h 0 lvl = Ret lvl' ∧ (lvl' ≤ lvl)%nat ∧
    Forall (λ e, (e_height e ≤ lvl')%nat) L.
Proof.
  induction lvl as [|lvl IH]; intros Hlvl Hchain Hheights; cbn.
  - by exists 0%nat.
  - pose proof (chain_next h (S lvl) 0%nat [] (ids_at (S lvl) L) (Hchain _ Hlvl))
      as Hnext.
    change (last_or 0%nat []) with 0%nat in Hnext.
    rewrite (proj2 (get_forward_Ret _ _ _ _) Hnext). cbn.
    destruct (ids_at (S lvl) L) as [|z l] eqn:Hids; cbn.
    + destruct (IH ltac:(lia) Hchain) as (lvl' & Hrun & Hle & Hh).
      { apply ids_at_nil_heights in Hids.
        eapply Forall_impl; [exact Hids|]. cbn. lia. }
      exists lvl'. split; [done|]. split; [lia|done].
    + exists (S lvl). split; [done|]. split; [lia|done].
Qed.

(** ** [delete] keeps the invariant *)

Lemma delete_spec_level sl L fuel key :
  Inv sl L → (length L ≤ fuel)%nat →
  ∃ found sl',
    delete fuel sl key = Ret (found, sl') ∧
    found = bool_decide (key ∈ e_key <$> L) ∧
    max_level sl' = max_level sl ∧
    if found then
      ∃ A d B, L = A ++ d :: B ∧
        Forall (λ e, e_key e < key) A ∧ e_key d = key ∧
        Forall (λ e, key ≤ e_key e) B ∧
        shrink (heap sl') 0 (level sl) = Ret (level sl') ∧
        Inv sl' (A ++ B)
    else sl' = sl.
Proof.
  intros HI HfuelL.
  destruct (sorted_split key L (inv_sorted _ _ HI)) as (A & B0 & -> & HA & HB).
  pose proof (key_elem_of_split key A B0 (inv_sorted _ _ HI) HA HB) as Hmem.
  rewrite length_app in HfuelL.
  unfold delete. rewrite (inv_header _ _ HI).
  destruct (descend_spec (heap sl) (max_level sl) A B0 key
              (inv_nodes _ _ HI) HA HB (inv_chain _ _ HI) fuel (level sl) 0%nat
              (replicate (max_level sl + 1) None) [] (ids_at (level sl) A))
    as (update1 & Hdesc & Hlen1 & Hlow1 & Hhigh1);
    [apply HI|done|done|lia|rewrite length_replicate; pose proof (inv_level _ _ HI); lia|].
  rewrite Hdesc. cbn.
  pose proof (pred_at_next (heap sl) (max_level sl) A B0
                (inv_chain _ _ HI) 0 ltac:(lia)) as Hnext.
  rewrite (proj2 (get_forward_Ret _ _ _ _) Hnext). cbn.
  rewrite ids_at_0. destruct B0 as [|d B]; cbn.
  { exists false, sl. split; [done|]. split; [|done].
    symmetry. apply bool_decide_eq_false. by rewrite Hmem. }
  destruct (nodes_ok_elem (heap sl) (A ++ d :: B) d (inv_nodes _ _ HI))
    as [Hk _]; [apply elem_of_app; right; by left|].
  rewrite (proj2 (get_key_Ret _ _ _) Hk). cbn.
  case_bool_decide as Hkey; cbn.
  2:{ exists false, sl. split; [done|]. split; [|done].
      symmetry. apply bool_decide_eq_false. rewrite Hmem. cbn. congruence. }
  (* the node [d] holds the key: unlink it *)
  assert (unlink_inv (heap sl) (max_level sl) d A B 0 (heap sl)) as Hinv0.
  { split_and!; [done|done|done|intros j Hj; lia|].
    intros j _ Hj. by apply HI. }
  destruct (unlink_spec (heap sl) (max_level sl) (level sl) d A B update1
              (inv_level _ _ HI) (inv_header_len _ _ HI) (inv_nodes _ _ HI) (inv_ids _ _ HI)
              (inv_heights _ _ HI) Hlow1 (level sl + 1) 0 (heap sl)
              ltac:(lia) Hinv0)
    as (h' & Hunlink & Hkey' & Hflen' & Hlen' & Hdone & _).
  rewrite Hunlink. cbn.
  pose proof (inv_heights _ _ HI) as Hheights.
  assert (Forall (λ e, (e_height e ≤ level sl)%nat) (A ++ B)) as Hheights'.
  { rewrite Forall_app in Hheights |- *. destruct Hheights as [? [_ ?]%Forall_cons].
    done. }
  destruct (shrink_spec h' (max_level sl) (A ++ B) (level sl) (inv_level _ _ HI))
    as (lvl' & Hshrink & Hlvl' & Hheights''); [|done|].
  { intros j Hj. apply Hdone; lia. }
  rewrite Hshrink. cbn.
  eexists true, _. split; [done|]. split.
  { symmetry. apply bool_decide_eq_true. rewrite Hmem. cbn. congruence. }
  split; [done|]. exists A, d, B. split; [done|]. split; [done|].
  split; [done|]. split; [by apply Forall_cons in HB as [_ ?]|].
  split; [exact Hshrink|].
  pose proof (inv_nodes _ _ HI) as Hnodes. unfold nodes_ok in Hnodes.
  apply Forall_app in Hnodes as [HnA [_ HnB]%Forall_cons].
  constructor; cbn [max_level heap header level size].
  - done.
  - rewrite Hkey'. apply HI.
  - rewrite Hflen'. apply HI.
  - unfold nodes_ok. rewrite Forall_app. split.
    + eapply Forall_impl; [exact HnA|]. intros e [? ?]. by rewrite Hkey', Hflen'.
    + eapply Forall_impl; [exact HnB|]. intros e [? ?]. by rewrite Hkey', Hflen'.
  - pose proof (inv_ids _ _ HI) as Hdup.
    rewrite fmap_app, fmap_cons, <- Permutation_middle, <- fmap_app in Hdup.
    rewrite (Permutation_swap (e_id d) 0%nat) in Hdup.
    by apply NoDup_cons in Hdup as [_ ?].
  - apply (sorted_remove A d B), HI.
  - pose proof (inv_level _ _ HI). lia.
  - done.
  - intros j Hj. apply Hdone; lia.
  - rewrite (inv_size _ _ HI), !length_app. cbn. lia.
Qed.

Lemma delete_spec sl L fuel key :
  Inv sl L → (length L ≤ fuel)%nat →
  ∃ found sl',
    delete fuel sl key = Ret (found, sl') ∧
    found = bool_decide (key ∈ e_key <$> L) ∧
    max_level sl' = max_level sl ∧
    if found then
      ∃ A d B, L = A ++ d :: B ∧
        Forall (λ e, e_key e < key) A ∧ e_key d = key ∧
        Forall (λ e, key ≤ e_key e) B ∧
        Inv sl' (A ++ B)
    else sl' = sl.
Proof.
  intros HI HfuelL.
  destruct (delete_spec_level sl L fuel key HI HfuelL)
    as (found & sl' & ? & ? & ? & Hcase).
  exists found, sl'. split_and!; [done..|].
  destruct found; [|done].
  destruct Hcase as (A & d & B & ? & ? & ? & ? & _ & ?).
  by exists A, d, B.
Qed.

(** ** The fuel only has to be enough *)

Lemma advance_mono h i key : ∀ fuel fuel' c r,
  (fuel ≤ fuel')%nat →
  advance fuel h i key c = Ret r → advance fuel' h i key c = Ret r.
Proof.
  induction fuel as [|fuel IH]; intros fuel' c r Hle;
    rewrite !(advance_unfold _ h i key c);
    (destruct (get_forward h c i) as [[n|]| |]; cbn; [|done..]);
    (destruct (get_key h n) as [k| |]; cbn; [|done..]);
    (destruct (key_lt k key); [|done]).
  - done.
  - destruct fuel' as [|fuel']; [lia|]. apply IH. lia.
Qed.

Lemma descend_mono h key fuel fuel' : ∀ i c update r,
  (fuel ≤ fuel')%nat →
  descend fuel h key i c update = Ret r → descend fuel' h key i c update = Ret r.
Proof.
  induction i as [|i IH]; intros c update r Hle Hrun; cbn in *;
    apply result_bind_Ret in Hrun as (c' & Hadv & Hrun);
    rewrite (advance_mono _ _ _ _ _ _ _ Hle Hadv); cbn;
    (destruct (set_item update _ (Some c')) as [update'| |]; cbn in *; [|done..]).
  - done.
  - by apply IH.
Qed.

Lemma descend_search_mono h key fuel fuel' : ∀ i c r,
  (fuel ≤ fuel')%nat →
  descend_search fuel h key i c = Ret r → descend_search fuel' h key i c = Ret r.
Proof.
  induction i as [|i IH]; intros c r Hle Hrun; cbn in *;
    apply result_bind_Ret in Hrun as (c' & Hadv & Hrun);
    rewrite (advance_mono _ _ _ _ _ _ _ Hle Hadv); cbn.
  - done.
  - by apply IH.
Qed.

Lemma random_level_loop_mono ml draws : ∀ fuel fuel' lvl r,
  (fuel ≤ fuel')%nat →
  random_level_loop fuel ml draws lvl = Ret r →
  random_level_loop fuel' ml draws lvl = Ret r.
Proof.
  induction fuel as [|fuel IH]; intros fuel' lvl r Hle; cbn.
  - destruct fuel'; cbn; by destruct (draws lvl && bool_decide (lvl < ml)%nat).
  - destruct fuel' as [|fuel']; [lia|]. cbn.
    destruct (draws lvl && bool_decide (lvl < ml)%nat); [|done].
    apply IH. lia.
Qed.

Lemma insert_mono fuel fuel' sl key draws sl' :
  (fuel ≤ fuel')%nat →
  insert fuel sl key draws = Ret sl' → insert fuel' sl key draws = Ret sl'.
Proof.
  intros Hle Hrun. unfold insert in *.
  apply result_bind_Ret in Hrun as ([c update] & Hdesc & Hrun).
  rewrite (descend_mono _ _ _ _ _ _ _ _ Hle Hdesc). cbn.
  apply result_bind_Ret in Hrun as (nl & Hrand & Hrun).
  unfold _random_level in *.
  by rewrite (random_level_loop_mono _ _ _ _ _ _ Hle Hrand).
Qed.

Lemma delete_mono fuel fuel' sl key r :
  (fuel ≤ fuel')%nat →
  delete fuel sl key = Ret r → delete fuel' sl key = Ret r.
Proof.
  intros Hle Hrun. unfold delete in *.
  apply result_bind_Ret in Hrun as ([c update] & Hdesc & Hrun).
  by rewrite (descend_mono _ _ _ _ _ _ _ _ Hle Hdesc).
Qed.

(** ** Every reachable state satisfies the invariant *)

Lemma Inv_init ml : Inv (init ml) [].
Proof.
  constructor; cbn [max_level heap header level size init].
  - done.
  - done.
  - unfold flen. cbn. by rewrite length_replicate.
  - constructor.
  - apply NoDup_singleton.
  - done.
  - lia.
  - constructor.
  - intros i Hi. split; [done|]. unfold fwd, last_or. cbn.
    apply lookup_replicate_2. lia.
  - done.
Qed.

Lemma reachable_Inv sl : reachable sl → ∃ L, Inv sl L.
Proof.
  induction 1 as [ml|sl fuel key draws sl' _ [L HI] Hrun
                    |sl fuel key found sl' _ [L HI] Hrun].
  - exists []. apply Inv_init.
  - set (fuel' := (fuel `max` (length L `max` max_level sl))%nat).
    destruct (insert_spec sl L fuel' key draws HI)
      as (sl2 & A & B & nl & Hrun2 & _ & _ & _ & _ & _ & HI2); [lia..|].
    rewrite (insert_mono fuel fuel' _ _ _ _ ltac:(lia) Hrun) in Hrun2.
    injection Hrun2 as ->. eauto.
  - set (fuel' := (fuel `max` length L)%nat).
    destruct (delete_spec sl L fuel' key HI)
      as (found2 & sl2 & Hrun2 & _ & _ & Hcases); [lia|].
    rewrite (delete_mono fuel fuel' _ _ _ ltac:(lia) Hrun) in Hrun2.
    injection Hrun2 as -> ->.
    destruct found2; [|subst; eauto].
    destruct Hcases as (A & d & B & _ & _ & _ & _ & HI2). eauto.
Qed.

(** ** The claims on the skip list *)

Lemma level0_view sl L :
  Inv sl L →
  ∀ fuel, (Z.to_nat (size sl) ≤ fuel)%nat →
    level0 fuel sl = Ret ((λ e, (e_id e, Int (e_key e))) <$> L).
Proof.
  intros HI fuel Hfuel. apply level0_spec; [done|].
  rewrite (inv_size _ _ HI) in Hfuel. lia.
Qed.

(** C5 (sortedness and size).  In every reachable state, whatever the
    random draws were, walking level 0 from the header returns, meets keys
    in non-decreasing order, and meets as many nodes as the size field
    says. *)
Theorem skiplist_sorted_size (sl : SkipList) :
  reachable sl →
  ∃ (nodes : list (nat * Key)) (ks : list Z),
    (∀ fuel, (Z.to_nat (size sl) ≤ fuel)%nat → level0 fuel sl = Ret nodes) ∧
    nodes.*2 = Int <$> ks ∧
    sorted ks ∧
    Z.of_nat (length nodes) = size sl.
Proof.
  intros [L HI]%reachable_Inv.
  exists ((λ e, (e_id e, Int (e_key e))) <$> L), (e_key <$> L).
  split; [by apply level0_view|]. split.
  - rewrite <- !list_fmap_compose. done.
  - split; [apply HI|]. rewrite length_fmap. symmetry. apply HI.
Qed.

(** C10 (active level).  In every reachable state the active level is at
    most [max_level] (it is a natural number, so at least 0), and above
    the active level every forward pointer of the header is [None]. *)
Theorem skiplist_active_level (sl : SkipList) :
  reachable sl →
  (0 ≤ level sl ≤ max_level sl)%nat ∧
  ∀ i, (level sl < i ≤ max_level sl)%nat →
    get_forward (heap sl) (header sl) i = Ret None.
Proof.
  intros [L HI]%reachable_Inv. split.
  - pose proof (inv_level _ _ HI). lia.
  - intros i Hi. rewrite (inv_header _ _ HI). apply get_forward_Ret.
    pose proof (inv_chain _ _ HI i ltac:(lia)) as [_ Hend].
    by rewrite (ids_at_above i (level sl) L) in Hend by (apply HI || lia).
Qed.

Lemma insert_all_spec fuel draws : ∀ keys sl L k,
  Inv sl L → (length L + length keys ≤ fuel)%nat → (max_level sl ≤ fuel)%nat →
  ∃ sl' L', insert_all fuel sl keys draws k = Ret sl' ∧
    Inv sl' L' ∧ max_level sl' = max_level sl ∧
    e_key <$> L' ≡ₚ keys ++ (e_key <$> L).
Proof.
  induction keys as [|key keys IH]; intros sl L k HI HfuelL Hfuelml; cbn.
  - by exists sl, L.
  - cbn in HfuelL.
    destruct (insert_spec sl L fuel key (draws k) HI)
      as (sl1 & A & B & nl & Hrun & -> & _ & _ & _ & Hml & HI1); [lia..|].
    rewrite Hrun. cbn.
    destruct (IH sl1 _ (S k) HI1) as (sl' & L' & Hrun' & HI' & Hml' & Hperm).
    { rewrite !length_app in HfuelL |- *. cbn. lia. }
    { lia. }
    exists sl', L'. split; [done|]. split; [done|]. split; [congruence|].
    rewrite Hperm, !fmap_app, fmap_cons. cbn [e_key].
    by rewrite <- !Permutation_middle.
Qed.

(** C8 (skip-list concrete scenario).  Whatever the random draws and the
    maximum level, after inserting 3, 6, 7, 9, 12, 19, 17, 26, 21, 25 into a
    fresh list, [search(12)] is true and [search(100)] is false;
    [delete(7)] returns true, after which [search(7)] is false and the size
    is 9; and [delete(100)] returns false. *)
Theorem skiplist_scenario (ml : nat) (draws : nat → nat → bool) (fuel : nat) :
  (10 ≤ fuel)%nat → (ml ≤ fuel)%nat →
  ∃ sl10 sl9 sl9',
    insert_all fuel (init ml) [3; 6; 7; 9; 12; 19; 17; 26; 21; 25] draws 0
      = Ret sl10 ∧
    search fuel sl10 12 = Ret true ∧
    search fuel sl10 100 = Ret false ∧
    delete fuel sl10 7 = Ret (true, sl9) ∧
    search fuel sl9 7 = Ret false ∧
    size sl9 = 9 ∧
    delete fuel sl9 100 = Ret (false, sl9').
Proof.
  intros Hfuel Hml.
  destruct (insert_all_spec fuel draws [3; 6; 7; 9; 12; 19; 17; 26; 21; 25]
              (init ml) [] 0%nat (Inv_init ml))
    as (sl10 & L10 & Hrun & HI10 & Hml10 & Hperm); [cbn; lia..|].
  rewrite app_nil_r in Hperm.
  assert (length L10 = 10%nat) as Hlen10.
  { by rewrite <- (length_fmap e_key), Hperm. }
  destruct (delete_spec sl10 L10 fuel 7 HI10) as (found & sl9 & Hdel & Hfound & Hml9 & Hcase);
    [lia|].
  assert (found = true) as ->.
  { rewrite Hfound. apply bool_decide_eq_true. rewrite Hperm. by apply (bool_decide_unpack _). }
  destruct Hcase as (A & d & B & -> & _ & Hd & _ & HI9).
  assert (e_key <$> A ++ B ≡ₚ [3; 6; 9; 12; 19; 17; 26; 21; 25]) as Hperm9.
  { rewrite fmap_app, fmap_cons, Hd, <- Permutation_middle, <- fmap_app in Hperm.
    apply (Permutation_cons_inv (a := 7)). rewrite Hperm.
    symmetry. exact (Permutation_middle [3; 6] [9; 12; 19; 17; 26; 21; 25] 7). }
  assert (length (A ++ B) = 9%nat) as Hlen9.
  { by rewrite <- (length_fmap e_key), Hperm9. }
  destruct (delete_spec sl9 (A ++ B) fuel 100 HI9) as (found & sl9' & Hdel' & Hfound' & _ & _);
    [lia|].
  assert (found = false) as ->.
  { rewrite Hfound'. apply bool_decide_eq_false. rewrite Hperm9. by apply (bool_decide_unpack _). }
  exists sl10, sl9, sl9'. split; [done|]. split_and!.
  - rewrite (search_spec sl10 _ fuel 12 HI10) by lia. f_equal.
    apply bool_decide_eq_true. rewrite Hperm. by apply (bool_decide_unpack _).
  - rewrite (search_spec sl10 _ fuel 100 HI10) by lia. f_equal.
    apply bool_decide_eq_false. rewrite Hperm. by apply (bool_decide_unpack _).
  - done.
  - rewrite (search_spec sl9 _ fuel 7 HI9) by lia. f_equal.
    apply bool_decide_eq_false. rewrite Hperm9. by apply (bool_decide_unpack _).
  - rewrite (inv_size _ _ HI9). lia.
  - done.
Qed.

(** C2, amended (duplicate ordering).  In every reachable state, [insert]
    returns and places the new node at level 0 immediately after the
    nodes with a strictly smaller key, hence immediately before the
    existing nodes with an equal key: equal keys appear along level 0 in
    the reverse of their insertion order. *)
Theorem skiplist_duplicate_order
    (sl : SkipList) (key : Z) (draws : nat → bool) (fuel : nat) :
  reachable sl →
  (Z.to_nat (size sl) < fuel)%nat → (max_level sl ≤ fuel)%nat →
  ∃ sl' before after,
    insert fuel sl key draws = Ret sl' ∧
    level0 fuel sl = Ret before ∧
    level0 fuel sl' = Ret after ∧
    lands_before_equals before after (length (heap sl)) key.
Proof.
  intros [L HI]%reachable_Inv HfuelL Hfuelml.
  pose proof (inv_size _ _ HI) as Hsize.
  destruct (insert_spec sl L fuel key draws HI)
    as (sl' & A & B & nl & Hrun & -> & HA & HB & _ & _ & HI'); [lia..|].
  eexists sl', _, _. split; [done|].
  rewrite length_app in Hsize.
  split; [apply (level0_spec _ _ _ HI); rewrite length_app; lia|].
  split; [apply (level0_spec _ _ _ HI'); rewrite length_app; cbn; lia|].
  exists ((λ e, (e_id e, Int (e_key e))) <$> A),
         ((λ e, (e_id e, Int (e_key e))) <$> B).
  split; [by rewrite fmap_app|]. split_and!.
  - rewrite Forall_fmap. eapply Forall_impl; [exact HA|]. cbn. eauto.
  - rewrite Forall_fmap. eapply Forall_impl; [exact HB|]. cbn. eauto.
  - by rewrite fmap_app, fmap_cons.
Qed.

Lemma skiplist_sorted_size_witness :
  ∃ sl1, insert 2 (init 2) 5 (λ _, true) = Ret sl1 ∧
    ∃ (nodes : list (nat * Key)) (ks : list Z),
      (∀ fuel, (Z.to_nat (size sl1) ≤ fuel)%nat → level0 fuel sl1 = Ret nodes) ∧
      nodes.*2 = Int <$> ks ∧
      sorted ks ∧
      Z.of_nat (length nodes) = size sl1.
Proof.
  eexists. split; [vm_compute; reflexivity|].
  apply skiplist_sorted_size.
  apply (reachable_insert (init 2) 2 5 (λ _, true)); [apply reachable_init|].
  vm_compute; reflexivity.
Defined.

Lemma skiplist_active_level_witness :
  ∃ sl1, insert 2 (init 2) 5 (λ l, bool_decide (l < 1)%nat) = Ret sl1 ∧
    (0 ≤ level sl1 ≤ max_level sl1)%nat ∧
    ∀ i, (level sl1 < i ≤ max_level sl1)%nat →
      get_forward (heap sl1) (header sl1) i = Ret None.
Proof.
  eexists. split; [vm_compute; reflexivity|].
  apply skiplist_active_level.
  apply (reachable_insert (init 2) 2 5 (λ l, bool_decide (l < 1)%nat));
    [apply reachable_init|].
  vm_compute; reflexivity.
Defined.

Lemma skiplist_scenario_witness :
  ∃ sl10 sl9 sl9',
    insert_all 16 (init 16) [3; 6; 7; 9; 12; 19; 17; 26; 21; 25]
      (λ k l, bool_decide (l < k `mod` 3)%nat) 0 = Ret sl10 ∧
    search 16 sl10 12 = Ret true ∧
    search 16 sl10 100 = Ret false ∧
    delete 16 sl10 7 = Ret (true, sl9) ∧
    search 16 sl9 7 = Ret false ∧
    size sl9 = 9 ∧
    delete 16 sl9 100 = Ret (false, sl9').
Proof.
  apply (skiplist_scenario 16 (λ k l, bool_decide (l < k `mod` 3)%nat) 16); lia.
Defined.

Lemma skiplist_duplicate_order_witness :
  ∃ sl1, insert 3 (init 2) 5 (λ _, false) = Ret sl1 ∧
    ∃ sl' before after,
      insert 3 sl1 5 (λ _, true) = Ret sl' ∧
      level0 3 sl1 = Ret before ∧
      level0 3 sl' = Ret after ∧
      lands_before_equals before after (length (heap sl1)) 5.
Proof.
  eexists. split; [vm_compute; reflexivity|].
  apply skiplist_duplicate_order.
  - apply (reachable_insert (init 2) 3 5 (λ _, false)); [apply reachable_init|].
    vm_compute; reflexivity.
  - cbn. lia.
  - cbn. lia.
Defined.

(** C2 as stated fails: after [insert(5)] twice, the second node (reference
    2) comes first at level 0, before the first node (reference 1) that
    holds the equal key. *)
Lemma skiplist_duplicate_order_counterexample :
  ∃ sl1 sl2,
    insert 2 (init 16) 5 (λ _, false) = Ret sl1 ∧
    reachable sl1 ∧
    level0 2 sl1 = Ret [(1%nat, Int 5)] ∧
    insert 2 sl1 5 (λ _, false) = Ret sl2 ∧
    level0 2 sl2 = Ret [(2%nat, Int 5); (1%nat, Int 5)] ∧
    ¬ lands_after_equals [(1%nat, Int 5)] [(2%nat, Int 5); (1%nat, Int 5)]
        (length (heap sl1)) 5.
Proof.
  eexists _, _. split; [vm_compute; reflexivity|]. split.
  { apply (reachable_insert (init 16) 2 5 (λ _, false)); [apply reachable_init|].
    vm_compute; reflexivity. }
  split; [vm_compute; reflexivity|]. split; [vm_compute; reflexivity|].
  split; [vm_compute; reflexivity|].
  intros (l1 & l2 & Hbefore & Hl1 & Hl2 & Hafter).
  destruct l1 as [|x l1]; cbn in Hbefore, Hafter.
  - subst l2. apply Forall_cons in Hl2 as [(z & [= <-] & Hz) _]. lia.
  - destruct l1 as [|y l1]; cbn in Hbefore, Hafter; [|discriminate].
    by simplify_eq.
Qed.

End skiplist_proofs.

(** * Termination of the operations *)

Section termination.

(** ** Fenwick tree *)

Lemma fenwick_wf_init n : Fenwick.wf (Fenwick.init n).
Proof. unfold Fenwick.wf. cbn. by rewrite length_replicate. Qed.

Lemma fenwick_update_total fuel ft index delta :
  Fenwick.wf ft → 0 ≤ index → (Z.to_nat (Fenwick.size ft) ≤ fuel)%nat →
  ∃ ft', Fenwick.update fuel ft index delta = Ret ft' ∧
    Fenwick.wf ft' ∧ Fenwick.size ft' = Fenwick.size ft.
Proof.
  intros Hwf Hindex Hfuel.
  destruct (update_loop_spec (Fenwick.size ft) delta fuel (index + 1)
              (Fenwick.tree ft)) as (t' & Hrun & Hlen & _); [lia|lia|done|].
  exists {| Fenwick.size := Fenwick.size ft; Fenwick.tree := t' |}.
  unfold Fenwick.update. rewrite Hrun. cbn. split; [done|]. split; [|done].
  unfold Fenwick.wf in *. cbn. congruence.
Qed.

Lemma fenwick_query_loop_total n t : ∀ fuel q acc,
  length t = Z.to_nat (n + 1) → q ≤ n → (Z.to_nat q ≤ fuel)%nat →
  ∃ v, Fenwick.query_loop fuel t q acc = Ret v.
Proof.
  induction fuel as [|fuel IH]; intros q acc Hlen Hq Hfuel; cbn.
  - exists acc. by rewrite bool_decide_false by lia.
  - case_bool_decide as Hpos; [|by exists acc].
    pose proof (lowbit_bounds q ltac:(lia)) as Hlb.
    rewrite py_pos_nonneg by lia. cbn.
    destruct (lookup_lt_is_Some_2 t (Z.to_nat q)) as [v Hv]; [lia|].
    rewrite (get_item_Some _ _ _ Hv). cbn. apply IH; [done|lia..].
Qed.

Lemma fenwick_query_total fuel ft index :
  Fenwick.wf ft → index < Fenwick.size ft →
  (Z.to_nat (Fenwick.size ft) ≤ fuel)%nat →
  ∃ v, Fenwick.query fuel ft index = Ret v.
Proof.
  intros Hwf Hindex Hfuel. unfold Fenwick.query.
  apply (fenwick_query_loop_total (Fenwick.size ft)); [done|lia..].
Qed.

Lemma fenwick_build_loop_total fuel : ∀ arr ft i,
  Fenwick.wf ft → 0 ≤ i → (Z.to_nat (Fenwick.size ft) ≤ fuel)%nat →
  ∃ ft', Fenwick.build_loop fuel ft i arr = Ret ft' ∧
    Fenwick.wf ft' ∧ Fenwick.size ft' = Fenwick.size ft.
Proof.
  induction arr as [|val arr IH]; intros ft i Hwf Hi Hfuel; cbn.
  - by exists ft.
  - destruct (fenwick_update_total fuel ft i val Hwf Hi Hfuel)
      as (ft1 & Hrun & Hwf1 & Hsize1).
    rewrite Hrun. cbn.
    destruct (IH ft1 (i + 1) Hwf1 ltac:(lia) ltac:(lia))
      as (ft' & Hrun' & Hwf' & Hsize').
    exists ft'. split; [done|]. split; [done|congruence].
Qed.

(** At the 1-based index 0 the loop of [update] never moves: the lowest
    set bit of 0 is 0. *)
Lemma fenwick_update_loop_stuck size delta : ∀ fuel t,
  0 ≤ size → (0 < length t)%nat →
  Fenwick.update_loop fuel size t 0 delta = OutOfFuel.
Proof.
  induction fuel as [|fuel IH]; intros t Hsize Hlen; cbn.
  - by rewrite bool_decide_true by lia.
  - rewrite bool_decide_true by lia.
    destruct (lookup_lt_is_Some_2 t 0) as [v Hv]; [lia|].
    rewrite (add_at_in_range t 0 delta v) by done. cbn.
    apply IH; [done|]. by rewrite length_insert.
Qed.

Lemma fenwick_update_minus_one_stuck fuel :
  Fenwick.update fuel (Fenwick.init 6) (-1) 1 = OutOfFuel.
Proof.
  unfold Fenwick.update. change (-1 + 1) with 0.
  rewrite fenwick_update_loop_stuck; [done|cbn; lia|].
  cbn [Fenwick.tree Fenwick.init]. rewrite length_replicate. lia.
Qed.

(** C3 as stated fails: on a tree of size 6, [update(-1, 1)] neither
    returns nor raises, whatever the fuel: the loop runs for ever. *)
Lemma fenwick_update_negative_diverges :
  ¬ ∃ fuel, Fenwick.update fuel (Fenwick.init 6) (-1) 1 ≠ OutOfFuel.
Proof. intros [fuel Hrun]. apply Hrun, fenwick_update_minus_one_stuck. Qed.

End termination.

(** * Further properties of the Fenwick tree *)

Section fenwick_extra.
Import Fenwick FenwickSpec.

Lemma range_sum_delta_sum ups l r :
  Forall (λ u : Z * Z, 0 ≤ u.1) ups → 0 ≤ l → l - 1 ≤ r →
  range_sum ups l r = delta_sum ups r - delta_sum ups (l - 1).
Proof.
  intros Hups Hl Hlr. induction Hups as [|[i d] ups Hi _ IH]; cbn in *; [done|].
  rewrite IH. repeat case_bool_decide; lia.
Qed.

Lemma cov_sum_range_sum ups j :
  cov_sum ups j = range_sum ups (j - lowbit j) (j - 1).
Proof.
  induction ups as [|[i d] ups IH]; cbn; [done|]. rewrite IH.
  unfold covers. repeat case_bool_decide; lia.
Qed.

Lemma Forall_in_range_nonneg n (ups : list (Z * Z)) :
  Forall (λ u, 0 ≤ u.1 < n) ups → Forall (λ u : Z * Z, 0 ≤ u.1) ups.
Proof. intros H. eapply Forall_impl; [exact H|]. cbn. lia. Qed.

(** X1.  After any in-range updates on a fresh tree, [range_query(l, r)]
    with [0 ≤ l ≤ r < n] returns the sum of the deltas applied at the
    positions [l .. r]; in particular [range_query(i, i)] is the current
    value at position [i]. *)
Theorem fenwick_range_query_sum
    (n : Z) (ups : list (Z * Z)) (fuel : nat) (l r : Z) :
  Forall (λ u, 0 ≤ u.1 < n) ups → (Z.to_nat n ≤ fuel)%nat →
  0 ≤ l ≤ r → r < n →
  ∃ ft, run_updates fuel (init n) ups = Ret ft ∧
    range_query fuel ft l r = Ret (range_sum ups l r).
Proof.
  intros Hups Hfuel Hl Hr.
  pose proof (Forall_in_range_nonneg n ups Hups) as Hnonneg.
  destruct (run_updates_spec n fuel ups [] (init n))
    as (ft & Hrun & Hsize & Hinv); [done|apply fen_inv_init; lia|done..|].
  cbn in Hinv. exists ft. split; [done|].
  assert (∀ i, -1 ≤ i < n → query fuel ft i = Ret (delta_sum ups i)) as Hq.
  { intros i Hi. by apply (query_spec n). }
  unfold range_query. case_bool_decide.
  - rewrite !Hq by lia. cbn. f_equal.
    by rewrite range_sum_delta_sum by (done || lia).
  - rewrite Hq by lia. f_equal.
    rewrite range_sum_delta_sum by (done || lia).
    replace l with 0 by lia. rewrite (delta_sum_below ups (0 - 1)) by (done || lia).
    lia.
Qed.

Lemma fenwick_range_query_sum_witness :
  ∃ ft, run_updates 4 (init 4) [(0, 5); (2, -3); (3, 7); (2, 1)] = Ret ft ∧
    range_query 4 ft 1 2 = Ret (range_sum [(0, 5); (2, -3); (3, 7); (2, 1)] 1 2).
Proof.
  apply (fenwick_range_query_sum 4 [(0, 5); (2, -3); (3, 7); (2, 1)] 4 1 2).
  - repeat constructor; cbn; lia.
  - cbn. lia.
  - lia.
  - lia.
Defined.

(** X2.  The cells after any in-range updates on a fresh tree: cell 0 is
    never written and stays 0, and the cell at the 1-based position [j]
    holds the sum of the deltas applied at the [lowbit j] positions that
    end at [j], that is the 0-based positions [j - lowbit j .. j - 1]. *)
Theorem fenwick_cell_invariant
    (n : Z) (ups : list (Z * Z)) (fuel : nat) :
  0 ≤ n → Forall (λ u, 0 ≤ u.1 < n) ups → (Z.to_nat n ≤ fuel)%nat →
  ∃ ft, run_updates fuel (init n) ups = Ret ft ∧
    size ft = n ∧
    length (tree ft) = Z.to_nat (n + 1) ∧
    tree ft !! 0%nat = Some 0 ∧
    ∀ j, 1 ≤ j ≤ n →
      tree ft !! Z.to_nat j = Some (range_sum ups (j - lowbit j) (j - 1)).
Proof.
  intros Hn Hups Hfuel.
  pose proof (Forall_in_range_nonneg n ups Hups) as Hnonneg.
  destruct (run_updates_spec n fuel ups [] (init n))
    as (ft & Hrun & Hsize & [Hlen Hcells]); [done|apply fen_inv_init; lia|done..|].
  cbn in Hcells. exists ft. split; [done|]. split; [done|]. split; [done|].
  split.
  - change 0%nat with (Z.to_nat 0). rewrite (Hcells 0 ltac:(lia)). f_equal.
    rewrite cov_sum_range_sum. clear -Hnonneg.
    induction Hnonneg as [|[i d] ups Hi _ IH]; cbn in *; [done|].
    rewrite IH. rewrite bool_decide_false; [done|].
    change (lowbit 0) with 0. lia.
  - intros j Hj. rewrite (Hcells j ltac:(lia)). by rewrite cov_sum_range_sum.
Qed.

Lemma fenwick_cell_invariant_witness :
  ∃ ft, run_updates 4 (init 4) [(0, 5); (2, -3); (3, 7)] = Ret ft ∧
    size ft = 4 ∧
    length (tree ft) = Z.to_nat (4 + 1) ∧
    tree ft !! 0%nat = Some 0 ∧
    ∀ j, 1 ≤ j ≤ 4 →
      tree ft !! Z.to_nat j =
      Some (range_sum [(0, 5); (2, -3); (3, 7)] (j - lowbit j) (j - 1)).
Proof.
  apply (fenwick_cell_invariant 4 [(0, 5); (2, -3); (3, 7)] 4).
  - lia.
  - repeat constructor; cbn; lia.
  - cbn. lia.
Defined.

(** ** How updates compose *)

Lemma fenwick_update_cells fuel ft index delta :
  wf ft → 0 ≤ index → (Z.to_nat (size ft) ≤ fuel)%nat →
  ∃ ft', update fuel ft index delta = Ret ft' ∧
    size ft' = size ft ∧ wf ft' ∧
    ∀ j v, 0 ≤ j ≤ size ft → tree ft !! Z.to_nat j = Some v →
      tree ft' !! Z.to_nat j =
      Some (v + if bool_decide (covers j (index + 1)) then delta else 0).
Proof.
  intros Hwf Hindex Hfuel.
  destruct (update_loop_spec (size ft) delta fuel (index + 1) (tree ft))
    as (t' & Hrun & Hlen & Hcells); [lia|lia|done|].
  exists {| size := size ft; tree := t' |}.
  unfold update. rewrite Hrun. cbn. split; [done|]. split; [done|].
  split; [|done]. unfold wf in *. cbn. congruence.
Qed.

Lemma fenwick_tree_ext ft1 ft2 :
  wf ft1 → wf ft2 → size ft1 = size ft2 →
  (∀ j, 0 ≤ j ≤ size ft1 → tree ft1 !! Z.to_nat j = tree ft2 !! Z.to_nat j) →
  ft1 = ft2.
Proof.
  destruct ft1 as [n t1], ft2 as [n2 t2]. unfold wf. cbn.
  intros Hlen1 Hlen2 <- Hcells. f_equal. apply list_eq. intros i.
  destruct (decide (i < length t1)%nat) as [Hi|Hi].
  - rewrite <- (Nat2Z.id i). apply Hcells. lia.
  - rewrite !lookup_ge_None_2 by lia. done.
Qed.

(** X3.  [update(index, delta)] followed by [update(index, -delta)] gives
    back the tree it started from, cell for cell. *)
Theorem fenwick_update_inverse
    (fuel : nat) (ft : FenwickTree) (index delta : Z) :
  wf ft → 0 ≤ index → (Z.to_nat (size ft) ≤ fuel)%nat →
  ∃ ft1, update fuel ft index delta = Ret ft1 ∧
    update fuel ft1 index (- delta) = Ret ft.
Proof.
  intros Hwf Hindex Hfuel.
  destruct (fenwick_update_cells fuel ft index delta Hwf Hindex Hfuel)
    as (ft1 & Hrun1 & Hsize1 & Hwf1 & Hcells1).
  destruct (fenwick_update_cells fuel ft1 index (- delta) Hwf1 Hindex)
    as (ft2 & Hrun2 & Hsize2 & Hwf2 & Hcells2); [lia|].
  exists ft1. split; [done|]. rewrite Hrun2. f_equal.
  apply fenwick_tree_ext; [done|done|congruence|].
  intros j Hj.
  destruct (lookup_lt_is_Some_2 (tree ft) (Z.to_nat j)) as [v Hv].
  { unfold wf in Hwf. lia. }
  rewrite (Hcells2 j _ ltac:(lia) (Hcells1 j v ltac:(lia) Hv)), Hv.
  f_equal. case_bool_decide; lia.
Qed.

Lemma fenwick_update_inverse_witness :
  ∃ ft1, update 4 (init 4) 1 7 = Ret ft1 ∧ update 4 ft1 1 (- 7) = Ret (init 4).
Proof.
  apply (fenwick_update_inverse 4 (init 4) 1 7).
  - apply fenwick_wf_init.
  - lia.
  - cbn. lia.
Defined.

(** X4.  Two updates commute: applying them in either order gives the
    same tree. *)
Theorem fenwick_update_commute
    (fuel : nat) (ft : FenwickTree) (i d j e : Z) :
  wf ft → 0 ≤ i → 0 ≤ j → (Z.to_nat (size ft) ≤ fuel)%nat →
  ∃ ft1 ft2 ft',
    update fuel ft i d = Ret ft1 ∧ update fuel ft1 j e = Ret ft' ∧
    update fuel ft j e = Ret ft2 ∧ update fuel ft2 i d = Ret ft'.
Proof.
  intros Hwf Hi Hj Hfuel.
  destruct (fenwick_update_cells fuel ft i d Hwf Hi Hfuel)
    as (ft1 & Hrun1 & Hsize1 & Hwf1 & Hcells1).
  destruct (fenwick_update_cells fuel ft1 j e Hwf1 Hj)
    as (ft' & Hrun' & Hsize' & Hwf' & Hcells'); [lia|].
  destruct (fenwick_update_cells fuel ft j e Hwf Hj Hfuel)
    as (ft2 & Hrun2 & Hsize2 & Hwf2 & Hcells2).
  destruct (fenwick_update_cells fuel ft2 i d Hwf2 Hi)
    as (ft'' & Hrun'' & Hsize'' & Hwf'' & Hcells''); [lia|].
  exists ft1, ft2, ft'. split; [done|]. split; [done|]. split; [done|].
  rewrite Hrun''. f_equal.
  apply fenwick_tree_ext; [done|done|congruence|].
  intros k Hk.
  destruct (lookup_lt_is_Some_2 (tree ft) (Z.to_nat k)) as [v Hv].
  { unfold wf in Hwf. lia. }
  rewrite (Hcells'' k _ ltac:(lia) (Hcells2 k v ltac:(lia) Hv)).
  rewrite (Hcells' k _ ltac:(lia) (Hcells1 k v ltac:(lia) Hv)).
  f_equal. lia.
Qed.

Lemma fenwick_update_commute_witness :
  ∃ ft1 ft2 ft',
    update 4 (init 4) 1 7 = Ret ft1 ∧ update 4 ft1 3 (-2) = Ret ft' ∧
    update 4 (init 4) 3 (-2) = Ret ft2 ∧ update 4 ft2 1 7 = Ret ft'.
Proof.
  apply (fenwick_update_commute 4 (init 4) 1 7 3 (-2)).
  - apply fenwick_wf_init.
  - lia.
  - lia.
  - cbn. lia.
Defined.

(** ** Indices outside the tree *)

Lemma lowbit_opp x : lowbit (- x) = lowbit x.
Proof. unfold lowbit. by rewrite Z.opp_involutive, Z.land_comm. Qed.

Lemma lowbit_bounds_neg x : x < 0 → 0 < lowbit x ≤ - x.
Proof. intros Hx. rewrite <- lowbit_opp. apply lowbit_bounds. lia. Qed.

Lemma add_at_from_end (t : list Z) (j d : Z) :
  - Z.of_nat (length t) ≤ j < 0 →
  ∃ t', add_at t j d = Ret t' ∧ length t' = length t.
Proof.
  intros Hj. unfold add_at, py_pos.
  rewrite bool_decide_false by lia. rewrite bool_decide_true by lia. cbn.
  destruct (lookup_lt_is_Some_2 t (Z.to_nat (Z.of_nat (length t) + j)))
    as [v Hv]; [lia|].
  rewrite (get_item_Some _ _ _ Hv). cbn.
  rewrite set_item_lt by lia. eexists. split; [done|]. by rewrite length_insert.
Qed.

Lemma update_loop_nonpositive size d : ∀ fuel t j,
  0 ≤ size → - Z.of_nat (length t) ≤ j ≤ 0 → (0 < length t)%nat →
  update_loop fuel size t j d = OutOfFuel.
Proof.
  induction fuel as [|fuel IH]; intros t j Hsize Hj Hlen; cbn;
    rewrite bool_decide_true by lia; [done|].
  destruct (decide (j = 0)) as [->|Hne].
  - destruct (lookup_lt_is_Some_2 t 0) as [v Hv]; [lia|].
    rewrite (add_at_in_range t 0 d v) by done. cbn.
    change (0 + lowbit 0) with 0.
    apply IH; [done|rewrite length_insert; lia|by rewrite length_insert].
  - destruct (add_at_from_end t j d ltac:(lia)) as (t' & Hadd & Hlen').
    rewrite Hadd. cbn. pose proof (lowbit_bounds_neg j ltac:(lia)).
    apply IH; [done|lia|lia].
Qed.

(** X5.  On a tree of size [≥ 0], [update] with a negative index never
    returns normally: when the index reaches into the array from its end
    ([index ≥ -size - 2]) the loop walks up to the 1-based index 0 and stays
    there for ever; below that the first subscript raises [IndexError]. *)
Theorem fenwick_update_negative
    (fuel : nat) (ft : FenwickTree) (index delta : Z) :
  wf ft → 0 ≤ size ft → index < 0 →
  (- size ft - 2 ≤ index → update fuel ft index delta = OutOfFuel) ∧
  (index < - size ft - 2 → (1 ≤ fuel)%nat →
     update fuel ft index delta = Raise IndexError).
Proof.
  intros Hwf Hsize Hindex. unfold wf in Hwf. unfold update. split.
  - intros Hlow. rewrite update_loop_nonpositive; [done|done|lia|lia].
  - intros Hlow Hfuel. destruct fuel as [|fuel]; [lia|]. cbn.
    rewrite bool_decide_true by lia.
    unfold add_at, py_pos. by rewrite !bool_decide_false by lia.
Qed.

Lemma fenwick_update_negative_witness :
  update 9 (init 4) (-3) 1 = OutOfFuel ∧
  update 9 (init 4) (-7) 1 = Raise IndexError.
Proof.
  split.
  - apply (fenwick_update_negative 9 (init 4) (-3) 1);
      [apply fenwick_wf_init|cbn; lia|lia|cbn; lia].
  - apply (fenwick_update_negative 9 (init 4) (-7) 1);
      [apply fenwick_wf_init|cbn; lia|lia|cbn; lia|lia].
Defined.

(** X6.  [query] with a negative index returns 0 without reading the
    tree; with an index at or beyond the size it raises [IndexError] on
    its first subscript. *)
Theorem fenwick_query_out_of_range
    (fuel : nat) (ft : FenwickTree) (index : Z) :
  wf ft →
  (index < 0 → query fuel ft index = Ret 0) ∧
  (0 ≤ index → size ft ≤ index → (1 ≤ fuel)%nat →
     query fuel ft index = Raise IndexError).
Proof.
  intros Hwf. unfold wf in Hwf. unfold query. split.
  - intros Hindex. destruct fuel; cbn; by rewrite bool_decide_false by lia.
  - intros Hindex Hsize Hfuel. destruct fuel as [|fuel]; [lia|]. cbn.
    rewrite bool_decide_true by lia.
    unfold py_pos. by rewrite !bool_decide_false by lia.
Qed.

Lemma fenwick_query_out_of_range_witness :
  query 1 (init 4) (-1) = Ret 0 ∧
  query 1 (init 4) 4 = Raise IndexError.
Proof.
  split.
  - apply (fenwick_query_out_of_range 1 (init 4) (-1));
      [apply fenwick_wf_init|lia].
  - apply (fenwick_query_out_of_range 1 (init 4) 4);
      [apply fenwick_wf_init|lia|cbn; lia|lia].
Defined.

(** ** Arrays longer than the tree *)

Lemma build_loop_beyond fuel : ∀ arr ft i,
  size ft ≤ i → build_loop fuel ft i arr = Ret ft.
Proof.
  induction arr as [|val arr IH]; intros ft i Hi; cbn; [done|].
  assert (update fuel ft i val = Ret ft) as ->.
  { unfold update. destruct fuel; cbn; rewrite bool_decide_false by lia;
      by destruct ft. }
  cbn. apply IH. lia.
Qed.

Lemma update_size fuel ft index delta ft' :
  update fuel ft index delta = Ret ft' → size ft' = size ft.
Proof.
  unfold update.
  destruct (update_loop fuel (size ft) (tree ft) (index + 1) delta); cbn;
    [|done..].
  by intros [= <-].
Qed.

Lemma build_loop_app fuel : ∀ arr1 arr2 ft i,
  build_loop fuel ft i (arr1 ++ arr2) =
  ft' ← build_loop fuel ft i arr1;
  build_loop fuel ft' (i + Z.of_nat (length arr1)) arr2.
Proof.
  induction arr1 as [|val arr1 IH]; intros arr2 ft i.
  - cbn. by rewrite Z.add_0_r.
  - replace (i + Z.of_nat (length (val :: arr1)))
      with (i + 1 + Z.of_nat (length arr1)) by (cbn [length]; lia).
    cbn. destruct (update fuel ft i val) as [ft1| |]; cbn; [|done..].
    apply IH.
Qed.

Lemma build_loop_size fuel : ∀ arr ft i ft',
  build_loop fuel ft i arr = Ret ft' → size ft' = size ft.
Proof.
  induction arr as [|val arr IH]; intros ft i ft'; cbn.
  - by intros [= <-].
  - destruct (update fuel ft i val) as [ft1| |] eqn:Hup; cbn; [|done..].
    intros Hrun. rewrite (IH _ _ _ Hrun). by eapply update_size.
Qed.

(** X7.  [build_from_array] silently ignores the elements of the array at
    positions at or beyond the size of the tree. *)
Theorem fenwick_build_ignores_excess
    (fuel : nat) (ft : FenwickTree) (arr1 arr2 : list Z) :
  size ft ≤ Z.of_nat (length arr1) →
  build_from_array fuel ft (arr1 ++ arr2) = build_from_array fuel ft arr1.
Proof.
  intros Hlen. unfold build_from_array. rewrite build_loop_app.
  destruct (build_loop fuel ft 0 arr1) as [ft'| |] eqn:Hrun; cbn; [|done..].
  apply build_loop_beyond. rewrite (build_loop_size _ _ _ _ _ Hrun). lia.
Qed.

Lemma fenwick_build_ignores_excess_witness :
  build_from_array 3 (init 3) ([1; 2; 3] ++ [4; 5]) =
  build_from_array 3 (init 3) [1; 2; 3].
Proof. apply (fenwick_build_ignores_excess 3 (init 3) [1; 2; 3] [4; 5]). cbn. lia. Defined.

End fenwick_extra.

(** * Further properties of the trie *)

Section trie_extra.
Import Trie.

(** ** Prefixes *)

Lemma insert_node_cons c word node :
  insert_node (String c word) node =
  let child := default new_node (dict_get c (children node)) in
  (Node (is_end node) (dict_set c (insert_node word child).1 (children node)),
   (insert_node word child).2).
Proof.
  cbn. by destruct (insert_node word (default new_node (dict_get c (children node)))).
Qed.

Lemma find_node_insert_node prefix : ∀ word node,
  is_Some (find_node prefix node) →
  is_Some (find_node prefix (insert_node word node).1).
Proof.
  induction prefix as [|c prefix IH]; intros word node Hfind; [by eexists|].
  cbn in Hfind.
  destruct (dict_get c (children node)) as [child|] eqn:Hget; [|by destruct Hfind].
  destruct word as [|c' word]; cbn.
  - by rewrite Hget.
  - destruct (insert_node word (default new_node (dict_get c' (children node))))
      as [child' fresh] eqn:Hins. cbn.
    destruct (decide (c' = c)) as [->|Hne].
    + rewrite dict_get_set_eq. rewrite Hget in Hins. cbn in Hins.
      replace child' with (insert_node word child).1 by by rewrite Hins.
      by apply IH.
    + rewrite dict_get_set_ne by done. by rewrite Hget.
Qed.

Lemma find_node_delete_node prefix : ∀ word node node',
  delete_node word node = Some node' →
  is_Some (find_node prefix node) → is_Some (find_node prefix node').
Proof.
  induction prefix as [|c prefix IH]; intros word node node' Hdel Hfind;
    [by eexists|].
  cbn in Hfind.
  destruct (dict_get c (children node)) as [child|] eqn:Hget; [|by destruct Hfind].
  destruct word as [|c' word]; cbn in Hdel.
  - destruct (is_end node); [|done]. simplify_eq. cbn. by rewrite Hget.
  - destruct (dict_get c' (children node)) as [child1|] eqn:Hget1; [|done].
    destruct (delete_node word child1) as [child1'|] eqn:Hdel1; [|done].
    simplify_eq. cbn.
    destruct (decide (c' = c)) as [->|Hne].
    + rewrite dict_get_set_eq. rewrite Hget1 in Hget. injection Hget as ->.
      by apply (IH word child).
    + rewrite dict_get_set_ne by done. by rewrite Hget.
Qed.

Lemma find_node_insert_prefix prefix : ∀ rest node,
  is_Some (find_node prefix (insert_node (prefix +:+ rest) node).1).
Proof.
  induction prefix as [|c prefix IH]; intros rest node; [by eexists|].
  change (String c prefix +:+ rest) with (String c (prefix +:+ rest)).
  rewrite insert_node_cons. cbn. rewrite dict_get_set_eq. apply IH.
Qed.

Lemma find_node_search prefix : ∀ rest node,
  search_node (prefix +:+ rest) node = true → is_Some (find_node prefix node).
Proof.
  induction prefix as [|c prefix IH]; intros rest node Hsearch; [by eexists|].
  change (String c prefix +:+ rest) with (String c (prefix +:+ rest)) in Hsearch.
  cbn in *. destruct (dict_get c (children node)); [by eapply IH|done].
Qed.

Lemma starts_with_is_Some t prefix :
  starts_with t prefix = true ↔ is_Some (find_node prefix (root t)).
Proof.
  unfold starts_with. by destruct (find_node prefix (root t)); split.
Qed.

Lemma starts_with_step t o prefix :
  starts_with t prefix = true → starts_with (step t o) prefix = true.
Proof.
  rewrite !starts_with_is_Some. intros Hfind.
  destruct o as [w|w| | |]; cbn; try done.
  - unfold insert. pose proof (find_node_insert_node prefix w (root t) Hfind).
    by destruct (insert_node w (root t)).
  - unfold delete. destruct (delete_node w (root t)) eqn:Hdel; cbn; [|done].
    by eapply find_node_delete_node.
Qed.

(** X8.  Prefix consistency: every prefix of an inserted or stored word
    satisfies [starts_with], and it keeps doing so whatever is inserted
    or deleted afterwards, since [delete] never removes a node. *)
Theorem trie_prefix_consistency (t : Trie) (prefix rest : string) :
  starts_with (insert t (prefix +:+ rest)) prefix = true ∧
  (search t (prefix +:+ rest) = true → starts_with t prefix = true) ∧
  (starts_with t prefix = true →
     ∀ ops, starts_with (foldl step t ops) prefix = true).
Proof.
  split_and!.
  - apply starts_with_is_Some. unfold insert.
    pose proof (find_node_insert_prefix prefix rest (root t)).
    by destruct (insert_node (prefix +:+ rest) (root t)).
  - intros Hsearch. apply starts_with_is_Some. by eapply find_node_search.
  - intros Hstart ops. revert t Hstart.
    induction ops as [|o ops IH]; intros t Hstart; cbn; [done|].
    by apply IH, starts_with_step.
Qed.

Lemma trie_prefix_consistency_witness :
  let t := insert init "help" in
  starts_with (insert t ("he" +:+ "ap")) "he" = true ∧
  starts_with t "he" = true ∧
  starts_with (foldl step t [Delete "help"; Insert "a"; Delete "he"]) "he" = true.
Proof.
  intros t. destruct (trie_prefix_consistency t "he" "lp") as (_ & Hsearch & Hops).
  destruct (trie_prefix_consistency t "he" "ap") as (Hins & _ & _).
  split; [exact Hins|].
  split; [apply Hsearch; reflexivity|].
  apply Hops, Hsearch. reflexivity.
Defined.

(** ** Counting words *)

Lemma insert_node_fresh word : ∀ node,
  (insert_node word node).2 = negb (search_node word node).
Proof.
  induction word as [|c word IH]; intros node; cbn; [done|].
  specialize (IH (default new_node (dict_get c (children node)))).
  destruct (insert_node word (default new_node (dict_get c (children node))))
    as [child' fresh]. cbn in *. rewrite IH.
  destruct (dict_get c (children node)); cbn; [done|].
  by rewrite search_new_node.
Qed.

(** X9.  [delete] reports whether the word was stored, and a failed
    [delete] changes nothing; the word count goes up by one exactly when
    [insert] adds a word that was not stored, and down by one exactly
    when [delete] removes one. *)
Theorem trie_word_count (t : Trie) (word : string) :
  (delete t word).1 = search t word ∧
  (search t word = false → (delete t word).2 = t) ∧
  word_count (insert t word) =
    word_count t + (if search t word then 0 else 1) ∧
  word_count (delete t word).2 =
    word_count t - (if search t word then 1 else 0).
Proof.
  pose proof (delete_node_None word (root t)) as Hnone.
  pose proof (insert_node_fresh word (root t)) as Hfresh.
  unfold delete, insert, search in *.
  destruct (insert_node word (root t)) as [root' fresh]. cbn in Hfresh.
  destruct (delete_node word (root t)) as [root''|]; cbn.
  - destruct (search_node word (root t)) eqn:Hs.
    + subst fresh. cbn. split_and!; [done|done|lia|done].
    + by destruct Hnone as [_ Hnone]; specialize (Hnone eq_refl).
  - destruct Hnone as [Hnone _]. rewrite (Hnone eq_refl) in *. subst fresh.
    cbn. split_and!; [done|done|done|lia].
Qed.

(** ** Inserting twice *)

Lemma dict_set_set char v v' d :
  dict_set char v (dict_set char v' d) = dict_set char v d.
Proof.
  induction d as [|[c w] d IH]; cbn.
  - by rewrite decide_True.
  - destruct (decide (char = c)) as [->|Hne]; cbn.
    + by rewrite decide_True.
    + by rewrite decide_False, IH.
Qed.

Lemma insert_node_twice word : ∀ node,
  insert_node word (insert_node word node).1 = ((insert_node word node).1, false).
Proof.
  induction word as [|c word IH]; intros node; cbn; [done|].
  specialize (IH (default new_node (dict_get c (children node)))).
  destruct (insert_node word (default new_node (dict_get c (children node))))
    as [child' fresh]. cbn in *.
  rewrite dict_get_set_eq. cbn. rewrite IH. by rewrite dict_set_set.
Qed.

(** X10.  Inserting a word a second time changes neither the tree nor
    the word count. *)
Theorem trie_insert_idempotent (t : Trie) (word : string) :
  insert (insert t word) word = insert t word.
Proof.
  unfold insert. pose proof (insert_node_twice word (root t)) as Htwice.
  destruct (insert_node word (root t)) as [root' fresh]. cbn in *.
  by rewrite Htwice.
Qed.

(** ** Enumerating the words *)

Import TrieSpec.

Lemma TrieNode_nested_ind (P : TrieNode → Prop) :
  (∀ e cs, Forall (λ cv, P cv.2) cs → P (Node e cs)) → ∀ node, P node.
Proof.
  intros HP. fix IH 1. intros [e cs]. apply HP.
  induction cs as [|[c child] cs IHcs]; constructor; [apply IH|apply IHcs].
Qed.

Lemma suffixes_Node e cs :
  suffixes (Node e cs) =
  (if e then [EmptyString] else [])
  ++ (cs ≫= λ cv, String cv.1 <$> suffixes cv.2).
Proof.
  cbn. f_equal. induction cs as [|[c child] cs IH]; [done|].
  cbn. by rewrite IH.
Qed.

Lemma wf_Node e cs :
  wf (Node e cs) ↔ NoDup (cs.*1) ∧ Forall (λ cv, wf cv.2) cs.
Proof.
  cbn. apply and_iff_compat_l.
  induction cs as [|[c child] cs IH]; cbn.
  - split; [by constructor|done].
  - rewrite Forall_cons, IH. done.
Qed.

Lemma append_cons c (s1 s2 : string) :
  String c s1 +:+ s2 = String c (s1 +:+ s2).
Proof. reflexivity. Qed.

Lemma append_nil_r (s : string) : s +:+ "" = s.
Proof. induction s as [|c s IH]; [done|]. by rewrite append_cons, IH. Qed.

Lemma append_snoc_assoc (cur : string) c (s : string) :
  (cur +:+ String c "") +:+ s = cur +:+ String c s.
Proof. induction cur as [|c' cur IH]; [done|]. by rewrite !append_cons, IH. Qed.

Lemma append_inj_r (cur s1 s2 : string) : cur +:+ s1 = cur +:+ s2 → s1 = s2.
Proof.
  induction cur as [|c cur IH]; [done|]. rewrite !append_cons.
  intros [= H]. by apply IH.
Qed.

(** The traversal appends, to what it was given, the words below the node. *)
Lemma dfs_collect_spec : ∀ node cur results,
  _dfs_collect node cur results =
  results ++ (String.append cur <$> suffixes node).
Proof.
  induction node as [e cs IH] using TrieNode_nested_ind. intros cur results.
  rewrite suffixes_Node, fmap_app. cbn [_dfs_collect].
  assert ((if e then results ++ [cur] else results) =
          results ++ (String.append cur <$> (if e then [EmptyString] else [])))
    as ->.
  { destruct e.
    - change (String.append cur <$> [EmptyString]) with [cur +:+ ""].
      by rewrite append_nil_r.
    - change (String.append cur <$> []) with (@nil string).
      by rewrite app_nil_r. }
  rewrite app_assoc.
  generalize (results ++ (String.append cur <$> (if e then [EmptyString] else []))).
  induction IH as [|[c child] cs Hchild _ IHcs]; intros acc.
  - cbn. by rewrite app_nil_r.
  - rewrite bind_cons, fmap_app, app_assoc. rewrite IHcs. f_equal.
    cbn in Hchild. rewrite Hchild. f_equal. cbn.
    rewrite <- list_fmap_compose. apply list_fmap_ext. intros _ s _. cbn.
    apply append_snoc_assoc.
Qed.

Lemma dict_get_elem_of c child cs :
  NoDup (cs.*1) → (c, child) ∈ cs ↔ dict_get c cs = Some child.
Proof.
  induction cs as [|[c0 v0] cs IH]; cbn; intros Hdup.
  - split; [by intros ?%elem_of_nil|done].
  - apply NoDup_cons in Hdup as [Hc0 Hdup]. rewrite elem_of_cons.
    destruct (decide (c = c0)) as [->|Hne].
    + split; [|by intros [= ->]; left].
      intros [[= ->]|Hin]; [done|]. destruct Hc0.
      apply list_elem_of_fmap. by exists (c0, child).
    + rewrite <- IH by done. split; [|by right]. by intros [[= -> ->]|Hin].
Qed.

Lemma suffixes_search : ∀ node s,
  wf node → s ∈ suffixes node ↔ search_node s node = true.
Proof.
  induction node as [e cs IH] using TrieNode_nested_ind. intros s Hwf.
  apply wf_Node in Hwf as [Hdup Hwf].
  rewrite suffixes_Node, elem_of_app, list_elem_of_bind.
  rewrite Forall_forall in IH, Hwf.
  destruct s as [|c s]; cbn.
  - split.
    + intros [He|([c child] & Hin & _)].
      * destruct e; [done|by apply elem_of_nil in He].
      * by apply list_elem_of_fmap in Hin as (? & ? & _).
    + intros ->. left. by left.
  - split.
    + intros [He|([c0 child] & Hin & Hcs)].
      { destruct e; [|by apply elem_of_nil in He].
        by apply list_elem_of_singleton in He. }
      apply list_elem_of_fmap in Hin as (s' & [= -> ->] & Hs'). cbn in Hs'.
      rewrite (proj1 (dict_get_elem_of c0 child cs Hdup) Hcs).
      by apply (IH (c0, child) Hcs s' (Hwf _ Hcs)).
    + destruct (dict_get c cs) as [child|] eqn:Hget; [|done]. intros Hsearch.
      apply dict_get_elem_of in Hget; [|done]. right.
      exists (c, child). split; [|done]. apply list_elem_of_fmap. exists s.
      split; [done|]. by apply (IH (c, child) Hget s (Hwf _ Hget)).
Qed.

Lemma suffixes_NoDup : ∀ node, wf node → NoDup (suffixes node).
Proof.
  induction node as [e cs IH] using TrieNode_nested_ind. intros Hwf.
  apply wf_Node in Hwf as [Hdup Hwf].
  rewrite Forall_forall in IH, Hwf.
  rewrite suffixes_Node. apply NoDup_app. split_and!.
  - destruct e; [apply NoDup_singleton|apply NoDup_nil_2].
  - intros s Hs Hin. destruct e; [|by apply elem_of_nil in Hs].
    apply list_elem_of_singleton in Hs as ->.
    apply list_elem_of_bind in Hin as ([c child] & Hin & _).
    by apply list_elem_of_fmap in Hin as (? & ? & _).
  - apply NoDup_bind.
    + intros [c1 v1] [c2 v2] s H1 H2 Hs1 Hs2.
      apply list_elem_of_fmap in Hs1 as (s1 & -> & _).
      apply list_elem_of_fmap in Hs2 as (s2 & [= -> _] & _). cbn in *.
      f_equal. apply dict_get_elem_of in H1, H2; [|done..]. congruence.
    + intros [c child] Hin. cbn. apply NoDup_fmap_2; [|by apply (IH _ Hin), Hwf].
      by intros s1 s2 [= ->].
    + by apply NoDup_fmap_1 in Hdup.
Qed.

(** ** Reachable tries keep their dictionaries well formed *)

Lemma dict_set_keys c v cs :
  NoDup (cs.*1) → NoDup ((dict_set c v cs).*1).
Proof.
  induction cs as [|[c0 v0] cs IH]; cbn; intros Hdup.
  - apply NoDup_singleton.
  - apply NoDup_cons in Hdup as [Hc0 Hdup].
    destruct (decide (c = c0)) as [->|Hne]; cbn; [by apply NoDup_cons|].
    apply NoDup_cons. split; [|by apply IH].
    intros Hin. apply Hc0. clear -Hin Hne.
    induction cs as [|[c1 v1] cs IH]; cbn in *.
    + apply list_elem_of_singleton in Hin. congruence.
    + destruct (decide (c = c1)) as [->|Hne1]; cbn in *.
      * apply elem_of_cons in Hin as [?|?]; [congruence|by right].
      * apply elem_of_cons in Hin as [->|?]; [by left|right; by apply IH].
Qed.

Lemma dict_set_Forall (P : TrieNode → Prop) c v cs :
  P v → Forall (λ cv, P cv.2) cs → Forall (λ cv, P cv.2) (dict_set c v cs).
Proof.
  intros Hv. induction 1 as [|[c0 v0] cs H0 Hcs IH]; cbn.
  - by constructor.
  - destruct (decide (c = c0)); constructor; done.
Qed.

Lemma dict_get_Forall (P : TrieNode → Prop) c cs child :
  Forall (λ cv, P cv.2) cs → dict_get c cs = Some child → P child.
Proof.
  induction 1 as [|[c0 v0] cs H0 Hcs IH]; cbn; [done|].
  destruct (decide (c = c0)); [by intros [= <-]|done].
Qed.

Lemma wf_new_node : wf new_node.
Proof. cbn. split; [constructor|done]. Qed.

Lemma wf_insert_node word : ∀ node, wf node → wf (insert_node word node).1.
Proof.
  induction word as [|c word IH]; intros [e cs] Hwf.
  - done.
  - rewrite insert_node_cons. cbn [fst children is_end].
    apply wf_Node in Hwf as [Hdup Hwf]. apply wf_Node. split.
    + by apply dict_set_keys.
    + apply dict_set_Forall; [|done]. apply IH.
      destruct (dict_get c cs) as [child|] eqn:Hget; cbn.
      * by eapply (dict_get_Forall wf).
      * apply wf_new_node.
Qed.

Lemma wf_delete_node word : ∀ node node',
  wf node → delete_node word node = Some node' → wf node'.
Proof.
  induction word as [|c word IH]; intros [e cs] node' Hwf; cbn.
  - destruct e; [|done]. by intros [= <-].
  - destruct (dict_get c cs) as [child|] eqn:Hget; [|done].
    destruct (delete_node word child) as [child'|] eqn:Hdel; [|done].
    intros [= <-]. apply wf_Node in Hwf as [Hdup Hwf]. apply wf_Node. split.
    + by apply dict_set_keys.
    + apply dict_set_Forall; [|done]. apply (IH child); [|done].
      by eapply (dict_get_Forall wf).
Qed.

Lemma wf_find_node prefix : ∀ node node',
  wf node → find_node prefix node = Some node' → wf node'.
Proof.
  induction prefix as [|c prefix IH]; intros [e cs] node' Hwf; cbn.
  - by intros [= <-].
  - destruct (dict_get c cs) as [child|] eqn:Hget; [|done].
    apply IH. apply wf_Node in Hwf as [_ Hwf]. by eapply (dict_get_Forall wf).
Qed.

Lemma reachable_wf t : reachable t → wf (root t).
Proof.
  induction 1 as [|t o _ IH]; [apply wf_new_node|].
  destruct o as [w|w| | |]; cbn; try done.
  - unfold insert. pose proof (wf_insert_node w (root t) IH).
    by destruct (insert_node w (root t)).
  - unfold delete. destruct (delete_node w (root t)) eqn:Hdel; cbn; [|done].
    by eapply wf_delete_node.
Qed.

Lemma search_node_append prefix : ∀ rest node,
  search_node (prefix +:+ rest) node =
  match find_node prefix node with
  | Some node' => search_node rest node'
  | None => false
  end.
Proof.
  induction prefix as [|c prefix IH]; intros rest node; [done|].
  rewrite append_cons. cbn. destruct (dict_get c (children node)); [apply IH|done].
Qed.

(** X11.  On every trie built by [insert] and [delete],
    [get_all_words_with_prefix(prefix)] lists exactly the stored words that
    start with [prefix], each of them once. *)
Theorem trie_get_all_words (t : Trie) (prefix : string) :
  reachable t →
  NoDup (get_all_words_with_prefix t prefix) ∧
  ∀ word, word ∈ get_all_words_with_prefix t prefix ↔
    (∃ rest, word = prefix +:+ rest) ∧ search t word = true.
Proof.
  intros Hwf%reachable_wf. unfold get_all_words_with_prefix, search.
  destruct (find_node prefix (root t)) as [node|] eqn:Hfind.
  - pose proof (wf_find_node _ _ _ Hwf Hfind) as Hwf'.
    rewrite dfs_collect_spec, app_nil_l. split.
    + apply NoDup_fmap_2; [|by apply suffixes_NoDup].
      intros s1 s2. apply append_inj_r.
    + intros word. rewrite list_elem_of_fmap. split.
      * intros (rest & -> & Hin). split; [by eexists|].
        rewrite search_node_append, Hfind. by apply suffixes_search.
      * intros [[rest ->] Hsearch]. exists rest. split; [done|].
        rewrite search_node_append, Hfind in Hsearch. by apply suffixes_search.
  - split; [constructor|]. intros word. split; [by intros ?%elem_of_nil|].
    intros [[rest ->] Hsearch]. by rewrite search_node_append, Hfind in Hsearch.
Qed.

Lemma trie_get_all_words_witness :
  let t := foldl step init [Insert "hello"; Insert "help"; Delete "hello"] in
  NoDup (get_all_words_with_prefix t "he") ∧
  ∀ word, word ∈ get_all_words_with_prefix t "he" ↔
    (∃ rest, word = "he" +:+ rest) ∧ search t word = true.
Proof.
  intros t. apply (trie_get_all_words t "he").
  repeat apply reachable_step. apply reachable_init.
Defined.

(** ** The word count is the number of stored words *)

Lemma dict_set_suffixes_length c v cs :
  (length ((dict_set c v cs) ≫= λ cv, String cv.1 <$> suffixes cv.2)
   + length (suffixes (default new_node (dict_get c cs))))%nat =
  (length (cs ≫= λ cv, String cv.1 <$> suffixes cv.2)
   + length (suffixes v))%nat.
Proof.
  induction cs as [|[c0 v0] cs IH]; cbn [dict_set dict_get].
  - cbn. rewrite app_nil_r, length_fmap. lia.
  - destruct (decide (c = c0)) as [->|Hne].
    + rewrite !bind_cons, !length_app, !length_fmap. cbn. lia.
    + rewrite !bind_cons, !length_app. lia.
Qed.

Lemma insert_node_suffixes_length word : ∀ node,
  length (suffixes (insert_node word node).1) =
  (length (suffixes node) + if (insert_node word node).2 then 1 else 0)%nat.
Proof.
  induction word as [|c word IH]; intros [e cs].
  - cbn [insert_node fst snd children is_end]. rewrite !suffixes_Node, !length_app.
    destruct e; cbn; lia.
  - rewrite insert_node_cons. cbn [fst snd children is_end].
    rewrite !suffixes_Node, !length_app.
    pose proof (dict_set_suffixes_length c
      (insert_node word (default new_node (dict_get c cs))).1 cs) as Hlen.
    rewrite IH in Hlen. lia.
Qed.

Lemma delete_node_suffixes_length word : ∀ node node',
  delete_node word node = Some node' →
  length (suffixes node) = S (length (suffixes node')).
Proof.
  induction word as [|c word IH]; intros [e cs] node';
    cbn [delete_node is_end children].
  - destruct e; [|done]. intros [= <-]. rewrite !suffixes_Node, !length_app.
    cbn [length]. lia.
  - destruct (dict_get c cs) as [child|] eqn:Hget; [|done].
    destruct (delete_node word child) as [child'|] eqn:Hdel; [|done].
    intros [= <-]. rewrite !suffixes_Node, !length_app.
    pose proof (dict_set_suffixes_length c child' cs) as Hlen.
    rewrite Hget in Hlen. cbn in Hlen. rewrite (IH _ _ Hdel) in Hlen. lia.
Qed.

Lemma reachable_word_count t :
  reachable t → word_count t = Z.of_nat (length (suffixes (root t))).
Proof.
  induction 1 as [|t o _ IH]; [done|].
  destruct o as [w|w| | |]; cbn; try done.
  - unfold insert. pose proof (insert_node_suffixes_length w (root t)) as Hlen.
    destruct (insert_node w (root t)) as [root' fresh]. cbn in *.
    rewrite Hlen. destruct fresh; lia.
  - unfold delete. destruct (delete_node w (root t)) eqn:Hdel; cbn; [|done].
    rewrite (delete_node_suffixes_length _ _ _ Hdel) in IH. lia.
Qed.

(** X12.  On every trie built by [insert] and [delete], the word count
    is the number of words that [get_all_words_with_prefix("")] lists. *)
Theorem trie_word_count_all (t : Trie) :
  reachable t →
  word_count t = Z.of_nat (length (get_all_words_with_prefix t "")).
Proof.
  intros Hreach. rewrite (reachable_word_count t Hreach).
  unfold get_all_words_with_prefix. cbn [find_node].
  by rewrite dfs_collect_spec, app_nil_l, length_fmap.
Qed.

Lemma trie_word_count_all_witness :
  let t := foldl step init
             [Insert "hello"; Insert "help"; Insert "help"; Delete "hello"] in
  word_count t = Z.of_nat (length (get_all_words_with_prefix t "")).
Proof.
  intros t. apply (trie_word_count_all t).
  repeat apply reachable_step. apply reachable_init.
Defined.

End trie_extra.

(** * Further properties of the skip list *)

Section skiplist_extra.
Import SkipList SkipListSpec.

(** ** The level of a new node *)

Lemma random_level_loop_char ml draws : ∀ fuel lvl,
  (lvl ≤ ml)%nat → (ml - lvl ≤ fuel)%nat →
  ∃ nl, random_level_loop fuel ml draws lvl = Ret nl ∧
    (lvl ≤ nl ≤ ml)%nat ∧
    (∀ k, (lvl ≤ k < nl)%nat → draws k = true) ∧
    ((nl < ml)%nat → draws nl = false).
Proof.
  induction fuel as [|fuel IH]; intros lvl Hlvl Hfuel; cbn.
  - exists lvl. rewrite (bool_decide_false (lvl < ml)%nat) by lia.
    rewrite andb_false_r. repeat split; [lia..|intros; lia|lia].
  - destruct (draws lvl) eqn:Hdraw; cbn.
    + case_bool_decide as Hlt.
      * destruct (IH (lvl + 1)%nat) as (nl & Hrun & Hnl & Htrue & Hfalse); [lia..|].
        exists nl. repeat split; [done|lia..| |done].
        intros k Hk. destruct (decide (k = lvl)) as [->|Hne]; [done|].
        apply Htrue. lia.
      * exists lvl. repeat split; [lia..|intros; lia|lia].
    + exists lvl. repeat split; [lia..|intros; lia|done].
Qed.

(** X13.  [_random_level] returns the number of tests
    [random.random() < self.p] that succeed before the first failure,
    capped at [max_level]. *)
Theorem skiplist_random_level
    (sl : SkipList) (draws : nat → bool) (fuel : nat) :
  (max_level sl ≤ fuel)%nat →
  ∃ nl, _random_level fuel sl draws = Ret nl ∧
    (nl ≤ max_level sl)%nat ∧
    (∀ k, (k < nl)%nat → draws k = true) ∧
    ((nl < max_level sl)%nat → draws nl = false).
Proof.
  intros Hfuel.
  destruct (random_level_loop_char (max_level sl) draws fuel 0)
    as (nl & Hrun & Hnl & Htrue & Hfalse); [lia..|].
  exists nl. repeat split; [done|lia| |done]. intros k Hk. apply Htrue. lia.
Qed.

Lemma skiplist_random_level_witness :
  ∃ nl, _random_level 16 (init 16) (λ k, bool_decide (k < 3)%nat) = Ret nl ∧
    (nl ≤ max_level (init 16))%nat ∧
    (∀ k, (k < nl)%nat → bool_decide (k < 3)%nat = true) ∧
    ((nl < max_level (init 16))%nat → bool_decide (nl < 3)%nat = false).
Proof.
  apply (skiplist_random_level (init 16) (λ k, bool_decide (k < 3)%nat) 16).
  cbn. lia.
Defined.

(** ** [search] and [delete] against the level-0 walk *)

Lemma view_keys L : (view <$> L).*2 = Int <$> (e_key <$> L).
Proof. by rewrite <- !list_fmap_compose. Qed.

Lemma key_in_view key L : Int key ∈ (view <$> L).*2 ↔ key ∈ e_key <$> L.
Proof.
  rewrite view_keys. rewrite (list_elem_of_fmap Int). split.
  - by intros (k & [= ->] & Hk).
  - intros Hk. by exists key.
Qed.

Lemma level0_view_fuel sl L fuel :
  Inv sl L → (Z.to_nat (size sl) ≤ fuel)%nat →
  level0 fuel sl = Ret (view <$> L).
Proof. intros HI Hfuel. by apply (level0_view sl L HI). Qed.

(** X14.  In every reachable state [search(key)] returns whether a node
    met on the level-0 walk holds [key]. *)
Theorem skiplist_search_membership (sl : SkipList) (key : Z) (fuel : nat) :
  reachable sl → (Z.to_nat (size sl) ≤ fuel)%nat →
  ∃ nodes, level0 fuel sl = Ret nodes ∧
    search fuel sl key = Ret (bool_decide (Int key ∈ nodes.*2)).
Proof.
  intros [L HI]%reachable_Inv Hfuel.
  exists (view <$> L). split; [by apply level0_view_fuel|].
  rewrite (search_spec sl L fuel key HI).
  - f_equal. apply bool_decide_ext. by rewrite key_in_view.
  - rewrite (inv_size _ _ HI) in Hfuel. lia.
Qed.

Lemma skiplist_search_membership_witness :
  ∃ sl1 sl2,
    insert 3 (init 2) 5 (λ _, true) = Ret sl1 ∧
    insert 3 sl1 3 (λ _, false) = Ret sl2 ∧
    ∃ nodes, level0 3 sl2 = Ret nodes ∧
      search 3 sl2 5 = Ret (bool_decide (Int 5 ∈ nodes.*2)).
Proof.
  eexists. eexists.
  split; [vm_compute; reflexivity|]. split; [vm_compute; reflexivity|].
  apply (skiplist_search_membership _ 5 3).
  - eapply (reachable_insert _ 3 3 (λ _, false));
      [eapply (reachable_insert (init 2) 3 5 (λ _, true));
         [apply reachable_init|vm_compute; reflexivity]
      |vm_compute; reflexivity].
  - vm_compute. lia.
Defined.

(** X15.  In every reachable state [delete(key)] returns whether the key
    is stored.  When it is not, the list is left as it was; when it is,
    the first node of the level-0 walk that holds the key is unlinked, the
    other nodes keep their order, and the size goes down by one. *)
Theorem skiplist_delete_effect (sl : SkipList) (key : Z) (fuel : nat) :
  reachable sl → (Z.to_nat (size sl) ≤ fuel)%nat →
  ∃ before found sl',
    level0 fuel sl = Ret before ∧
    delete fuel sl key = Ret (found, sl') ∧
    found = bool_decide (Int key ∈ before.*2) ∧
    (found = false → sl' = sl) ∧
    (found = true →
       ∃ l1 d l2, before = l1 ++ (d, Int key) :: l2 ∧
         Forall (λ nk, ∃ z, nk.2 = Int z ∧ z < key) l1 ∧
         level0 fuel sl' = Ret (l1 ++ l2) ∧
         size sl' = size sl - 1 ∧
         max_level sl' = max_level sl).
Proof.
  intros [L HI]%reachable_Inv Hfuel.
  pose proof (inv_size _ _ HI) as Hsize.
  destruct (delete_spec sl L fuel key HI) as (found & sl' & Hrun & Hfound & Hml & Hcase);
    [lia|].
  exists (view <$> L), found, sl'. split; [by apply level0_view_fuel|].
  split; [done|]. split.
  { rewrite Hfound. apply bool_decide_ext. by rewrite key_in_view. }
  split.
  - intros ->. done.
  - intros ->. destruct Hcase as (A & d & B & -> & HA & Hd & HB & HI').
    exists (view <$> A), (e_id d), (view <$> B).
    pose proof (inv_size _ _ HI') as Hsize'.
    rewrite length_app in Hsize, Hsize'. cbn in Hsize.
    split_and!.
    + rewrite fmap_app, fmap_cons. unfold view at 2. by rewrite Hd.
    + rewrite Forall_fmap. eapply Forall_impl; [exact HA|]. cbn. eauto.
    + rewrite <- fmap_app. apply level0_view_fuel; [done|lia].
    + lia.
    + done.
Qed.

Lemma skiplist_delete_effect_witness :
  ∃ sl1 sl2,
    insert 3 (init 2) 5 (λ _, true) = Ret sl1 ∧
    insert 3 sl1 3 (λ _, false) = Ret sl2 ∧
    ∃ before found sl',
      level0 3 sl2 = Ret before ∧
      delete 3 sl2 5 = Ret (found, sl') ∧
      found = bool_decide (Int 5 ∈ before.*2) ∧
      (found = false → sl' = sl2) ∧
      (found = true →
         ∃ l1 d l2, before = l1 ++ (d, Int 5) :: l2 ∧
           Forall (λ nk, ∃ z, nk.2 = Int z ∧ z < 5) l1 ∧
           level0 3 sl' = Ret (l1 ++ l2) ∧
           size sl' = size sl2 - 1 ∧
           max_level sl' = max_level sl2).
Proof.
  eexists. eexists.
  split; [vm_compute; reflexivity|]. split; [vm_compute; reflexivity|].
  apply (skiplist_delete_effect _ 5 3).
  - eapply (reachable_insert _ 3 3 (λ _, false));
      [eapply (reachable_insert (init 2) 3 5 (λ _, true));
         [apply reachable_init|vm_compute; reflexivity]
      |vm_compute; reflexivity].
  - vm_compute. lia.
Defined.

(** ** [insert] followed by [delete] *)

Lemma split_unique {A} (P : A → Prop) : ∀ (l1 l1' l2 l2' : list A) x y,
  l1 ++ x :: l2 = l1' ++ y :: l2' →
  Forall P l1 → ¬ P x → Forall P l1' → ¬ P y →
  l1 = l1' ∧ x = y ∧ l2 = l2'.
Proof.
  induction l1 as [|a l1 IH]; intros [|a' l1'] l2 l2' x y Heq H1 Hx H1' Hy;
    cbn in Heq.
  - by injection Heq as -> ->.
  - injection Heq as -> _. apply Forall_cons in H1' as [Ha _]. done.
  - injection Heq as -> _. apply Forall_cons in H1 as [Ha _]. done.
  - injection Heq as -> Heq.
    apply Forall_cons in H1 as [_ H1]. apply Forall_cons in H1' as [_ H1'].
    destruct (IH _ _ _ _ _ Heq H1 Hx H1' Hy) as (-> & -> & ->). done.
Qed.

(** X16.  In every reachable state, [insert(key)] followed by
    [delete(key)] succeeds and gives back the level-0 walk and the size
    the list had before: the node that [delete] unlinks is the one that
    [insert] has just linked in. *)
Theorem skiplist_insert_delete
    (sl : SkipList) (key : Z) (draws : nat → bool) (fuel : nat) :
  reachable sl →
  (Z.to_nat (size sl) < fuel)%nat → (max_level sl ≤ fuel)%nat →
  ∃ sl1 sl2 nodes,
    insert fuel sl key draws = Ret sl1 ∧
    delete fuel sl1 key = Ret (true, sl2) ∧
    level0 fuel sl = Ret nodes ∧
    level0 fuel sl2 = Ret nodes ∧
    size sl2 = size sl ∧
    max_level sl2 = max_level sl.
Proof.
  intros [L HI]%reachable_Inv Hfuel Hfuelml.
  pose proof (inv_size _ _ HI) as Hsize.
  destruct (insert_spec sl L fuel key draws HI)
    as (sl1 & A & B & nl & Hins & -> & HA & HB & _ & Hml1 & HI1); [lia..|].
  pose proof (inv_size _ _ HI1) as Hsize1.
  rewrite length_app in Hsize, Hsize1. cbn [length] in Hsize1.
  destruct (delete_spec sl1 _ fuel key HI1)
    as (found & sl2 & Hdel & Hfound & Hml2 & Hcase).
  { rewrite length_app. cbn [length]. lia. }
  rewrite bool_decide_true in Hfound; cycle 1.
  { rewrite fmap_app, fmap_cons. apply elem_of_app. right. by left. }
  subst found. destruct Hcase as (A' & d & B' & Heq & HA' & Hd & _ & HI2).
  destruct (split_unique (λ e, e_key e < key) _ _ _ _ _ _ Heq)
    as (<- & <- & <-); [done|cbn; lia|done|lia|].
  pose proof (inv_size _ _ HI2) as Hsize2. rewrite length_app in Hsize2.
  exists sl1, sl2, (view <$> (A ++ B)). split_and!; [done|done| | |lia|congruence].
  - apply level0_view_fuel; [done|lia].
  - apply level0_view_fuel; [done|lia].
Qed.

Lemma skiplist_insert_delete_witness :
  ∃ sl1 sl2,
    insert 3 (init 2) 5 (λ _, true) = Ret sl1 ∧
    insert 3 sl1 3 (λ _, false) = Ret sl2 ∧
    ∃ sl3 sl4 nodes,
      insert 3 sl2 5 (λ _, false) = Ret sl3 ∧
      delete 3 sl3 5 = Ret (true, sl4) ∧
      level0 3 sl2 = Ret nodes ∧
      level0 3 sl4 = Ret nodes ∧
      size sl4 = size sl2 ∧
      max_level sl4 = max_level sl2.
Proof.
  eexists. eexists.
  split; [vm_compute; reflexivity|]. split; [vm_compute; reflexivity|].
  apply (skiplist_insert_delete _ 5 (λ _, false) 3).
  - eapply (reachable_insert _ 3 3 (λ _, false));
      [eapply (reachable_insert (init 2) 3 5 (λ _, true));
         [apply reachable_init|vm_compute; reflexivity]
      |vm_compute; reflexivity].
  - vm_compute. lia.
  - vm_compute. lia.
Defined.

(** X17.  In every reachable state, [insert(key)] makes [search(key)]
    true and [delete(key)] changes no answer of [search] for another key;
    [insert(key)] changes none either. *)
Theorem skiplist_search_frame
    (sl : SkipList) (key key' : Z) (draws : nat → bool) (fuel : nat) :
  reachable sl →
  (Z.to_nat (size sl) < fuel)%nat → (max_level sl ≤ fuel)%nat →
  ∃ sl1 found sl2 b,
    insert fuel sl key draws = Ret sl1 ∧
    delete fuel sl key = Ret (found, sl2) ∧
    search fuel sl key' = Ret b ∧
    search fuel sl1 key' = Ret (bool_decide (key' = key) || b) ∧
    (key' ≠ key → search fuel sl2 key' = Ret b).
Proof.
  intros [L HI]%reachable_Inv Hfuel Hfuelml.
  pose proof (inv_size _ _ HI) as Hsize.
  destruct (insert_spec sl L fuel key draws HI)
    as (sl1 & A & B & nl & Hins & HL & _ & _ & _ & _ & HI1); [lia..|].
  destruct (delete_spec sl L fuel key HI)
    as (found & sl2 & Hdel & _ & _ & Hcase); [lia|].
  exists sl1, found, sl2, (bool_decide (key' ∈ e_key <$> L)).
  split_and!; [done|done| | |].
  - apply search_spec; [done|lia].
  - rewrite (search_spec sl1 _ fuel key' HI1); cycle 1.
    { rewrite length_app. cbn [length]. rewrite HL, length_app in Hsize. lia. }
    f_equal. subst L. rewrite !fmap_app, fmap_cons. cbn [e_key].
    rewrite <- bool_decide_or. apply bool_decide_ext.
    rewrite !elem_of_app, elem_of_cons. tauto.
  - intros Hne. destruct found; [|subst sl2; apply search_spec; [done|lia]].
    destruct Hcase as (A' & d & B' & -> & _ & Hd & _ & HI2).
    rewrite (search_spec sl2 _ fuel key' HI2); cycle 1.
    { rewrite length_app in *. cbn [length] in Hsize. lia. }
    f_equal. apply bool_decide_ext.
    rewrite !fmap_app, fmap_cons, !elem_of_app, elem_of_cons. rewrite Hd. tauto.
Qed.

Lemma skiplist_search_frame_witness :
  ∃ sl1 sl2,
    insert 3 (init 2) 5 (λ _, true) = Ret sl1 ∧
    insert 3 sl1 3 (λ _, false) = Ret sl2 ∧
    ∃ sl3 found sl4 b,
      insert 3 sl2 3 (λ _, false) = Ret sl3 ∧
      delete 3 sl2 3 = Ret (found, sl4) ∧
      search 3 sl2 5 = Ret b ∧
      search 3 sl3 5 = Ret (bool_decide (5 = 3) || b) ∧
      (5 ≠ 3 → search 3 sl4 5 = Ret b).
Proof.
  eexists. eexists.
  split; [vm_compute; reflexivity|]. split; [vm_compute; reflexivity|].
  apply (skiplist_search_frame _ 3 5 (λ _, false) 3).
  - eapply (reachable_insert _ 3 3 (λ _, false));
      [eapply (reachable_insert (init 2) 3 5 (λ _, true));
         [apply reachable_init|vm_compute; reflexivity]
      |vm_compute; reflexivity].
  - vm_compute. lia.
  - vm_compute. lia.
Defined.

(** ** The chains of the upper levels *)

Lemma walk_spec h i : ∀ L fuel c,
  chain h i c (e_id <$> L) → nodes_ok h L → (length L ≤ fuel)%nat →
  walk fuel h i c = Ret (view <$> L).
Proof.
  induction L as [|e L IH]; intros fuel c Hchain Hnodes Hfuel.
  - destruct Hchain as [_ Hend]. cbn in Hend.
    destruct fuel; cbn; by rewrite (proj2 (get_forward_Ret _ _ _ _) Hend).
  - rewrite fmap_cons in Hchain. apply chain_cons in Hchain as [Hc Hchain].
    apply Forall_cons in Hnodes as [[Hk _] Hnodes].
    destruct fuel as [|fuel]; [cbn in Hfuel; lia|]. cbn.
    rewrite (proj2 (get_forward_Ret _ _ _ _) Hc). cbn.
    rewrite (proj2 (get_key_Ret _ _ _) Hk). cbn.
    rewrite (IH fuel (e_id e)); [done..|]. cbn in Hfuel. lia.
Qed.

Lemma filter_tall_sublist i j (L : list entry) :
  (i ≤ j)%nat → filter (tall j) L `sublist_of` filter (tall i) L.
Proof.
  intros Hij. induction L as [|e L IH]; [done|].
  rewrite !filter_cons.
  repeat case_decide; unfold tall in *;
    first [lia | by apply sublist_skip | by apply sublist_cons | done].
Qed.

Lemma filter_tall_nil i (L : list entry) :
  Forall (λ e, (e_height e < i)%nat) L → filter (tall i) L = [].
Proof.
  induction 1 as [|e L He _ IH]; [done|].
  rewrite filter_cons. case_decide as Ht; [unfold tall in Ht; lia|done].
Qed.

Lemma level_nodes_spec sl L i fuel :
  Inv sl L → (i ≤ max_level sl)%nat → (length L ≤ fuel)%nat →
  level_nodes fuel sl i = Ret (view <$> filter (tall i) L).
Proof.
  intros HI Hi Hfuel. unfold level_nodes. rewrite (inv_header _ _ HI).
  apply walk_spec.
  - apply (inv_chain _ _ HI i Hi).
  - pose proof (inv_nodes _ _ HI) as Hnodes. unfold nodes_ok in *.
    rewrite Forall_forall in Hnodes. apply Forall_forall.
    intros e [_ He]%list_elem_of_filter. by apply Hnodes.
  - pose proof (length_filter (tall i) L). lia.
Qed.

(** X18.  In every reachable state the chain of each level is a
    sub-sequence of the chain of every lower level, the chain of level 0
    is the one [level0] walks, a node met at level [i] has level at least
    [i], and the chains above the active level are empty. *)
Theorem skiplist_levels_nested (sl : SkipList) (i j fuel : nat) :
  reachable sl →
  (i ≤ j)%nat → (j ≤ max_level sl)%nat → (Z.to_nat (size sl) ≤ fuel)%nat →
  ∃ li lj,
    level_nodes fuel sl i = Ret li ∧
    level_nodes fuel sl j = Ret lj ∧
    lj `sublist_of` li ∧
    level_nodes fuel sl 0 = level0 fuel sl ∧
    (∀ n k, (n, k) ∈ lj →
       ∃ nd, heap sl !! n = Some nd ∧ (j < length (forward nd))%nat) ∧
    ((level sl < j)%nat → lj = []).
Proof.
  intros [L HI]%reachable_Inv Hij Hj Hfuel.
  pose proof (inv_size _ _ HI) as Hsize.
  exists (view <$> filter (tall i) L), (view <$> filter (tall j) L).
  split_and!.
  - apply level_nodes_spec; [done|lia|lia].
  - apply level_nodes_spec; [done|lia|lia].
  - apply fmap_sublist. by apply filter_tall_sublist.
  - rewrite (level_nodes_spec sl L 0 fuel HI); [|lia|lia].
    rewrite (level0_view_fuel sl L fuel HI Hfuel). f_equal. f_equal.
    clear. induction L as [|e L IH]; [done|].
    rewrite filter_cons. case_decide as Ht; [by f_equal|unfold tall in Ht; lia].
  - intros n k (e & [= -> ->] & [Ht He]%list_elem_of_filter)%list_elem_of_fmap.
    destruct (nodes_ok_elem _ _ _ (inv_nodes _ _ HI) He) as [_ Hflen].
    unfold flen in Hflen. destruct (heap sl !! e_id e) as [nd|]; [|done].
    exists nd. split; [done|]. cbn in Hflen. injection Hflen as Hflen.
    unfold tall in Ht. lia.
  - intros Hlvl. rewrite filter_tall_nil; [done|].
    eapply Forall_impl; [apply (inv_heights _ _ HI)|]. cbn. lia.
Qed.

Lemma skiplist_levels_nested_witness :
  ∃ sl1 sl2,
    insert 3 (init 2) 5 (λ _, true) = Ret sl1 ∧
    insert 3 sl1 3 (λ _, false) = Ret sl2 ∧
    ∃ li lj,
      level_nodes 3 sl2 0 = Ret li ∧
      level_nodes 3 sl2 1 = Ret lj ∧
      lj `sublist_of` li ∧
      level_nodes 3 sl2 0 = level0 3 sl2 ∧
      (∀ n k, (n, k) ∈ lj →
         ∃ nd, heap sl2 !! n = Some nd ∧ (1 < length (forward nd))%nat) ∧
      ((level sl2 < 1)%nat → lj = []).
Proof.
  eexists. eexists.
  split; [vm_compute; reflexivity|]. split; [vm_compute; reflexivity|].
  apply (skiplist_levels_nested _ 0 1 3).
  - eapply (reachable_insert _ 3 3 (λ _, false));
      [eapply (reachable_insert (init 2) 3 5 (λ _, true));
         [apply reachable_init|vm_compute; reflexivity]
      |vm_compute; reflexivity].
  - lia.
  - vm_compute. lia.
  - vm_compute. lia.
Defined.

(** ** The active level *)

Lemma shrink_tight h ml L : ∀ lvl lvl',
  (lvl ≤ ml)%nat →
  (∀ j, (j ≤ ml)%nat → chain h j 0 (ids_at j L)) →
  shrink h 0 lvl = Ret lvl' →
  lvl' = 0%nat ∨ ids_at lvl' L ≠ [].
Proof.
  induction lvl as [|lvl IH]; intros lvl' Hlvl Hchain; cbn.
  - intros [= <-]. by left.
  - pose proof (chain_next h (S lvl) 0%nat [] (ids_at (S lvl) L) (Hchain _ Hlvl))
      as Hnext.
    change (last_or 0%nat []) with 0%nat in Hnext.
    rewrite (proj2 (get_forward_Ret _ _ _ _) Hnext). cbn.
    destruct (ids_at (S lvl) L) as [|z l] eqn:Hids; cbn.
    + apply IH; [lia|done].
    + intros [= <-]. right. by rewrite Hids.
Qed.

Lemma ids_at_tall i L : ids_at i L ≠ [] → ∃ e, e ∈ L ∧ (i ≤ e_height e)%nat.
Proof.
  unfold ids_at. destruct (filter (tall i) L) as [|e l] eqn:Hf; [done|].
  intros _. exists e.
  assert (e ∈ filter (tall i) L) as [Ht He]%list_elem_of_filter
    by (rewrite Hf; by left).
  done.
Qed.

Lemma reachable_tight sl : reachable sl → ∃ L, Inv sl L ∧ level_tight sl L.
Proof.
  induction 1 as [ml|sl fuel key draws sl' _ (L & HI & Ht) Hrun
                    |sl fuel key found sl' _ (L & HI & Ht) Hrun].
  - exists []. split; [apply Inv_init|]. by left.
  - set (fuel' := (fuel `max` (length L `max` max_level sl))%nat).
    destruct (insert_spec_level sl L fuel' key draws HI)
      as (sl2 & A & B & nl & Hrun2 & -> & _ & _ & _ & _ & Hlvl & HI2); [lia..|].
    rewrite (insert_mono fuel fuel' _ _ _ _ ltac:(lia) Hrun) in Hrun2.
    injection Hrun2 as ->. eexists. split; [exact HI2|].
    destruct (decide (level sl ≤ nl)%nat) as [Hle|Hgt].
    + right. eexists. split; [apply elem_of_app; right; by left|]. cbn. lia.
    + destruct Ht as [Hz|(e & He & Hh)]; [lia|].
      right. exists e. split; [|lia].
      apply elem_of_app in He as [?|?]; apply elem_of_app; [by left|].
      right. by right.
  - set (fuel' := (fuel `max` length L)%nat).
    destruct (delete_spec_level sl L fuel' key HI)
      as (found2 & sl2 & Hrun2 & _ & Hml & Hcases); [lia|].
    rewrite (delete_mono fuel fuel' _ _ _ ltac:(lia) Hrun) in Hrun2.
    injection Hrun2 as -> ->.
    destruct found2; [|subst; eauto].
    destruct Hcases as (A & d & B & _ & _ & _ & _ & Hshrink & HI2).
    exists (A ++ B). split; [done|].
    destruct (shrink_tight (heap sl2) (max_level sl2) (A ++ B) (level sl) (level sl2))
      as [Hz|Hne]; [rewrite Hml; apply HI|apply HI2|done|by left|].
    right. destruct (ids_at_tall _ _ Hne) as (e & He & Hh).
    exists e. split; [done|].
    pose proof (inv_heights _ _ HI2) as Hheights.
    rewrite Forall_forall in Hheights. specialize (Hheights e He). lia.
Qed.

(** X19.  In every reachable state the active level is the largest level
    of a stored node, and 0 when the list is empty: no node met on the
    level-0 walk has more than [level + 1] forward pointers, and when the
    active level is positive some node has exactly that many. *)
Theorem skiplist_level_tight (sl : SkipList) (fuel : nat) :
  reachable sl → (Z.to_nat (size sl) ≤ fuel)%nat →
  ∃ nodes,
    level0 fuel sl = Ret nodes ∧
    (∀ n, n ∈ nodes.*1 →
       ∃ nd, heap sl !! n = Some nd ∧
         (1 ≤ length (forward nd) ≤ level sl + 1)%nat) ∧
    (level sl = 0%nat ∨
       ∃ n nd, n ∈ nodes.*1 ∧ heap sl !! n = Some nd ∧
         length (forward nd) = (level sl + 1)%nat).
Proof.
  intros (L & HI & Ht)%reachable_tight Hfuel.
  exists (view <$> L). split; [by apply level0_view_fuel|].
  assert (∀ e, e ∈ L →
    ∃ nd, heap sl !! e_id e = Some nd ∧
      length (forward nd) = (e_height e + 1)%nat) as Hnode.
  { intros e He.
    destruct (nodes_ok_elem _ _ _ (inv_nodes _ _ HI) He) as [_ Hflen].
    unfold flen in Hflen. destruct (heap sl !! e_id e) as [nd|]; [|done].
    exists nd. split; [done|]. cbn in Hflen. by injection Hflen. }
  assert (∀ n, n ∈ (view <$> L).*1 ↔ ∃ e, e ∈ L ∧ n = e_id e) as Hids.
  { intros n. rewrite <- list_fmap_compose, list_elem_of_fmap.
    split; intros (e & ? & ?); exists e; done. }
  split.
  - intros n (e & He & ->)%Hids. destruct (Hnode e He) as (nd & Hnd & Hlen).
    exists nd. split; [done|].
    pose proof (inv_heights _ _ HI) as Hheights.
    rewrite Forall_forall in Hheights. specialize (Hheights e He). lia.
  - destruct Ht as [Hz|(e & He & Hh)]; [by left|]. right.
    destruct (Hnode e He) as (nd & Hnd & Hlen).
    exists (e_id e), nd. split_and!; [|done|lia].
    apply Hids. by exists e.
Qed.

Lemma skiplist_level_tight_witness :
  ∃ sl1 sl2,
    insert 3 (init 2) 5 (λ _, true) = Ret sl1 ∧
    insert 3 sl1 3 (λ _, false) = Ret sl2 ∧
    ∃ nodes,
      level0 3 sl2 = Ret nodes ∧
      (∀ n, n ∈ nodes.*1 →
         ∃ nd, heap sl2 !! n = Some nd ∧
           (1 ≤ length (forward nd) ≤ level sl2 + 1)%nat) ∧
      (level sl2 = 0%nat ∨
         ∃ n nd, n ∈ nodes.*1 ∧ heap sl2 !! n = Some nd ∧
           length (forward nd) = (level sl2 + 1)%nat).
Proof.
  eexists. eexists.
  split; [vm_compute; reflexivity|]. split; [vm_compute; reflexivity|].
  apply (skiplist_level_tight _ 3).
  - eapply (reachable_insert _ 3 3 (λ _, false));
      [eapply (reachable_insert (init 2) 3 5 (λ _, true));
         [apply reachable_init|vm_compute; reflexivity]
      |vm_compute; reflexivity].
  - vm_compute. lia.
Defined.

End skiplist_extra.

(** * Which calls return *)

Section returns.

(** ** The calls of the trie *)

Lemma trie_insert_loop_spec cost depth : ∀ word node,
  (cost + 1 ≤ depth)%nat →
  TrieRun.insert_loop cost depth word node = Ret (Trie.insert_node word node).
Proof.
  induction word as [|c word IH]; intros node Hdepth; [done|].
  cbn [TrieRun.insert_loop Trie.insert_node]. unfold TrieRun.dict_in.
  destruct (Trie.dict_get c (Trie.children node)) as [child|] eqn:Hget;
    cbn [negb default].
  - cbn. unfold TrieRun.dict_item. rewrite Hget. cbn.
    rewrite IH by done. cbn.
    by destruct (Trie.insert_node word child) as [child' added].
  - unfold TrieRun.make_node, TrieRun.builtin.
    rewrite decide_True by lia.
    destruct (depth - cost)%nat as [|depth'] eqn:Hd; [lia|]. cbn.
    unfold TrieRun.dict_item. rewrite dict_get_set_eq. cbn.
    rewrite IH by lia. cbn.
    destruct (Trie.insert_node word Trie.new_node) as [child' added].
    by rewrite dict_set_set.
Qed.

Lemma trie_find_loop_spec : ∀ word node,
  TrieRun.find_loop word node = Ret (Trie.find_node word node).
Proof.
  induction word as [|c word IH]; intros node; [done|].
  cbn [TrieRun.find_loop Trie.find_node].
  unfold TrieRun.dict_in, TrieRun.dict_item.
  destruct (Trie.dict_get c (Trie.children node)) as [child|]; cbn; [|done].
  apply IH.
Qed.

Lemma trie_search_find : ∀ word node,
  Trie.search_node word node =
  match Trie.find_node word node with
  | Some node' => Trie.is_end node'
  | None => false
  end.
Proof.
  induction word as [|c word IH]; intros node; [done|]. cbn.
  destruct (Trie.dict_get c (Trie.children node)) as [child|]; [|done].
  apply IH.
Qed.

Lemma trie_delete_loop_spec : ∀ word node,
  TrieRun.delete_loop word node = Ret (Trie.delete_node word node).
Proof.
  induction word as [|c word IH]; intros node.
  - cbn. by destruct (Trie.is_end node).
  - cbn [TrieRun.delete_loop Trie.delete_node].
    unfold TrieRun.dict_in, TrieRun.dict_item.
    destruct (Trie.dict_get c (Trie.children node)) as [child|]; cbn; [|done].
    rewrite IH. cbn. by destruct (Trie.delete_node word child).
Qed.

Lemma trie_dfs_collect_Node e cs cur res :
  Trie._dfs_collect (Trie.Node e cs) cur res =
  foldl (λ acc cv, Trie._dfs_collect cv.2 (cur +:+ String cv.1 "") acc)
    (if e then res ++ [cur] else res) cs.
Proof.
  cbn [Trie._dfs_collect]. generalize (if e then res ++ [cur] else res).
  induction cs as [|[c child] cs IH]; intros acc; [done|].
  cbn [foldl fst snd]. apply IH.
Qed.

Lemma trie_height_Node e cs :
  TrieRun.height (Trie.Node e cs) =
  foldr (λ cv h, (S (TrieRun.height cv.2) `max` h)%nat) 0%nat cs.
Proof.
  cbn [TrieRun.height].
  induction cs as [|[c child] cs IH]; [done|].
  cbn [foldr fst snd]. by rewrite <- IH.
Qed.

(** The traversal returns when the interpreter allows one more call than
    the tree has levels, and a call of a built-in within the last of
    them; it raises [RecursionError] otherwise. *)
Lemma trie_dfs_collect_run cost : ∀ depth node cur res,
  TrieRun._dfs_collect cost depth node cur res =
  if decide (TrieRun.height node + cost < depth)%nat
  then Ret (Trie._dfs_collect node cur res)
  else Raise RecursionError.
Proof.
  induction depth as [|depth IH]; intros [e cs] cur res.
  - cbn [TrieRun._dfs_collect]. by rewrite decide_False by lia.
  - cbn [TrieRun._dfs_collect Trie.is_end Trie.children].
    unfold TrieRun.builtin.
    destruct (decide (cost ≤ depth)%nat) as [Hcost|Hcost]; cycle 1.
    { rewrite decide_False by lia. by destruct e. }
    rewrite trie_dfs_collect_Node, trie_height_Node.
    assert (∀ acc,
      TrieRun.dfs_items (TrieRun._dfs_collect cost depth) cs cur acc =
      if decide (foldr (λ cv h, (S (TrieRun.height cv.2) `max` h)%nat)
                   0%nat cs + cost < S depth)%nat
      then Ret (foldl (λ acc cv,
                  Trie._dfs_collect cv.2 (cur +:+ String cv.1 "") acc) acc cs)
      else Raise RecursionError) as Hitems.
    { induction cs as [|[c child] cs IHcs]; intros acc.
      - cbn. by rewrite decide_True by lia.
      - cbn [TrieRun.dfs_items foldl foldr fst snd]. rewrite IH.
        destruct (decide (TrieRun.height child + cost < depth)%nat) as [Hc|Hc];
          cbn.
        + rewrite IHcs. repeat case_decide; first [done|lia].
        + by rewrite decide_False by lia. }
    destruct e; cbn; apply Hitems.
Qed.

Lemma trie_height_dict_set c v cs :
  (S (TrieRun.height v) ≤
   foldr (λ cv h, (S (TrieRun.height cv.2) `max` h)%nat) 0
     (Trie.dict_set c v cs))%nat.
Proof.
  induction cs as [|[c0 v0] cs IH]; cbn.
  - lia.
  - destruct (decide (c = c0)); cbn; lia.
Qed.

(** A word of [n] characters leaves a tree with at least [n] levels. *)
Lemma trie_height_insert_node : ∀ word node,
  (String.length word ≤ TrieRun.height (Trie.insert_node word node).1)%nat.
Proof.
  induction word as [|c word IH]; intros node; [cbn; lia|].
  rewrite insert_node_cons. cbn [fst String.length].
  rewrite trie_height_Node.
  etrans; [|apply trie_height_dict_set]. specialize (IH
    (default Trie.new_node (Trie.dict_get c (Trie.children node)))). lia.
Qed.

Lemma trie_get_all_words_run cost depth t prefix :
  TrieRun.get_all_words_with_prefix cost depth t prefix =
  match depth with
  | O => Raise RecursionError
  | S depth' =>
      match Trie.find_node prefix (Trie.root t) with
      | None => Ret []
      | Some node =>
          if decide (TrieRun.height node + cost < depth')%nat
          then Ret (Trie._dfs_collect node prefix [])
          else Raise RecursionError
      end
  end.
Proof.
  destruct depth as [|depth']; [done|].
  cbn [TrieRun.get_all_words_with_prefix TrieRun.call].
  rewrite trie_find_loop_spec. cbn.
  destruct (Trie.find_node prefix (Trie.root t)) as [node|]; [|done].
  apply trie_dfs_collect_run.
Qed.

(** ** All operations *)

(** C3, amended (termination).  On every state of a Fenwick tree and every
    reachable skip list, with fuel at least the sizes and the maximum
    level: [update] returns for every index [≥ 0] (also beyond the size),
    [query] for every index below the size (also negative),
    [range_query] for [left ≤ size] and [right < size], [build_from_array]
    for every array; [_random_level], [insert], [search] and [delete]
    return for every key and every sequence of draws.  On every trie and
    every word, of any length, with [cost] the levels of nesting a call of
    a built-in takes: [insert] returns when the interpreter allows
    [cost + 2] further nested calls, [search], [starts_with] and [delete]
    when it allows one, each with the result of the corresponding function
    of [Trie]; [get_all_words_with_prefix] returns when the prefix is
    absent, or when the interpreter allows [cost + 2] more nested calls
    than the tree has levels below the node of the prefix, and raises
    [RecursionError] when it allows fewer, as it does for the empty prefix
    after the [insert] of a word with more characters than that. *)
Theorem operations_return
    (ft : Fenwick.FenwickTree) (sl : SkipList.SkipList) (fuel : nat) :
  Fenwick.wf ft → SkipList.reachable sl →
  (Z.to_nat (Fenwick.size ft) ≤ fuel)%nat →
  (Z.to_nat (SkipList.size sl) ≤ fuel)%nat →
  (SkipList.max_level sl ≤ fuel)%nat →
  (∀ index delta, 0 ≤ index →
     ∃ ft', Fenwick.update fuel ft index delta = Ret ft' ∧
       Fenwick.wf ft' ∧ Fenwick.size ft' = Fenwick.size ft) ∧
  (∀ index, index < Fenwick.size ft →
     ∃ v, Fenwick.query fuel ft index = Ret v) ∧
  (∀ left right, left ≤ Fenwick.size ft → right < Fenwick.size ft →
     ∃ v, Fenwick.range_query fuel ft left right = Ret v) ∧
  (∀ arr, ∃ ft', Fenwick.build_from_array fuel ft arr = Ret ft' ∧
     Fenwick.wf ft' ∧ Fenwick.size ft' = Fenwick.size ft) ∧
  (∀ draws, ∃ nl, SkipList._random_level fuel sl draws = Ret nl ∧
     (nl ≤ SkipList.max_level sl)%nat) ∧
  (∀ key draws, ∃ sl', SkipList.insert fuel sl key draws = Ret sl' ∧
     SkipList.reachable sl') ∧
  (∀ key, ∃ found, SkipList.search fuel sl key = Ret found) ∧
  (∀ key, ∃ found sl', SkipList.delete fuel sl key = Ret (found, sl') ∧
     SkipList.reachable sl') ∧
  (∀ (t : Trie.Trie) (word : string) (cost depth : nat),
     ((cost + 2 ≤ depth)%nat →
        TrieRun.insert cost depth t word = Ret (Trie.insert t word)) ∧
     ((1 ≤ depth)%nat →
        TrieRun.search depth t word = Ret (Trie.search t word) ∧
        TrieRun.starts_with depth t word = Ret (Trie.starts_with t word) ∧
        TrieRun.delete depth t word = Ret (Trie.delete t word)) ∧
     ((1 ≤ depth)%nat → Trie.find_node word (Trie.root t) = None →
        TrieRun.get_all_words_with_prefix cost depth t word = Ret []) ∧
     (∀ node, Trie.find_node word (Trie.root t) = Some node →
        ((TrieRun.height node + cost + 2 ≤ depth)%nat →
           TrieRun.get_all_words_with_prefix cost depth t word =
           Ret (Trie.get_all_words_with_prefix t word)) ∧
        ((depth < TrieRun.height node + cost + 2)%nat →
           TrieRun.get_all_words_with_prefix cost depth t word =
           Raise RecursionError)) ∧
     ((depth < String.length word + cost + 2)%nat →
        TrieRun.get_all_words_with_prefix cost depth (Trie.insert t word) "" =
        Raise RecursionError)).
Proof.
  intros Hwf Hreach Hfuelft Hfuelsl Hfuelml.
  destruct (reachable_Inv sl Hreach) as [L HI].
  pose proof (SkipList.inv_size _ _ HI) as Hsize.
  split_and!.
  - intros index delta Hindex. by apply fenwick_update_total.
  - intros index Hindex. by apply fenwick_query_total.
  - intros left right Hleft Hright. unfold Fenwick.range_query.
    destruct (fenwick_query_total fuel ft right Hwf Hright Hfuelft) as [qr Hqr].
    case_bool_decide; [|by exists qr].
    destruct (fenwick_query_total fuel ft (left - 1) Hwf ltac:(lia) Hfuelft)
      as [ql Hql].
    exists (qr - ql). by rewrite Hqr, Hql.
  - intros arr. by apply fenwick_build_loop_total.
  - intros draws.
    destruct (random_level_loop_spec (SkipList.max_level sl) draws fuel 0)
      as (nl & Hrun & Hnl); [lia..|].
    exists nl. split; [done|lia].
  - intros key draws.
    destruct (insert_spec sl L fuel key draws HI) as (sl' & _ & _ & _ & Hrun & _);
      [lia..|].
    exists sl'. split; [done|]. by eapply SkipList.reachable_insert.
  - intros key. eexists. apply (search_spec sl L); [done|lia].
  - intros key.
    destruct (delete_spec sl L fuel key HI) as (found & sl' & Hrun & _); [lia|].
    exists found, sl'. split; [done|]. by eapply SkipList.reachable_delete.
  - intros t word cost depth. split_and!.
    + intros Hdepth. destruct depth as [|depth']; [lia|].
      unfold TrieRun.insert, Trie.insert. cbn [TrieRun.call].
      rewrite trie_insert_loop_spec by lia. cbn.
      by destruct (Trie.insert_node word (Trie.root t)).
    + intros Hdepth. destruct depth as [|depth']; [lia|].
      unfold TrieRun.search, TrieRun.starts_with, TrieRun.delete.
      cbn [TrieRun.call].
      rewrite trie_find_loop_spec, trie_delete_loop_spec. cbn.
      unfold Trie.search, Trie.starts_with, Trie.delete.
      rewrite trie_search_find.
      split_and!.
      * by destruct (Trie.find_node word (Trie.root t)).
      * by destruct (Trie.find_node word (Trie.root t)).
      * by destruct (Trie.delete_node word (Trie.root t)).
    + intros Hdepth Hfind. rewrite trie_get_all_words_run, Hfind.
      destruct depth; [lia|done].
    + intros node Hfind. rewrite trie_get_all_words_run.
      unfold Trie.get_all_words_with_prefix. rewrite Hfind. split.
      * intros Hdepth. destruct depth as [|depth']; [lia|].
        by rewrite decide_True by lia.
      * intros Hdepth. destruct depth as [|depth']; [done|].
        by rewrite decide_False by lia.
    + intros Hdepth. rewrite trie_get_all_words_run.
      destruct depth as [|depth']; [done|]. cbn [Trie.find_node].
      rewrite decide_False; [done|].
      pose proof (trie_height_insert_node word (Trie.root t)) as Hh.
      unfold Trie.insert.
      destruct (Trie.insert_node word (Trie.root t)) as [root' added].
      cbn [Trie.root]. cbn [fst] in Hh. lia.
Qed.

Lemma operations_return_witness :
  ∃ ft1 ft2 sl1 sl2,
    Fenwick.update 4 (Fenwick.init 4) 1 5 = Ret ft1 ∧
    Fenwick.update 4 ft1 3 (-2) = Ret ft2 ∧
    SkipList.insert 4 (SkipList.init 2) 5 (λ _, true) = Ret sl1 ∧
    SkipList.insert 4 sl1 3 (λ _, false) = Ret sl2 ∧
    (∀ index delta, 0 ≤ index →
       ∃ ft', Fenwick.update 4 ft2 index delta = Ret ft' ∧
         Fenwick.wf ft' ∧ Fenwick.size ft' = Fenwick.size ft2) ∧
    (∀ index, index < Fenwick.size ft2 →
       ∃ v, Fenwick.query 4 ft2 index = Ret v) ∧
    (∀ left right, left ≤ Fenwick.size ft2 → right < Fenwick.size ft2 →
       ∃ v, Fenwick.range_query 4 ft2 left right = Ret v) ∧
    (∀ arr, ∃ ft', Fenwick.build_from_array 4 ft2 arr = Ret ft' ∧
       Fenwick.wf ft' ∧ Fenwick.size ft' = Fenwick.size ft2) ∧
    (∀ draws, ∃ nl, SkipList._random_level 4 sl2 draws = Ret nl ∧
       (nl ≤ SkipList.max_level sl2)%nat) ∧
    (∀ key draws, ∃ sl', SkipList.insert 4 sl2 key draws = Ret sl' ∧
       SkipList.reachable sl') ∧
    (∀ key, ∃ found, SkipList.search 4 sl2 key = Ret found) ∧
    (∀ key, ∃ found sl', SkipList.delete 4 sl2 key = Ret (found, sl') ∧
       SkipList.reachable sl') ∧
    (∀ (t : Trie.Trie) (word : string) (cost depth : nat),
       ((cost + 2 ≤ depth)%nat →
          TrieRun.insert cost depth t word = Ret (Trie.insert t word)) ∧
       ((1 ≤ depth)%nat →
          TrieRun.search depth t word = Ret (Trie.search t word) ∧
          TrieRun.starts_with depth t word = Ret (Trie.starts_with t word) ∧
          TrieRun.delete depth t word = Ret (Trie.delete t word)) ∧
       ((1 ≤ depth)%nat → Trie.find_node word (Trie.root t) = None →
          TrieRun.get_all_words_with_prefix cost depth t word = Ret []) ∧
       (∀ node, Trie.find_node word (Trie.root t) = Some node →
          ((TrieRun.height node + cost + 2 ≤ depth)%nat →
             TrieRun.get_all_words_with_prefix cost depth t word =
             Ret (Trie.get_all_words_with_prefix t word)) ∧
          ((depth < TrieRun.height node + cost + 2)%nat →
             TrieRun.get_all_words_with_prefix cost depth t word =
             Raise RecursionError)) ∧
       ((depth < String.length word + cost + 2)%nat →
          TrieRun.get_all_words_with_prefix cost depth (Trie.insert t word) "" =
          Raise RecursionError)).
Proof.
  eexists. eexists. eexists. eexists.
  split; [vm_compute; reflexivity|]. split; [vm_compute; reflexivity|].
  split; [vm_compute; reflexivity|]. split; [vm_compute; reflexivity|].
  apply (operations_return _ _ 4).
  - vm_compute. reflexivity.
  - eapply (SkipList.reachable_insert _ 4 3 (λ _, false));
      [eapply (SkipList.reachable_insert (SkipList.init 2) 4 5 (λ _, true));
         [apply SkipList.reachable_init|vm_compute; reflexivity]
      |vm_compute; reflexivity].
  - vm_compute. lia.
  - vm_compute. lia.
  - vm_compute. lia.
Defined.

End returns.
